(** * Free resolutions and graded free resolutions (sage.homology.resolutions)

    A shallow embedding of the data-conversion and graded-bookkeeping layer
    of [free.pyx] and [graded.pyx]: the decoder that walks the Singular
    resolution structure, the computation of the graded shifts, and the
    indexed queries of the resolution objects.

    Python lists are lists, Python dictionaries are [gmap]s, raised
    exceptions are the [Raise] results of an error monad, and the Singular
    linked list of terms of a polynomial is the list of its terms. *)

From stdpp Require Import gmap strings list fin_maps vector pretty.
From Stdlib Require Import ZArith Lia Ring.

Open Scope Z_scope.

(** * The model *)

(** ** Exceptions and results *)

Inductive exn : Type :=
  | IndexError (msg : string)
  | ValueError (msg : string)
  | TypeError (msg : string)
  | UnboundLocalError (var : string)
  | AttributeError (msg : string)
  | OverflowError.

Inductive result (A : Type) : Type :=
  | Ok (a : A)
  | Raise (e : exn).

Arguments Ok {A} a.
Arguments Raise {A} e.

Global Instance result_ret : MRet result := λ A a, Ok a.

Global Instance result_bind : MBind result := λ A B f m,
  match m with
  | Ok a => f a
  | Raise e => Raise e
  end.

Global Instance result_fmap : FMap result := λ A B f m,
  match m with
  | Ok a => Ok (f a)
  | Raise e => Raise e
  end.

Definition is_Ok {A} (m : result A) : Prop := ∃ a, m = Ok a.

(** [l[i]] on a Python list: a negative index counts from the end, and an
    index outside [-len(l) .. len(l)-1] raises [IndexError]. *)
Definition py_getitem {A} (l : list A) (i : Z) : result A :=
  let n := Z.of_nat (length l) in
  let k := if decide (i < 0) then i + n else i in
  if decide (0 ≤ k < n) then
    match l !! Z.to_nat k with
    | Some a => Ok a
    | None => Raise (IndexError "list index out of range")
    end
  else Raise (IndexError "list index out of range").

(** ** Gradings

    The degrees given to the variables are integers or integer vectors of
    one fixed length.  [deg_add] is [d + e], [deg_scale] is [exps[k] *
    degrees[k]], [zero_deg] is [0], respectively
    [degrees[0].parent().zero()], and [monomial_args] lists the exponents
    handed to [L.monomial].  [deg_eqb d s] is [d == s], and [hashable d]
    tells whether [hash(d)] returns, so that [d] can be the key of a
    dictionary: an integer is hashable, a vector only once it has been
    made immutable ([TypeError: mutable vectors are unhashable]). *)

Class Grading (D : Type) `{Countable D} := {
  zero_deg : D;
  deg_add : D → D → D;
  deg_scale : Z → D → D;
  multigrade : bool;
  monomial_args : D → list Z;
  deg_eqb : D → D → bool;
  hashable : D → bool
}.

Global Instance standard_grading : Grading Z := {|
  zero_deg := 0;
  deg_add := Z.add;
  deg_scale := Z.mul;
  multigrade := false;
  monomial_args := λ v, [v];
  deg_eqb := Z.eqb;
  hashable := λ _, true
|}.

(** An integer vector of Sage: its coordinates, and whether it has been
    made immutable.  A vector is born mutable: [vector(...)] and the
    arithmetic of vectors return mutable vectors; the zero of the module,
    [parent().zero()], is kept immutable.  [==] compares the
    coordinates. *)
Record sage_vector (n : nat) : Type := SageVector {
  coords : vec Z n;
  immutable : bool
}.

Arguments SageVector {n} coords immutable.
Arguments coords {n} _.
Arguments immutable {n} _.

Global Instance sage_vector_eq_dec (n : nat) : EqDecision (sage_vector n).
Proof. solve_decision. Defined.

Global Instance sage_vector_countable (n : nat) : Countable (sage_vector n) :=
  inj_countable' (λ v, (coords v, immutable v))
                 (λ p, SageVector p.1 p.2)
                 (λ v, match v with SageVector _ _ => eq_refl end).

Global Instance vector_grading (n : nat) : Grading (sage_vector n) := {|
  zero_deg := SageVector (vreplicate n 0) true;
  deg_add := λ d e, SageVector (vzip_with Z.add (coords d) (coords e)) false;
  deg_scale := λ c d, SageVector (vmap (Z.mul c) (coords d)) false;
  multigrade := true;
  monomial_args := λ d, vec_to_list (coords d);
  deg_eqb := λ d e, bool_decide (coords d = coords e);
  hashable := immutable
|}.

(** ** Singular data

    A polynomial ([poly *]) is a linked list of terms; [NULL] is the empty
    list.  A term carries its coefficient, its exponents and the component
    (the row of the module it belongs to). *)

Record term (K : Type) : Type := Term {
  coef : K;
  exps : list nat;
  comp : nat
}.

Arguments Term {K} coef exps comp.
Arguments coef {K} _.

Arguments exps {K} _.
Arguments comp {K} _.

Abbreviation poly K := (list (term K)).

(** The [ideal] struct of a module: its rank and its array [m] of
    [ncols] generators. *)
Record sip_sideal (K : Type) : Type := Sideal {
  rank : nat;
  m : list (poly K)
}.

Arguments Sideal {K} rank m.
Arguments rank {K} _.

Arguments m {K} _.

Definition IDELEMS {K} (md : sip_sideal K) : nat := length (m md).

(** A [resolvente] is an array of pointers to modules; the entries that
    the engine did not fill are [NULL]. *)
Abbreviation resolvente K := (list (option (sip_sideal K))).

Definition resolvente_at {K} (mods : resolvente K) (idx : nat)
  : option (sip_sideal K) := mjoin (mods !! idx).

Record syStrategy (K : Type) : Type := SyStrategy {
  minres : option (resolvente K);
  fullres : option (resolvente K);
  res_length : nat
}.

Arguments SyStrategy {K} minres fullres res_length.
Arguments minres {K} _.

Arguments fullres {K} _.
Arguments res_length {K} _.

(** The Singular ring, with its number [N] of variables. *)
Record ring : Type := Ring { N : nat }.

Record Resolution (K : Type) : Type := MkResolution {
  _resolution : syStrategy K;
  base_ring : ring
}.

Arguments MkResolution {K} _resolution base_ring.
Arguments _resolution {K} _.

Arguments base_ring {K} _.

(** ** Sage matrices over the polynomial ring (dense, by rows) *)

Record matrix (K : Type) : Type := Matrix {
  nrows : nat;
  ncols : nat;
  entries : list (list (poly K))
}.

Arguments Matrix {K} nrows ncols entries.
Arguments nrows {K} _.

Arguments ncols {K} _.
Arguments entries {K} _.

(** [_matrix(sage_ring, nrows, ncols)]: the zero matrix. *)
Definition zero_matrix {K} (r c : nat) : matrix K :=
  Matrix r c (replicate r (replicate c [])).

(** [mat[i, j] = v], for [i] and [j] within the matrix. *)
Definition set_entry {K} (mat : matrix K) (i j : nat) (v : poly K) : matrix K :=
  Matrix (nrows mat) (ncols mat) (alter (<[j := v]>) i (entries mat)).

Definition entry {K} (mat : matrix K) (i j : nat) : option (poly K) :=
  entries mat !! i ≫= (.!! j).

Definition is_NULL {K} (p : poly K) : bool :=
  match p with
  | [] => true
  | _ :: _ => false
  end.

(** ** The decoders *)

Section decoder.
Context {K : Type}.

Definition p_SetComp (t : term K) (c : nat) : term K :=
  Term (coef t) (exps t) c.

(** The [while p_iter != NULL] loop: the terms of [p] of component [i]
    are unlinked from [p], retagged with component [0] and chained, in
    their order, into [first]; the other terms stay in [p], in their
    order.  The result is the pair of [first] and the new [p]. *)
Fixpoint split_comp (i : nat) (p : poly K) : poly K * poly K :=
  match p with
  | [] => ([], [])
  | p_iter :: next =>
      let '(first, p') := split_comp i next in
      if decide (comp p_iter = i)
      then (p_SetComp p_iter 0 :: first, p')
      else (first, p_iter :: p')
  end.

(** *** [to_sage_resolution] of [free.pyx] *)

(** The body of [for i in range(1, rank + 1)]. *)
Definition free_row (j : nat) (st : poly K * matrix K * bool) (i : nat)
  : poly K * matrix K * bool :=
  let '(p, mat, zero_mat) := st in
  let '(first, p) := split_comp i p in
  let zero_mat := if zero_mat then is_NULL first else zero_mat in
  (p, set_entry mat (i - 1) j first, zero_mat).

(** The body of [for j in range(ncols)]. *)
Definition free_col (rank : nat) (st : matrix K * bool) (jp : nat * poly K)
  : matrix K * bool :=
  let '(mat, zero_mat) := st in
  let '(j, p) := jp in
  let '(_, mat, zero_mat) := foldl (free_row j) (p, mat, zero_mat) (seq 1 rank) in
  (mat, zero_mat).

Definition free_matrix (md : sip_sideal K) : matrix K * bool :=
  foldl (free_col (rank md)) (zero_matrix (rank md) (IDELEMS md), true)
        (imap pair (m md)).

(** The loop [for idx in range(singular_res.length)], with its two
    [break]s. *)
Fixpoint free_walk (mods : resolvente K) (idxs : list nat)
    (res_mats : list (matrix K)) : list (matrix K) :=
  match idxs with
  | [] => res_mats
  | idx :: idxs =>
      match resolvente_at mods idx with
      | None => res_mats
      | Some md =>
          let '(mat, zero_mat) := free_matrix md in
          if zero_mat then res_mats
          else free_walk mods idxs (res_mats ++ [mat])
      end
  end.

Definition select_mods (singular_res : syStrategy K) : result (resolvente K) :=
  match minres singular_res with
  | Some mods => Ok mods
  | None =>
      match fullres singular_res with
      | Some mods => Ok mods
      | None => Raise (ValueError "Singular resolution is not usable")
      end
  end.

Definition to_sage_resolution (res : Resolution K) : result (list (matrix K)) :=
  let singular_res := _resolution res in
  mods ← select_mods singular_res;
  Ok (free_walk mods (seq 0 (res_length singular_res)) []).

Context {D : Type} `{Grading D}.

(** *** [to_sage_resolution_graded] of [graded.pyx] *)

Definition p_GetExp (p : term K) (v : nat) : nat :=
  default 0%nat (exps p !! (v - 1)%nat).

Definition singular_monomial_exponents (p : term K) (r : ring) : list nat :=
  p_GetExp p <$> seq 1 (N r).

(** [deg = 0], then [deg += exps[k] * degrees[k]] for [k] in
    [range(ngens)]. *)
Definition degree_step (exps : list nat) (degrees : list D)
    (deg : result D) (k : nat) : result D :=
  deg ← deg;
  e ← py_getitem exps (Z.of_nat k);
  d ← py_getitem degrees (Z.of_nat k);
  Ok (deg_add deg (deg_scale (Z.of_nat e) d)).

Definition first_degree (r : ring) (degrees : list D) (first : poly K)
  : result (option D) :=
  match first with
  | [] => Ok None
  | t :: _ =>
      let exps := singular_monomial_exponents t r in
      Some <$> foldl (degree_step exps degrees) (Ok zero_deg)
                     (seq 0 (length degrees))
  end.

Definition graded_row (r : ring) (degrees : list D) (j : nat)
    (st : result (poly K * list (option D) * matrix K)) (i : nat)
  : result (poly K * list (option D) * matrix K) :=
  '(p, degs, mat) ← st;
  let '(first, p) := split_comp i p in
  d ← first_degree r degrees first;
  Ok (p, degs ++ [d], set_entry mat (i - 1) j first).

Definition all_None (degs : list (option D)) : bool :=
  forallb (λ d, match d with None => true | Some _ => false end) degs.

Definition graded_col (r : ring) (degrees : list D) (rank : nat)
    (st : result (matrix K * list (list (option D)) * bool))
    (jp : nat * poly K)
  : result (matrix K * list (list (option D)) * bool) :=
  '(mat, matdegs, zero_mat) ← st;
  let '(j, p) := jp in
  '(_, degs, mat) ← foldl (graded_row r degrees j) (Ok (p, [], mat)) (seq 1 rank);
  Ok (mat, matdegs ++ [degs], if zero_mat : bool then all_None degs else zero_mat).

Definition graded_matrix (r : ring) (degrees : list D) (md : sip_sideal K)
  : result (matrix K * list (list (option D)) * bool) :=
  foldl (graded_col r degrees (rank md))
        (Ok (zero_matrix (rank md) (IDELEMS md), [], true))
        (imap pair (m md)).

Fixpoint graded_walk (r : ring) (degrees : list D) (mods : resolvente K)
    (idxs : list nat) (res_mats : list (matrix K))
    (res_degs : list (list (list (option D))))
  : result (list (matrix K) * list (list (list (option D)))) :=
  match idxs with
  | [] => Ok (res_mats, res_degs)
  | idx :: idxs =>
      match resolvente_at mods idx with
      | None => Ok (res_mats, res_degs)
      | Some md =>
          '(mat, matdegs, zero_mat) ← graded_matrix r degrees md;
          if zero_mat : bool then Ok (res_mats, res_degs)
          else graded_walk r degrees mods idxs
                           (res_mats ++ [mat]) (res_degs ++ [matdegs])
      end
  end.

Definition to_sage_resolution_graded (res : Resolution K) (degrees : list D)
  : result (list (matrix K) * list (list (list (option D)))) :=
  let singular_res := _resolution res in
  mods ← select_mods singular_res;
  graded_walk (base_ring res) degrees mods
              (seq 0 (res_length singular_res)) [] [].
End decoder.

(** ** The presentation matrix of a module

    The matrix that the decoders are to build from a module: its entry at
    row [i] and column [j] holds the terms of the generator [j] that are
    tagged with the component [i + 1]. *)

Definition tabulate {K} (r c : nat) (f : nat → nat → poly K) : matrix K :=
  Matrix r c ((λ i, f i <$> seq 0 c) <$> seq 0 r).

Definition comp_part {K} (i : nat) (p : poly K) : poly K :=
  (λ t, p_SetComp t 0) <$> filter (λ t, comp t = i) p.

Definition presentation {K} (md : sip_sideal K) : matrix K :=
  tabulate (rank md) (IDELEMS md)
           (λ i j, comp_part (S i) (default [] (m md !! j))).

Definition all_null {K} (M : matrix K) : bool :=
  forallb (forallb is_NULL) (entries M).

(** The modules that precede the first [NULL] entry or all-null module. *)
Fixpoint live_prefix {K} (mods : resolvente K) : list (sip_sideal K) :=
  match mods with
  | Some md :: mods =>
      if all_null (presentation md) then [] else md :: live_prefix mods
  | _ => []
  end.

(** ** The degree data of the graded decoder *)

Section degree_data.
Context {K D : Type} `{Grading D}.
Implicit Types (p : poly K) (mat : matrix K) (md : sip_sideal K).
Implicit Types (degrees : list D) (r : ring).

(** The degree of a monomial: the sum of the degrees of the variables,
    weighted by the exponents. *)
Definition monomial_degree (degrees : list D) (t : term K) : D :=
  foldl (λ deg k, deg_add deg
           (deg_scale (Z.of_nat (p_GetExp t (S k)))
                      (default zero_deg (degrees !! k))))
        zero_deg (seq 0 (length degrees)).

(** The degree recorded for an entry: that of its first monomial, or
    [None] for a null entry. *)
Definition entry_degree (degrees : list D) (first : poly K) : option D :=
  match first with
  | [] => None
  | t :: _ => Some (monomial_degree degrees t)
  end.

Definition column_degrees (degrees : list D) (rank : nat) (q : poly K)
  : list (option D) :=
  (λ i, entry_degree degrees (comp_part i q)) <$> seq 1 rank.

Definition degree_table (degrees : list D) (md : sip_sideal K)
  : list (list (option D)) :=
  column_degrees degrees (rank md) <$> m md.

(** The degrees appended by the row loop over the indices [l]. *)
Fixpoint rows_degs (degrees : list D) (p : poly K) (l : list nat)
  : list (option D) :=
  match l with
  | [] => []
  | i :: l =>
      entry_degree degrees (comp_part i p)
      :: rows_degs degrees (filter (λ t, comp t ≠ i) p) l
  end.
End degree_data.

(** ** The shifts of the free modules

    The loop of [__init__] that computes [res_betti] from [res_degs]. *)

Section shift_calculator.
Context {D : Type} `{Grading D}.

(** [for i in range(nrows)]: the first [d = col[i]] that is not [None]
    appends [d + prev_grade[i]] to [grade] and leaves the loop. *)
Fixpoint scan_column (prev_grade : list D) (col : list (option D)) (i : nat)
    (grade : list D) : result (list D) :=
  match col with
  | [] => Ok grade
  | Some d :: _ =>
      e ← py_getitem prev_grade (Z.of_nat i);
      Ok (grade ++ [deg_add d e])
  | None :: col => scan_column prev_grade col (S i) grade
  end.

(** The body of [for j in range(ncols)]. *)
Definition grade_step (prev_grade : list D) (grade : result (list D))
    (col : list (option D)) : result (list D) :=
  grade ← grade; scan_column prev_grade col 0 grade.

Definition grade_of (prev_grade : list D) (degs : list (list (option D)))
  : result (list D) :=
  foldl (grade_step prev_grade) (Ok []) degs.

(** [for k in range(len(res_degs))] *)
Fixpoint betti_loop (prev_grade : list D)
    (res_degs : list (list (list (option D))))
    (res_betti : list (list D)) : result (list (list D)) :=
  match res_degs with
  | [] => Ok res_betti
  | degs :: res_degs =>
      grade ← grade_of prev_grade degs;
      betti_loop grade res_degs (res_betti ++ [grade])
  end.

Definition compute_res_betti (shifts : list D)
    (res_degs : list (list (list (option D)))) : result (list (list D)) :=
  betti_loop shifts res_degs [].
End shift_calculator.

(** ** Free resolutions: [FreeResolution] of [free.pyx] *)

(** The objects stored in [maps]: the initial map [d0], a coercion map
    onto the quotient, of which only the rank of the domain is used, and
    the matrices of the resolution.  A coercion map has no attribute
    [ncols] or [nrows]. *)
Record coercion_map : Type := CoercionMap {
  domain_rank : nat
}.

Inductive map_object (K : Type) : Type :=
  | InitialMap (d0 : coercion_map)
  | MatrixMap (mat : matrix K).

Arguments InitialMap {K} d0.
Arguments MatrixMap {K} mat.

Definition map_ncols {K} (o : map_object K) : result nat :=
  match o with
  | InitialMap d0 => Raise (AttributeError "ncols")
  | MatrixMap mat => Ok (ncols mat)
  end.

Definition map_nrows {K} (o : map_object K) : result nat :=
  match o with
  | InitialMap d0 => Raise (AttributeError "nrows")
  | MatrixMap mat => Ok (nrows mat)
  end.

(** The free module [S**r]. *)
Record free_module : Type := FreeModule { module_rank : nat }.

(** The values of [differential]: the stored initial map, the zero map
    [s.hom(0, t)], or [s.hom(mat, t, side='right')]. *)
Inductive morphism (K : Type) : Type :=
  | Initial (d0 : map_object K)
  | ZeroHom (s t : free_module)
  | MatrixHom (s t : free_module) (mat : map_object K).

Arguments Initial {K} d0.
Arguments ZeroHom {K} s t.

Arguments MatrixHom {K} s t mat.

Record FreeResolution (K : Type) : Type := MkFreeResolution {
  __maps : list (map_object K);
  __name : string;
  __length : Z
}.

Arguments MkFreeResolution {K} __maps __name __length.
Arguments __maps {K} _.

Arguments __name {K} _.
Arguments __length {K} _.

Module Free.
Section methods.
Context {K : Type}.
Implicit Types (self : FreeResolution K) (i : Z).

(** [maps[0].base_ring()] needs a first entry. *)
Definition __init__ (maps : list (map_object K)) (name : string)
  : result (FreeResolution K) :=
  _ ← py_getitem maps 0;
  Ok (MkFreeResolution maps name (Z.of_nat (length maps) - 1)).

Definition __len__ self : Z := __length self.

Definition __getitem__ self i : result free_module :=
  if decide (i < 0) then Raise (IndexError "invalid index")
  else if decide (i > __length self) then Ok (FreeModule 0)
  else if decide (i = __length self) then
    o ← py_getitem (__maps self) i; c ← map_ncols o; Ok (FreeModule c)
  else
    o ← py_getitem (__maps self) (i + 1); r ← map_nrows o; Ok (FreeModule r).

Definition differential self i : result (morphism K) :=
  if decide (i < 0) then Raise (IndexError "invalid index")
  else if decide (i = 0) then
    Initial <$> py_getitem (__maps self) 0
  else if decide (i = __length self + 1) then
    o ← py_getitem (__maps self) (i - 1); c ← map_ncols o;
    Ok (ZeroHom (FreeModule 0) (FreeModule c))
  else if decide (i > __length self + 1) then
    Ok (ZeroHom (FreeModule 0) (FreeModule 0))
  else
    o ← py_getitem (__maps self) i;
    c ← map_ncols o; r ← map_nrows o;
    Ok (MatrixHom (FreeModule c) (FreeModule r) o).

(** [.matrix()] of a morphism of free modules: the zero map from [s] to
    [t] has the zero matrix with [rank s] rows and [rank t] columns.
    The initial map is not reached from [matrix]. *)
Definition morphism_matrix (d : morphism K) : result (map_object K) :=
  match d with
  | Initial _ => Raise (AttributeError "matrix")
  | ZeroHom s t => Ok (MatrixMap (zero_matrix (module_rank s) (module_rank t)))
  | MatrixHom _ _ mat => Ok mat
  end.

Definition matrix self i : result (map_object K) :=
  if decide (i ≤ 0) then Raise (IndexError "invalid index")
  else if decide (i ≤ __length self) then py_getitem (__maps self) i
  else d ← differential self i; morphism_matrix d.
End methods.
End Free.

(** ** Laurent polynomials over the integers

    The values of [K_polynomial] live in [LaurentPolynomialRing(ZZ, 't',
    n)]: finitely many exponent vectors with a nonzero integer
    coefficient. *)

Abbreviation laurent := (gmap (list Z) Z).


Definition laurent_add (f g : laurent) : laurent :=
  union_with (λ a b, if decide (a + b = 0) then None else Some (a + b)) f g.

Definition laurent_scale (c : Z) (f : laurent) : laurent :=
  if decide (c = 0) then ∅ else Z.mul c <$> f.

(** The monomial with the exponents [e]. *)
Definition laurent_monomial (e : list Z) : laurent := {[ e := 1 ]}.

(** An exponent is stored in a C [int]. *)
Definition fits_int (e : Z) : bool := bool_decide (- 2 ^ 31 ≤ e < 2 ^ 31).

(** [L.monomial], applied to [args], in the ring [L] with [n] variables: the
    arguments must be as many as the variables, and the conversion of an
    exponent that is no C [int] raises an [OverflowError]. *)
Definition monomial (n : nat) (args : list Z) : result laurent :=
  if decide (length args ≠ n) then
    Raise (TypeError "tuple key must have same length as ngens")
  else if forallb fits_int args then Ok (laurent_monomial args)
  else Raise OverflowError.

(** A ring of Laurent polynomials, as [K_polynomial] uses it: the number
    of its variables and its method [monomial]. *)
Record laurent_ring : Type := LaurentRing {
  ngens : nat;
  ring_monomial : list Z → result laurent
}.

(** [LaurentPolynomialRing(ZZ, 't', n)] *)
Definition t_ring (n : nat) : laurent_ring := LaurentRing n (monomial n).

(** The [1] of the ring with [n] variables. *)
Definition laurent_one (n : nat) : laurent := laurent_monomial (replicate n 0).

(** ** Graded free resolutions: [GradedFreeResolution_polynomial] *)

Record GradedFreeResolution_polynomial (K D : Type) : Type :=
  MkGradedFreeResolution {
    resolution : FreeResolution K;
    _base_shifts : list D;
    _zero_deg : D;
    _degrees : list D;
    _res_betti : list (list D);
    _multigrade : bool;
    _name : string
  }.

Arguments MkGradedFreeResolution {K D} _ _ _ _ _ _ _.
Arguments resolution {K D} _.

Arguments _base_shifts {K D} _.
Arguments _zero_deg {K D} _.

Arguments _degrees {K D} _.
Arguments _res_betti {K D} _.

Arguments _multigrade {K D} _.
Arguments _name {K D} _.

(** The value of [betti]: a dictionary from degrees to counts, or a
    count. *)
Inductive betti_value (D : Type) `{Countable D} : Type :=
  | BettiDict (betti : gmap D Z)
  | BettiInt (n : Z).

Arguments BettiDict {D _ _} betti.
Arguments BettiInt {D _ _} n.

Module Graded.
Section methods.
Context {K D : Type} `{Grading D}.
Implicit Types (self : GradedFreeResolution_polynomial K D) (i : Z).

Definition __len__ self : Z := Free.__len__ (resolution self).

Definition shifts self i : result (list D) :=
  if decide (i < 0) then Raise (IndexError "invalid index")
  else if decide (i = 0) then Ok (_base_shifts self)
  else if decide (i > __len__ self) then Ok []
  else py_getitem (_res_betti self) (i - 1).

(** [len([d for d in shifts if d == s])] *)
Definition count_shift (shifts : list D) (s : D) : Z :=
  Z.of_nat (length (filter (λ d, deg_eqb d s = true) shifts)).

(** [betti[s] = n]: the key is hashed. *)
Definition set_item (betti : gmap D Z) (s : D) (n : Z) : result (gmap D Z) :=
  if hashable s then Ok (<[s := n]> betti)
  else Raise (TypeError "mutable vectors are unhashable").

(** [for s in degrees: betti[s] = ...] *)
Definition betti_dict (shifts degrees : list D) : result (gmap D Z) :=
  foldl (λ betti s, betti ← betti; set_item betti s (count_shift shifts s))
        (Ok ∅) degrees.

Definition betti self i (a : option D) : result (betti_value D) :=
  shifts ← shifts self i;
  let degrees := match a with None => shifts | Some a => [a] end in
  betti ← betti_dict shifts degrees;
  match a with
  | None => Ok (BettiDict betti)
  | Some a =>
      Ok (BettiInt (match betti !! a with Some n => n | None => 0 end))
  end.

(** The number of variables of the Laurent polynomial ring. *)
Definition laurent_vars self : result nat :=
  if _multigrade self then
    d ← py_getitem (_degrees self) 0; Ok (length (monomial_args d))
  else Ok 1%nat.

(** [for v in self._res_betti[j]: Kpoly += sign * L.monomial(v)],
    respectively [L.monomial] applied to the entries of [v]. *)
Definition K_step (L : laurent_ring) (sign : Z) (Kpoly : result laurent)
    (v : D) : result laurent :=
  Kpoly ← Kpoly;
  mon ← ring_monomial L (monomial_args v);
  Ok (laurent_add Kpoly (laurent_scale sign mon)).

(** [for j in range(len(self))], with [sign = -sign] at the end of the
    body. *)
Definition K_loop (L : laurent_ring) (res_betti : list (list D))
    (st : result (laurent * Z)) (j : nat) : result (laurent * Z) :=
  '(Kpoly, sign) ← st;
  shifts ← py_getitem res_betti (Z.of_nat j);
  Kpoly ← foldl (K_step L sign) (Ok Kpoly) shifts;
  Ok (Kpoly, - sign).

Definition K_polynomial self : result laurent :=
  n ← laurent_vars self;
  let L := t_ring n in
  fst <$> foldl (K_loop L (_res_betti self)) (Ok (laurent_one (ngens L), -1))
                (seq 0 (Z.to_nat (__len__ self))).
End methods.
End Graded.

(** ** The earlier [GradedFreeResolution] (second half of [free.pyx]) *)

Record GradedFreeResolution (K D : Type) : Type := MkLegacy {
  legacy_zero_deg : D;
  legacy_degrees : list D;
  legacy_length : Z;
  legacy_res_mats : list (matrix K);
  legacy_res_degs : list (list (list (option D)));
  legacy_res_betti : list (list D)
}.

Arguments MkLegacy {K D} _ _ _ _ _ _.
Arguments legacy_zero_deg {K D} _.

Arguments legacy_degrees {K D} _.
Arguments legacy_length {K D} _.

Arguments legacy_res_mats {K D} _.
Arguments legacy_res_degs {K D} _.

Arguments legacy_res_betti {K D} _.

(** ** The constructor of [GradedFreeResolution_polynomial]

    The libSingular functions are the fields of an engine; every call of
    one of them is recorded, in order, in a log. *)

Module Singular.
Record Engine (K : Type) (I : Type) : Type := MkEngine {
singular_module : I → sip_sideal K;
std : sip_sideal K → sip_sideal K;
mres : sip_sideal K → Resolution K;
sres : sip_sideal K → Resolution K;
nres : sip_sideal K → Resolution K;
res : sip_sideal K → Resolution K;
minres : Resolution K → Resolution K
}.

Arguments singular_module {K I} _ _.
Arguments std {K I} _ _.

Arguments mres {K I} _ _.
Arguments sres {K I} _ _.

Arguments nres {K I} _ _.
Arguments res {K I} _ _.

Arguments minres {K I} _ _.
End Singular.

(** The argument [ideal]: an ideal with its generators, a submodule of a
    free module with its basis matrix, a dense matrix, or something
    else. *)
Inductive sage_object (K : Type) : Type :=
  | Ideal_generic (R : ring) (gens : list (poly K))
  | FreeModule_generic (R : ring) (basis : matrix K)
  | Matrix_mpolynomial_dense (R : ring) (mat : matrix K)
  | OtherObject.

Arguments Ideal_generic {K} R gens.
Arguments FreeModule_generic {K} R basis.

Arguments Matrix_mpolynomial_dense {K} R mat.
Arguments OtherObject {K}.

(** Computations that call the engine: a result and the log of calls. *)
Definition engine_call (A : Type) : Type := list string → result A * list string.

Global Instance engine_call_ret : MRet engine_call := λ A a log, (Ok a, log).

Global Instance engine_call_bind : MBind engine_call := λ A B f c log,
  match c log with
  | (Ok a, log') => f a log'
  | (Raise e, log') => (Raise e, log')
  end.

Definition call {A} (name : string) (a : A) : engine_call A :=
  λ log, (Ok a, log ++ [name]).

Definition lift {A} (r : result A) : engine_call A := λ log, (r, log).

(** The commands of the engine that compute or minimize a resolution. *)
Definition resolution_commands : list string :=
  ["mres"; "sres"; "nres"; "res"; "minres"; "std"].

(** The resolution that the chain of the algorithms assigns to [r]. *)
Definition resolution_of {K} (E : Singular.Engine K (sage_object K))
    (algorithm : string) (md : sip_sideal K) : option (Resolution K) :=
  if decide (algorithm = "minimal") then Some (Singular.mres E md)
  else if decide (algorithm = "shreyer") then
    Some (Singular.minres E (Singular.sres E (Singular.std E md)))
  else if decide (algorithm = "standard") then
    Some (Singular.minres E (Singular.nres E md))
  else if decide (algorithm = "heuristic") then
    Some (Singular.minres E (Singular.res E (Singular.std E md)))
  else None.

Section constructor.
Context {K D : Type} `{Grading D}.
Context (E : Singular.Engine K (sage_object K)).

(** The branches on the type of [ideal]: the ring and [rank]. *)
Definition classify (ideal : sage_object K) : result (ring * nat) :=
  match ideal with
  | Ideal_generic R _ => Ok (R, 1%nat)
  | FreeModule_generic R basis => Ok (R, ncols basis)
  | Matrix_mpolynomial_dense R mat => Ok (R, ncols mat)
  | OtherObject => Raise (TypeError "no ideal, module, or matrix")
  end.

(** The chain [if algorithm == 'minimal': ... elif ...]: it assigns the
    local variable [r] in four cases and in no other. *)
Definition run_algorithm (algorithm : string) (md : sip_sideal K)
  : engine_call (option (Resolution K)) :=
  if decide (algorithm = "minimal") then
    r ← call "mres" (Singular.mres E md); mret (Some r)
  else if decide (algorithm = "shreyer") then
    s ← call "std" (Singular.std E md);
    r ← call "sres" (Singular.sres E s);
    r ← call "minres" (Singular.minres E r); mret (Some r)
  else if decide (algorithm = "standard") then
    r ← call "nres" (Singular.nres E md);
    r ← call "minres" (Singular.minres E r); mret (Some r)
  else if decide (algorithm = "heuristic") then
    s ← call "std" (Singular.std E md);
    r ← call "res" (Singular.res E s);
    r ← call "minres" (Singular.minres E r); mret (Some r)
  else mret None.

(** Reading the local variable [r]. *)
Definition read_local {A} (var : string) (v : option A) : result A :=
  match v with
  | Some a => Ok a
  | None => Raise (UnboundLocalError var)
  end.

Definition __init__ (ideal : sage_object K) (degrees : list D)
    (shifts : option (list D)) (name : string) (algorithm : string)
  : engine_call (GradedFreeResolution_polynomial K D) :=
  '(R, rank) ← lift (classify ideal);
  let d0 := CoercionMap rank in
  let nvars := N R in
  _ ← lift (if decide (length degrees ≠ nvars) then
              Raise (ValueError
                "the length of degrees does not match the number of generators")
            else Ok ());
  _ ← lift (py_getitem degrees 0);
  md ← call "module" (Singular.singular_module E ideal);
  let shifts := default (replicate rank zero_deg) shifts in
  r ← run_algorithm algorithm md;
  r ← lift (read_local "r" r);
  '(res_mats, res_degs) ← lift (to_sage_resolution_graded r degrees);
  res_betti ← lift (compute_res_betti shifts res_degs);
  base ← lift (Free.__init__ (InitialMap d0 :: (MatrixMap <$> res_mats)) name);
  mret (MkGradedFreeResolution base shifts zero_deg degrees res_betti
                               multigrade name).
End constructor.

Module Legacy.
Section methods.
Context {K D : Type} `{Grading D}.
Context (E : Singular.Engine K (sage_object K)).
Implicit Types (self : GradedFreeResolution K D) (i : Z).

(** The constructor takes an ideal: the ring [R] of [ideal.ring()] and
    the generators.  The shifts start from [[zero_deg]]. *)
Definition __init__ (R : ring) (gens : list (poly K)) (degrees : list D)
    (algorithm : string) : engine_call (GradedFreeResolution K D) :=
  let ideal := Ideal_generic R gens in
  let ng := N R in
  _ ← lift (if decide (length degrees ≠ ng) then
              Raise (ValueError
                "the length of degrees does not match the number of generators")
            else Ok ());
  _ ← lift (py_getitem degrees 0);
  md ← call "module" (Singular.singular_module E ideal);
  r ← run_algorithm E algorithm md;
  r ← lift (read_local "r" r);
  '(res_mats, res_degs) ← lift (to_sage_resolution_graded r degrees);
  res_betti ← lift (compute_res_betti [zero_deg] res_degs);
  mret (MkLegacy zero_deg degrees (Z.of_nat (length res_mats))
                 res_mats res_degs res_betti).

Definition __len__ self : Z := legacy_length self.

Definition __getitem__ self i : result (free_module * list D) :=
  shifts ←
    (if decide (i = 0) then Ok [legacy_zero_deg self]
     else if decide (i > 0) then
       if decide (i > legacy_length self) then Ok []
       else py_getitem (legacy_res_betti self) (i - 1)
     else Raise (IndexError "invalid index"));
  Ok (FreeModule (length shifts), shifts).

Definition matrix self i : result (matrix K) :=
  if decide (i ≤ 0 ∨ i > legacy_length self) then
    Raise (IndexError ("valid indices are from 0 to "
                       +:+ pretty (legacy_length self)))
  else py_getitem (legacy_res_mats self) (i - 1).
End methods.
End Legacy.

(** The twisted cubic of the doctests: the modules of the resolution of
    the ideal [(y*w - z^2, -x*w + y*z, x*z - y^2)] of a polynomial ring in
    [x, y, z, w], as the engine holds them (every term tagged with its
    row), followed by the zero module that the engine leaves at the end.
    The coefficients [1] and [-1] of the field are [u] and [v]. *)
Module Example.
Section twisted_cubic.
Context {K : Type} (u v : K).

Definition x (c : K) (k : nat) : term K := Term c [1; 0; 0; 0]%nat k.

Definition y (c : K) (k : nat) : term K := Term c [0; 1; 0; 0]%nat k.

Definition z (c : K) (k : nat) : term K := Term c [0; 0; 1; 0]%nat k.

Definition w (c : K) (k : nat) : term K := Term c [0; 0; 0; 1]%nat k.

(** [y*w - z^2], [-x*w + y*z], [x*z - y^2] *)
Definition gens : list (poly K) :=
  [ [Term u [0;1;0;1]%nat 0; Term v [0;0;2;0]%nat 0];
    [Term v [1;0;0;1]%nat 0; Term u [0;1;1;0]%nat 0];
    [Term u [1;0;1;0]%nat 0; Term v [0;2;0;0]%nat 0] ].

Definition ideal : sage_object K := Ideal_generic (Ring 4) gens.

(** [z^2 - y*w], [y*z - x*w], [y^2 - x*z] *)
Definition mod1 : sip_sideal K :=
  Sideal 1 [ [Term u [0;0;2;0]%nat 1; Term v [0;1;0;1]%nat 1];
             [Term u [0;1;1;0]%nat 1; Term v [1;0;0;1]%nat 1];
             [Term u [0;2;0;0]%nat 1; Term v [1;0;1;0]%nat 1] ].

(** the columns [(-y, z, -w)] and [(x, -y, z)] *)
Definition mod2 : sip_sideal K :=
  Sideal 3 [ [y v 1; z u 2; w v 3];
             [x u 1; y v 2; z u 3] ].

Definition mod3 : sip_sideal K := Sideal 2 [ [] ].

Definition twisted_cubic : Resolution K :=
  MkResolution (SyStrategy (Some [Some mod1; Some mod2; Some mod3; None])
                           None 3)
               (Ring 4).
End twisted_cubic.
End Example.

(** ** The prefix of the modules that the decoders keep *)

(** The walk stops at an index past the array, at a [NULL] entry, or at
    a module of which every entry is null. *)
Definition is_stop {K} (o : option (option (sip_sideal K))) : bool :=
  match o with
  | Some (Some md) => all_null (presentation md)
  | _ => true
  end.

(** The error of a handle without a list. *)
Definition unusable : exn := ValueError "Singular resolution is not usable".

(** ** The shift calculator, by its specification *)

Section shift_specification.
Context {D : Type} `{Grading D}.
Implicit Types (prev grade : list D) (col : list (option D)).
Implicit Types (degs : list (list (option D))).

(** The first row [r] of a column with a defined degree [e]. *)
Definition first_defined col : option (nat * D) :=
  '(r, d) ← list_find is_Some col; e ← d; Some (r, e).

(** The shift that a column yields: [e + prev[r]] for its first defined
    row; a column without a defined row yields none. *)
Definition new_shift prev col : option D :=
  '(r, e) ← first_defined col; e' ← prev !! r; Some (deg_add e e').

(** The columns with a defined row. *)
Definition has_defined col : bool := negb (all_None col).

(** The shifts of all steps: the list of a step is the previous list of
    the next one. *)
Fixpoint shifts_of prev (res_degs : list (list (list (option D))))
  : list (list D) :=
  match res_degs with
  | [] => []
  | degs :: res_degs =>
      let grade := omap (new_shift prev) degs in
      grade :: shifts_of grade res_degs
  end.
End shift_specification.

(** ** The arguments of the constructor, by their specification *)

Section constructor_specification.
Context {K D : Type} `{Grading D}.
Context (E : Singular.Engine K (sage_object K)).

Definition known_algorithm (algorithm : string) : Prop :=
  algorithm = "minimal" ∨ algorithm = "shreyer" ∨ algorithm = "standard"
  ∨ algorithm = "heuristic".


(** The seed of the shifts: the given [shifts], or the zero degree
    repeated [rank] times. *)
Definition seed_shifts (rank : nat) (shifts : option (list D)) : list D :=
  default (replicate rank zero_deg) shifts.
End constructor_specification.

Section shift_ranges.
Context {D : Type} `{Grading D}.
Implicit Types (prev grade : list D) (col : list (option D)).
Implicit Types (degs : list (list (option D))).

(** The first defined row of every column is a position of the
    previous shifts. *)
Definition rows_in_range prev degs : Prop :=
  Forall (λ col, ∀ r e, first_defined col = Some (r, e) →
                        (r < length prev)%nat) degs.

Fixpoint steps_in_range prev (res_degs : list (list (list (option D))))
  : Prop :=
  match res_degs with
  | [] => True
  | degs :: res_degs =>
      rows_in_range prev degs
      ∧ steps_in_range (omap (new_shift prev) degs) res_degs
  end.
End shift_ranges.

(** ** Betti numbers *)


(** The dictionary that [betti] fills when every key is hashable. *)
Definition betti_map {D} `{Grading D} (shifts degrees : list D) : gmap D Z :=
  foldl (λ betti s, <[s := Graded.count_shift shifts s]> betti) ∅ degrees.

(** The error of a key that is not hashable. *)
Definition unhashable : exn := TypeError "mutable vectors are unhashable".

(** Hashable degrees are equal, [==], exactly when they are the same key
    of a dictionary: so it is for integers and for immutable vectors. *)
Definition eq_of_hashable (D : Type) `{Grading D} : Prop :=
  ∀ d s : D, hashable d = true → hashable s = true →
             (deg_eqb d s = true ↔ d = s).

(** ** The columns of a matrix with a non-null entry *)



(** A handle whose only module has the generators [x] and [0]: the
    second column of its matrix has null entries only.  The engine
    returns it for [sres], [nres] and [res]; [mres] drops the zero
    generator. *)
Module ZeroColumn.
Definition md : sip_sideal Z := Sideal 1 [ [Example.x 1 1%nat]; [] ].

Definition handle : Resolution Z :=
  MkResolution (SyStrategy (Some [Some md; None]) None 1) (Ring 4).

Definition minimal_handle : Resolution Z :=
  MkResolution (SyStrategy (Some [Some (Sideal 1 [ [Example.x 1 1%nat] ]);
                                  None]) None 1) (Ring 4).

Definition engine : Singular.Engine Z (sage_object Z) :=
  Singular.MkEngine _ _ (λ _, md) (λ s, s) (λ _, minimal_handle) (λ _, handle)
                    (λ _, handle) (λ _, handle) (λ r, r).

Definition ideal : sage_object Z :=
  Ideal_generic (Ring 4) [ [Example.x 1 0%nat]; [] ].
End ZeroColumn.

(** ** The K-polynomial, by its specification *)




Section K_polynomial_loop.
Context {K D : Type} `{Grading D}.
Implicit Types (self : GradedFreeResolution_polynomial K D).



End K_polynomial_loop.


(** The degrees of the variables [x, y, z, w] for which the twisted
    cubic is homogeneous in two degrees, as the mutable vectors that
    [vector((3, 0))], ... are. *)
Definition cubic_bidegrees : list (sage_vector 2) :=
  [SageVector [# 3; 0] false; SageVector [# 2; 1] false;
   SageVector [# 1; 2] false; SageVector [# 0; 3] false].

(** An engine that returns, whatever the command, the resolution of the
    twisted cubic, with integer coefficients. *)
Module CubicEngine.
Definition handle : Resolution Z := Example.twisted_cubic 1 (-1).

Definition engine : Singular.Engine Z (sage_object Z) :=
  Singular.MkEngine _ _ (λ _, Example.mod1 1 (-1)) (λ s, s)
                    (λ _, handle) (λ _, handle) (λ _, handle)
                    (λ _, handle) (λ r, r).
End CubicEngine.

(** ** The error of an invalid index *)


(** The comparisons of an index with [0] and with the length. *)
Ltac index_cases := repeat (case_decide; try lia).

(** ** Polynomial arithmetic, for the product of two matrices

    The coefficients form a commutative ring.  A product or a sum of
    polynomials is kept as the list of its terms; two such lists are the
    same polynomial when every monomial has the same coefficient in
    both. *)

Class CoefficientRing (K : Type) : Type := {
  c0 : K;
  c1 : K;
  cadd : K → K → K;
  cmul : K → K → K;
  csub : K → K → K;
  copp : K → K;
  coefficient_ring : ring_theory c0 c1 cadd cmul csub copp eq
}.

Global Instance Z_coefficients : CoefficientRing Z := {|
  c0 := 0; c1 := 1; cadd := Z.add; cmul := Z.mul; csub := Z.sub;
  copp := Z.opp; coefficient_ring := Zth
|}.

Section polynomial_arithmetic.
Context {K : Type} `{CoefficientRing K}.

(** The product of two terms; of the two components at most one is not
    [0]. *)
Definition term_mul (s t : term K) : term K :=
  Term (cmul (coef s) (coef t)) (zip_with Nat.add (exps s) (exps t))
       (comp s + comp t).

Definition poly_mul (p q : poly K) : poly K :=
  s ← p; term_mul s <$> q.

(** The coefficient of the monomial with exponents [e] and component
    [c]. *)
Definition coefficient (p : poly K) (e : list nat) (c : nat) : K :=
  foldr (λ t acc, if decide (exps t = e ∧ comp t = c)
                  then cadd (coef t) acc else acc) c0 p.

Definition is_zero_poly (p : poly K) : Prop :=
  ∀ e c, coefficient p e c = c0.

Definition matrix_entry (A : matrix K) (i k : nat) : poly K :=
  default [] (entry A i k).

(** [A * B]: the matrices must fit. *)
Definition matrix_mul (A B : matrix K) : result (matrix K) :=
  if decide (ncols A = nrows B) then
    Ok (tabulate (nrows A) (ncols B)
          (λ i j, mjoin ((λ k, poly_mul (matrix_entry A i k)
                                        (matrix_entry B k j))
                         <$> seq 0 (ncols A))))
  else Raise (TypeError "unsupported operand parent(s) for *").

Definition is_zero_matrix (P : matrix K) : Prop :=
  ∀ i j p, entry P i j = Some p → is_zero_poly p.

(** The engine's side.  The vector [Σ_k g_k * s_k] for the generators
    [g_0, g_1, ...] of a module and a vector [s], of which [s_k] is the
    part with component [k + 1]. *)
Definition relation_vector (gens : list (poly K)) (s : poly K) : poly K :=
  mjoin (imap (λ k g, poly_mul g (comp_part (S k) s)) gens).

(** The generators of [md'] are syzygies of the generators of [md]. *)
Definition syzygies_of (md md' : sip_sideal K) : Prop :=
  rank md' = IDELEMS md
  ∧ Forall (λ s, is_zero_poly (relation_vector (m md) s)) (m md').
End polynomial_arithmetic.

(** The matrix [(1)] over the integers in four variables. *)
Definition unit_matrix : matrix Z :=
  Matrix 1 1 [ [ [Term 1 [0; 0; 0; 0]%nat 0%nat] ] ].

(** ** The resolution of the twisted cubic *)

(** The graded resolution that the constructor builds from the handle of
    [CubicEngine]. *)
Definition cubic_resolution : GradedFreeResolution_polynomial Z Z :=
  MkGradedFreeResolution
    (MkFreeResolution
       (InitialMap (CoercionMap 1)
        :: (MatrixMap <$> (presentation
                             <$> [Example.mod1 1 (-1); Example.mod2 1 (-1)])))
       "S" 2)
    [0] 0 [1; 1; 1; 1] [[2; 2; 2]; [3; 3]] false "S".

Definition cubic_log : list string := ["module"; "std"; "sres"; "minres"].

Definition cubic_mods : resolvente Z :=
  [Some (Example.mod1 1 (-1)); Some (Example.mod2 1 (-1));
   Some (Example.mod3 (K := Z)); None].

(** ** More of [FreeResolution]: [chain_complex] and the printed form *)

(** [range(n, 0, -1)] *)
Definition range_down (n : Z) : list Z :=
  Z.of_nat <$> reverse (seq 1 (Z.to_nat n)).

(** [range(1, n + 1)] *)
Definition range_up (n : Z) : list Z := Z.of_nat <$> seq 1 (Z.to_nat n).

(** [chain_complex]: the dictionary [mats] is filled by [mats[i] =
    self.matrix(i)] for [i] from the length down to [1] and handed to
    [ChainComplex(mats, degree_of_differential=-1)], a constructor of the
    library of Sage, which checks the differentials and returns the
    complex or raises. *)
Definition chain_complex {K C}
    (ChainComplex : gmap Z (map_object K) → result C)
    (self : FreeResolution K) : result C :=
  mats ← foldl (λ mats i, mats ← mats; mat ← Free.matrix self i;
                          Ok (<[i := mat]> mats))
               (Ok ∅) (range_down (__length self));
  ChainComplex mats.

(** [maps[0].domain().rank()]: a matrix has no [domain]. *)
Definition map_domain_rank {K} (o : map_object K) : result nat :=
  match o with
  | InitialMap d0 => Ok (domain_rank d0)
  | MatrixMap _ => Raise (AttributeError "domain")
  end.

(** [f'{name}^{r}'] *)
Definition power_name (name : string) (r : nat) : string :=
  name +:+ "^" +:+ pretty r.

(** [FreeResolution._repr_module] *)
Definition _repr_module {K} (self : FreeResolution K) (i : Z) : result string :=
  if decide (i = 0) then
    o ← py_getitem (__maps self) 0; r ← map_domain_rank o;
    Ok (power_name (__name self) r)
  else if decide (i > __length self) then Ok "0"
  else
    o ← py_getitem (__maps self) i; r ← map_ncols o;
    Ok (if decide (0 < r)%nat then power_name (__name self) r else "0").

(** [__repr__], over the [_repr_module] of the class of the object. *)
Definition repr_with (repr_module : Z → result string) (length : Z)
  : result string :=
  s ← repr_module 0;
  s ← foldl (λ s i, s ← s; mi ← repr_module i; Ok (s +:+ " <-- " +:+ mi))
            (Ok s) (range_up length);
  Ok (s +:+ " <-- 0").

Definition __repr__ {K} (self : FreeResolution K) : result string :=
  repr_with (_repr_module self) (__length self).

(** The printed form of the modules of ranks [r0] and [ranks]: a module
    of rank [0] after the first is printed as [0]. *)
Definition printed (name : string) (r0 : nat) (ranks : list nat) : string :=
  foldl (λ s r, s +:+ " <-- "
                +:+ (if decide (0 < r)%nat then power_name name r else "0"))
        (power_name name r0) ranks
  +:+ " <-- 0".

(** ** [FreeResolution_polynomial] of [free.pyx] *)

Module Polynomial.
Section constructor.
Context {K : Type} (E : Singular.Engine K (sage_object K)).

Definition __init__ (ideal : sage_object K) (name algorithm : string)
  : engine_call (FreeResolution K) :=
  '(R, rank) ← lift (classify ideal);
  let d0 := CoercionMap rank in
  md ← call "module" (Singular.singular_module E ideal);
  r ← run_algorithm E algorithm md;
  r ← lift (read_local "r" r);
  res_mats ← lift (to_sage_resolution r);
  lift (Free.__init__ (InitialMap d0 :: (MatrixMap <$> res_mats)) name).
End constructor.
End Polynomial.

(** ** The resolutions of [sage/resolutions/free.pyx]

    The later form of the classes: [FreeResolution] takes the ring and
    the matrices, without an initial map, and [MinimalFreeResolution]
    computes the matrices and keeps the ideal, from which the initial map
    is made when it is asked for. *)

Module Resolutions.

Record FreeResolution (K : Type) : Type := MkFreeResolution {
  __maps : list (matrix K);
  __name : string;
  __length : Z;
  _ideal : option (sage_object K)
}.

Arguments MkFreeResolution {K} _ _ _ _.
Arguments __maps {K} _.
Arguments __name {K} _.
Arguments __length {K} _.
Arguments _ideal {K} _.

Section methods.
Context {K : Type}.
Implicit Types (self : FreeResolution K) (i : Z).

(** [FreeResolution.__init__]: an object of the base class has no
    attribute [_ideal]. *)
Definition __init__ (maps : list (matrix K)) (name : string)
  : FreeResolution K :=
  MkFreeResolution maps name (Z.of_nat (length maps)) None.

Definition __len__ self : Z := __length self.

Definition __getitem__ self i : result free_module :=
  if decide (i < 0) then Raise (IndexError "invalid index")
  else if decide (i > __length self) then Ok (FreeModule 0)
  else if decide (i = __length self) then
    mat ← py_getitem (__maps self) (i - 1); Ok (FreeModule (ncols mat))
  else
    mat ← py_getitem (__maps self) i; Ok (FreeModule (nrows mat)).

(** The property [_initial_differential] of [MinimalFreeResolution]:
    the coercion map from the ambient module [M] onto its quotient.  The
    base class has no such attribute, and the chain over the type of the
    ideal leaves [M] unassigned for any other object. *)
Definition _initial_differential self : result coercion_map :=
  match _ideal self with
  | None => Raise (AttributeError "_initial_differential")
  | Some (Ideal_generic _ _) => Ok (CoercionMap 1)
  | Some (FreeModule_generic _ basis) => Ok (CoercionMap (ncols basis))
  | Some (Matrix_mpolynomial_dense _ mat) => Ok (CoercionMap (ncols mat))
  | Some OtherObject => Raise (UnboundLocalError "M")
  end.

Definition differential self i : result (morphism K) :=
  if decide (i < 0) then Raise (IndexError "invalid index")
  else if decide (i = 0) then
    match _initial_differential self with
    | Ok d0 => Ok (Initial (InitialMap d0))
    | Raise (AttributeError _) =>
        Raise (ValueError "0th differential map undefined")
    | Raise e => Raise e
    end
  else if decide (i = __length self + 1) then
    mat ← py_getitem (__maps self) (i - 2);
    Ok (ZeroHom (FreeModule 0) (FreeModule (ncols mat)))
  else if decide (i > __length self + 1) then
    Ok (ZeroHom (FreeModule 0) (FreeModule 0))
  else
    mat ← py_getitem (__maps self) (i - 1);
    Ok (MatrixHom (FreeModule (ncols mat)) (FreeModule (nrows mat))
                  (MatrixMap mat)).

Definition matrix self i : result (map_object K) :=
  if decide (i ≤ 0) then Raise (IndexError "invalid index")
  else if decide (i ≤ __length self) then
    MatrixMap <$> py_getitem (__maps self) (i - 1)
  else d ← differential self i; Free.morphism_matrix d.

Definition chain_complex {C} (ChainComplex : gmap Z (map_object K) → result C)
    self : result C :=
  mats ← foldl (λ mats i, mats ← mats; mat ← matrix self i;
                          Ok (<[i := mat]> mats))
               (Ok ∅) (range_down (__length self));
  ChainComplex mats.

Definition _repr_module self i : result string :=
  if decide (i = 0) then
    mat ← py_getitem (__maps self) 0;
    Ok (power_name (__name self) (nrows mat))
  else if decide (i > __length self) then Ok "0"
  else
    mat ← py_getitem (__maps self) (i - 1);
    Ok (if decide (0 < ncols mat)%nat
        then power_name (__name self) (ncols mat) else "0").

Definition __repr__ self : result string :=
  repr_with (_repr_module self) (__length self).
End methods.

(** [MinimalFreeResolution.__init__] *)
Module Minimal.
Section constructor.
Context {K : Type} (E : Singular.Engine K (sage_object K)).

Definition __init__ (ideal : sage_object K) (name algorithm : string)
  : engine_call (FreeResolution K) :=
  '(R, rank) ← lift (classify ideal);
  md ← call "module" (Singular.singular_module E ideal);
  r ← run_algorithm E algorithm md;
  r ← lift (read_local "r" r);
  res_mats ← lift (to_sage_resolution r);
  mret (MkFreeResolution res_mats name (Z.of_nat (length res_mats))
                         (Some ideal)).
End constructor.
End Minimal.
End Resolutions.
(** ** The log of a constructor *)

Section constructor_log.
Context {K : Type} (E : Singular.Engine K (sage_object K)).

(** The log after the chain of the algorithms. *)
Definition log_after (algorithm : string) (ideal : sage_object K)
    (log : list string) : list string :=
  (run_algorithm E algorithm (Singular.singular_module E ideal)
                 (log ++ ["module"])).2.
End constructor_log.

(** ** The value of a Laurent polynomial at [t = 1] *)



(** ** Translated shifts *)

(** The shifts [l] with the degree [c] added to each. *)
Definition translate {D} `{Grading D} (c : D) (l : list D) : list D :=
  (λ d, deg_add d c) <$> l.

(** ** [GradedMinimalFreeResolution] of [sage/resolutions/graded.pyx]

    The later form of the graded class, over [MinimalFreeResolution]:
    the base class is initialized with the matrices alone, and the ideal
    is kept. *)

(** The degrees given to the later class are integers, which are kept as
    they are, or objects of which [vector(v)] makes a vector: vectors,
    tuples, lists.  [degree_of] is the degree that an argument gives. *)
Class DegreeArgument (A D : Type) := degree_of : A → D.

Global Instance integer_argument : DegreeArgument Z Z := id.

Global Instance tuple_argument (n : nat)
  : DegreeArgument (vec Z n) (sage_vector n) := λ t, SageVector t false.

Global Instance vector_argument (n : nat)
  : DegreeArgument (sage_vector n) (sage_vector n) :=
  λ v, SageVector (coords v) false.

Module GradedMinimal.

Record GradedMinimalFreeResolution (K D : Type) : Type :=
  MkGradedMinimalFreeResolution {
    resolution : Resolutions.FreeResolution K;
    _shifts : list D;
    _degrees : list D;
    _res_shifts : list (list D);
    _multigrade : bool;
    _zero_deg : D;
    _name : string
  }.

Arguments MkGradedMinimalFreeResolution {K D} _ _ _ _ _ _ _.
Arguments resolution {K D} _.
Arguments _shifts {K D} _.
Arguments _degrees {K D} _.
Arguments _res_shifts {K D} _.
Arguments _multigrade {K D} _.
Arguments _zero_deg {K D} _.
Arguments _name {K D} _.

Section methods.
Context {K A D : Type} `{Grading D} `{DegreeArgument A D}.
Context (E : Singular.Engine K (sage_object K)).
Context (LaurentPolynomialRing : string → result laurent_ring).
Implicit Types (self : GradedMinimalFreeResolution K D) (i : Z).

(** [GradedMinimalFreeResolution.__init__].  After the test [degrees[0]
    in ZZ], the branch of the vectors sets [degrees = [vector(v) for v in
    degrees]]; the branch of the integers keeps the degrees as given,
    and [degree_of] is the identity there. *)
Definition __init__ (ideal : sage_object K) (degrees : list A)
    (shifts : option (list D)) (name : string) (algorithm : string)
  : engine_call (GradedMinimalFreeResolution K D) :=
  '(R, rank) ← lift (classify ideal);
  let nvars := N R in
  _ ← lift (if decide (length degrees ≠ nvars) then
              Raise (ValueError
                "the length of degrees does not match the number of generators")
            else Ok ());
  _ ← lift (py_getitem degrees 0);
  let degrees := degree_of <$> degrees in
  md ← call "module" (Singular.singular_module E ideal);
  let shifts := default (replicate rank zero_deg) shifts in
  r ← run_algorithm E algorithm md;
  r ← lift (read_local "r" r);
  '(res_mats, res_degs) ← lift (to_sage_resolution_graded r degrees);
  res_shifts ← lift (compute_res_betti shifts res_degs);
  let base := Resolutions.MkFreeResolution
                res_mats name (Z.of_nat (length res_mats)) (Some ideal) in
  mret (MkGradedMinimalFreeResolution base shifts degrees res_shifts
                                      multigrade zero_deg name).

Definition __len__ self : Z := Resolutions.__len__ (resolution self).

Definition shifts self i : result (list D) :=
  if decide (i < 0) then Raise (IndexError "invalid index")
  else if decide (i = 0) then Ok (_shifts self)
  else if decide (i > __len__ self) then Ok []
  else py_getitem (_res_shifts self) (i - 1).

Definition betti self i (a : option D) : result (betti_value D) :=
  shifts ← shifts self i;
  let degrees := match a with None => shifts | Some a => [a] end in
  betti ← Graded.betti_dict shifts degrees;
  match a with
  | None => Ok (BettiDict betti)
  | Some a =>
      Ok (BettiInt (match betti !! a with Some n => n | None => 0 end))
  end.

Definition laurent_vars self : result nat :=
  if _multigrade self then
    d ← py_getitem (_degrees self) 0; Ok (length (monomial_args d))
  else Ok 1%nat.

(** [K_polynomial(names)]: with [names], the ring is
    [LaurentPolynomialRing(ZZ, names=names)], which the library of Sage
    makes, or refuses with an error. *)
Definition K_polynomial self (names : option string) : result laurent :=
  n ← laurent_vars self;
  L ← match names with
      | Some names => LaurentPolynomialRing names
      | None => Ok (t_ring n)
      end;
  fst <$> foldl (Graded.K_loop L (_res_shifts self))
                (Ok (laurent_one (ngens L), -1))
                (seq 0 (Z.to_nat (__len__ self))).
End methods.
End GradedMinimal.

(** The resolution of the later class with the data of a resolution of
    the earlier class: the matrices after the initial map, and the
    ideal. *)
Definition later_form {K D} (ideal : sage_object K)
    (b : GradedFreeResolution_polynomial K D)
  : GradedMinimal.GradedMinimalFreeResolution K D :=
  GradedMinimal.MkGradedMinimalFreeResolution
    (Resolutions.MkFreeResolution
       (omap (λ o, match o with MatrixMap mat => Some mat | _ => None end)
             (__maps (resolution b)))
       (__name (resolution b)) (__length (resolution b)) (Some ideal))
    (_base_shifts b) (_degrees b) (_res_betti b) (_multigrade b)
    (_zero_deg b) (_name b).

(** ** The decoder on the linked lists of Singular

    [to_sage_resolution] works on the memory of Singular: a polynomial is
    a pointer to the first node of a linked list, a node holds a term and
    the pointer [next], and the loop over a generator relinks the nodes.
    Here the memory is a finite map from addresses to nodes; a step that
    follows a pointer to no node has no result. *)

Module Pointers.

Abbreviation loc := nat.

Record node (K : Type) : Type := Node {
  node_term : term K;
  node_next : option loc
}.

Arguments Node {K} node_term node_next.
Arguments node_term {K} _.
Arguments node_next {K} _.

Abbreviation heap K := (gmap loc (node K)).

(** The [ideal] struct with its array [m] of pointers. *)
Record ideal_ptr : Type := IdealPtr {
  ptr_rank : nat;
  ptr_m : list (option loc)
}.

(** A Sage matrix of polynomials that wrap Singular pointers. *)
Record pmatrix : Type := PMatrix {
  pm_nrows : nat;
  pm_ncols : nat;
  pm_entries : list (list (option loc))
}.

Definition zero_pmatrix (r c : nat) : pmatrix :=
  PMatrix r c (replicate r (replicate c None)).

Definition set_pentry (mat : pmatrix) (i j : nat) (v : option loc) : pmatrix :=
  PMatrix (pm_nrows mat) (pm_ncols mat) (alter (<[j := v]>) i (pm_entries mat)).

Section pointer_loops.
Context {K : Type}.

(** The local variables of the loop, with the memory. *)
Record loop_state : Type := LoopState {
  st_heap : heap K;
  st_p : option loc;
  st_p_iter : option loc;
  st_previous : option loc;
  st_acc : option loc;
  st_first : option loc
}.

(** [pNext(p)] *)
Definition pNext (h : heap K) (l : loc) : option (option loc) :=
  node_next <$> h !! l.

(** [p.next = n] *)
Definition set_next (h : heap K) (l : loc) (n : option loc)
  : option (heap K) :=
  nd ← h !! l; Some (<[l := Node (node_term nd) n]> h).

(** [if acc == NULL: first = p_iter; else: acc.next = p_iter] *)
Definition link_taken (h : heap K) (acc first : option loc) (p_iter : loc)
  : option (heap K * option loc) :=
  match acc with
  | None => Some (h, Some p_iter)
  | Some acc => h ← set_next h acc (Some p_iter); Some (h, first)
  end.

(** [if previous != NULL: previous.next = next] *)
Definition unlink (h : heap K) (previous next : option loc)
  : option (heap K) :=
  match previous with
  | None => Some h
  | Some previous => set_next h previous next
  end.

(** The body of [while p_iter != NULL], at the node [p_iter]. *)
Definition loop_body (i : nat) (st : loop_state) (p_iter : loc)
  : option loop_state :=
  nd ← st_heap st !! p_iter;
  if decide (comp (node_term nd) = i) then
    (* p_SetComp(p_iter, 0); p_Setm(p_iter) *)
    let h := <[p_iter := Node (p_SetComp (node_term nd) 0) (node_next nd)]>
               (st_heap st) in
    '(h, first) ← link_taken h (st_acc st) (st_first st) p_iter;
    (* acc = p_iter; if p_iter == p: p = pNext(p_iter) *)
    next ← pNext h p_iter;
    let p := if decide (Some p_iter = st_p st) then next else st_p st in
    (* if previous != NULL: previous.next = pNext(p_iter) *)
    next ← pNext h p_iter;
    h ← unlink h (st_previous st) next;
    (* p_iter = pNext(p_iter); acc.next = NULL *)
    next ← pNext h p_iter;
    h ← set_next h p_iter None;
    Some (LoopState h p next (st_previous st) (Some p_iter) first)
  else
    (* previous = p_iter; p_iter = pNext(p_iter) *)
    Some (LoopState (st_heap st) (st_p st) (node_next nd) (Some p_iter)
                    (st_acc st) (st_first st)).

(** [while p_iter != NULL], for at most [fuel] rounds. *)
Fixpoint while_loop (fuel : nat) (i : nat) (st : loop_state)
  : option loop_state :=
  match st_p_iter st with
  | None => Some st
  | Some p_iter =>
      match fuel with
      | O => None
      | S fuel => st ← loop_body i st p_iter; while_loop fuel i st
      end
  end.

(** The body of [for i in range(1, rank + 1)]: the loop starts from
    [previous = acc = first = NULL] and [p_iter = p]; a list without a
    cycle has at most as many nodes as the memory. *)
Definition ptr_row (j : nat)
    (st : option (heap K * option loc * pmatrix * bool)) (i : nat)
  : option (heap K * option loc * pmatrix * bool) :=
  '(h, p, mat, zero_mat) ← st;
  st ← while_loop (size h) i (LoopState h p p None None None);
  let first := st_first st in
  let zero_mat := if zero_mat : bool then bool_decide (first = None)
                  else zero_mat in
  Some (st_heap st, st_p st, set_pentry mat (i - 1) j first, zero_mat).

(** The body of [for j in range(ncols)], with [p = mod.m[j]]. *)
Definition ptr_col (rank : nat) (st : option (heap K * pmatrix * bool))
    (jp : nat * option loc) : option (heap K * pmatrix * bool) :=
  '(h, mat, zero_mat) ← st;
  let '(j, p) := jp in
  '(h, _, mat, zero_mat) ← foldl (ptr_row j) (Some (h, p, mat, zero_mat))
                                 (seq 1 rank);
  Some (h, mat, zero_mat).

Definition ptr_matrix (h : heap K) (md : ideal_ptr)
  : option (heap K * pmatrix * bool) :=
  foldl (ptr_col (ptr_rank md))
        (Some (h, zero_pmatrix (ptr_rank md) (length (ptr_m md)), true))
        (imap pair (ptr_m md)).

(** The loop [for idx in range(singular_res.length)] over the array
    [mods] of pointers to modules. *)
Fixpoint ptr_walk (h : heap K) (mods : list (option ideal_ptr))
    (idxs : list nat) (res_mats : list pmatrix)
  : option (heap K * list pmatrix) :=
  match idxs with
  | [] => Some (h, res_mats)
  | idx :: idxs =>
      match mjoin (mods !! idx) with
      | None => Some (h, res_mats)
      | Some md =>
          '(h, mat, zero_mat) ← ptr_matrix h md;
          if zero_mat : bool then Some (h, res_mats)
          else ptr_walk h mods idxs (res_mats ++ [mat])
      end
  end.

(** The decoder on the chosen array, of declared length [length]: the
    memory after it and the matrices. *)
Definition decode (h : heap K) (mods : list (option ideal_ptr))
    (length : nat) : option (heap K * list pmatrix) :=
  ptr_walk h mods (seq 0 length) [].

(** *** What the memory holds *)

(** The polynomial at a pointer: the terms of the nodes along [next]. *)
Fixpoint read_poly (fuel : nat) (h : heap K) (p : option loc)
  : option (poly K) :=
  match p with
  | None => Some []
  | Some l =>
      match fuel with
      | O => None
      | S fuel =>
          nd ← h !! l;
          q ← read_poly fuel h (node_next nd);
          Some (node_term nd :: q)
      end
  end.

Definition read_entry (h : heap K) (p : option loc) : option (poly K) :=
  read_poly (size h) h p.

(** The matrix of polynomials that a matrix of pointers stands for. *)
Definition read_matrix (h : heap K) (mat : pmatrix) : option (matrix K) :=
  rows ← mapM (mapM (read_entry h)) (pm_entries mat);
  Some (Matrix (pm_nrows mat) (pm_ncols mat) rows).

(** The module that a module of pointers stands for. *)
Definition read_module (h : heap K) (md : ideal_ptr)
  : option (sip_sideal K) :=
  gens ← mapM (read_entry h) (ptr_m md);
  Some (Sideal (ptr_rank md) gens).

Definition read_mods (h : heap K) (mods : list (option ideal_ptr))
  : option (resolvente K) :=
  mapM (λ o, match o with
             | None => Some None
             | Some md => Some <$> read_module h md
             end) mods.

(** The nodes of a list: their addresses and terms, from the pointer [p]
    up to the pointer [q]. *)
Fixpoint is_seg (h : heap K) (p : option loc) (ns : list (loc * term K))
    (q : option loc) : Prop :=
  match ns with
  | [] => p = q
  | (l, t) :: ns =>
      p = Some l ∧ ∃ n, h !! l = Some (Node t n) ∧ is_seg h n ns q
  end.

Definition is_list (h : heap K) (p : option loc) (ns : list (loc * term K))
  : Prop := is_seg h p ns None.

(** The last address of a list of nodes. *)
Definition last_loc (ns : list (loc * term K)) : option loc :=
  fst <$> last ns.

(** A polynomial stored at fresh addresses from [l] on. *)
Fixpoint store_poly (h : heap K) (l : loc) (q : poly K)
  : heap K * option loc :=
  match q with
  | [] => (h, None)
  | t :: q =>
      let '(h, n) := store_poly h (S l) q in
      (<[l := Node t n]> h, Some l)
  end.

(** *** The loop and the lists *)

Implicit Types (h : heap K) (p q : option loc) (ns : list (loc * term K)).
Implicit Types (st : loop_state).

(** What the loop keeps between two rounds: the nodes kept so far run
    from [p] to [p_iter] and end at [previous]; the nodes still to look
    at run from [p_iter] to the end; the nodes taken so far run from
    [first] to the end and end at [acc]. *)
Definition loop_inv (kept taken todo : list (loc * term K)) st : Prop :=
  is_seg (st_heap st) (st_p st) kept (st_p_iter st)
  ∧ is_seg (st_heap st) (st_p_iter st) todo None
  ∧ st_previous st = last_loc kept
  ∧ is_seg (st_heap st) (st_first st) taken None
  ∧ st_acc st = last_loc taken.

(** The nodes with component [i], retagged, and the other nodes. *)
Definition taken_of (i : nat) ns : list (loc * term K) :=
  prod_map id (λ t, p_SetComp t 0) <$> filter (λ lt, comp lt.2 = i) ns.

Definition kept_of (i : nat) ns : list (loc * term K) :=
  filter (λ lt, comp lt.2 ≠ i) ns.

(** The polynomial [q] stands at the pointer [p], in nodes without a
    repeated address, all among the addresses [F]. *)
Definition poly_at h (F : list loc) p (q : poly K) : Prop :=
  ∃ ns, is_list h p ns ∧ NoDup ns.*1 ∧ ns.*2 = q ∧ ∀ x, x ∈ ns.*1 → x ∈ F.

(** The matrix [M] stands in the matrix of pointers [pm]. *)
Definition matrix_at h (F : list loc) (pm : pmatrix) (M : matrix K) : Prop :=
  pm_nrows pm = nrows M ∧ pm_ncols pm = ncols M
  ∧ Forall2 (Forall2 (poly_at h F)) (pm_entries pm) (entries M).

(** A module in the memory: its struct and the nodes of its
    generators. *)
Definition stored_module : Type := ideal_ptr * list (list (loc * term K)).

Definition module_at h (sm : stored_module) : Prop :=
  Forall2 (is_list h) (ptr_m sm.1) sm.2.

Definition module_locs (sm : stored_module) : list loc := (mjoin sm.2).*1.

(** The module that the nodes spell. *)
Definition module_of (sm : stored_module) : sip_sideal K :=
  Sideal (ptr_rank sm.1) ((λ ns, ns.*2) <$> sm.2).

(** An array of modules in the memory, [NULL] entries included. *)
Definition mods_locs (sms : list (option stored_module)) : list loc :=
  mjoin ((λ o, from_option module_locs [] o) <$> sms).

Definition mods_at h (sms : list (option stored_module)) : Prop :=
  Forall (λ o, from_option (module_at h) True o) sms ∧ NoDup (mods_locs sms).

(** The array of pointers and the array of modules that it spells. *)
Definition mods_ptrs (sms : list (option stored_module))
  : list (option ideal_ptr) :=
  (λ o : option stored_module, fst <$> o) <$> sms.

Definition mods_of (sms : list (option stored_module)) : resolvente K :=
  (λ o : option stored_module, module_of <$> o) <$> sms.

(** A list at the pointer [p] of which no node has a component among
    [rows]: the loop over these rows takes nothing from it. *)
Definition inert_at h (G : list loc) (rows : list nat) p : Prop :=
  ∃ ns, is_list h p ns ∧ NoDup ns.*1 ∧ (∀ x, x ∈ ns.*1 → x ∈ G)
        ∧ Forall (λ lt, comp lt.2 ∉ rows) ns.

(** The generators stored one after the other from the address [l] on:
    the memory, the pointer of each generator and its nodes. *)
Fixpoint store_gens h (l : loc) (gens : list (poly K))
  : heap K * list (option loc) * list (list (loc * term K)) :=
  match gens with
  | [] => (h, [], [])
  | g :: gens =>
      let '(h, p) := store_poly h l g in
      let '(h, ptrs, cols) := store_gens h (l + length g) gens in
      (h, p :: ptrs, zip (seq l (length g)) g :: cols)
  end.
End pointer_loops.

(** The modules of the twisted cubic in the memory: the six terms of the
    first module from the address [0] on, the six terms of the second
    from the address [6] on; the generator of the third module is the
    [NULL] pointer. *)
Module StoredCubic.
Definition first := store_gens (∅ : heap Z) 0 (m (Example.mod1 1 (-1))).

Definition second := store_gens first.1.1 6 (m (Example.mod2 1 (-1))).

Definition memory : heap Z := second.1.1.

Definition sms : list (option (stored_module (K := Z))) :=
  [Some (IdealPtr 1 first.1.2, first.2);
   Some (IdealPtr 3 second.1.2, second.2);
   Some (IdealPtr 2 [None], [[]]);
   None].
End StoredCubic.
End Pointers.

(** * Properties *)

(** ** Results and Python lists *)

Lemma bind_Ok {A B} (f : A → result B) (m : result A) (b : B) :
  m ≫= f = Ok b ↔ ∃ a, m = Ok a ∧ f a = Ok b.
Proof.
  destruct m as [a|e]; simpl; split.
  - intros H. by exists a.
  - by intros (a' & [= ->] & H).
  - discriminate.
  - by intros (a' & ? & _).
Qed.

Lemma fmap_Ok {A B} (f : A → B) (m : result A) (b : B) :
  f <$> m = Ok b ↔ ∃ a, m = Ok a ∧ b = f a.
Proof.
  destruct m as [a|e]; simpl; split.
  - intros [= <-]. by exists a.
  - by intros (a' & [= ->] & ->).
  - discriminate.
  - by intros (a' & ? & _).
Qed.

Lemma py_getitem_nat {A} (l : list A) (i : nat) (a : A) :
  py_getitem l (Z.of_nat i) = Ok a ↔ l !! i = Some a.
Proof.
  unfold py_getitem. destruct (decide (Z.of_nat i < 0)) as [?|_]; [lia|].
  case_decide.
  - rewrite Nat2Z.id. destruct (l !! i) eqn:E; split; congruence.
  - split; [done|]. intros Hl%lookup_lt_Some. lia.
Qed.

Lemma py_getitem_lt {A} (l : list A) (i : nat) :
  (i < length l)%nat → ∃ a, l !! i = Some a ∧ py_getitem l (Z.of_nat i) = Ok a.
Proof.
  intros Hi. destruct (lookup_lt_is_Some_2 l i Hi) as [a Ha].
  exists a. split; [done|]. by apply py_getitem_nat.
Qed.

Lemma py_getitem_ge {A} (l : list A) (i : nat) :
  (length l ≤ i)%nat →
  py_getitem l (Z.of_nat i) = Raise (IndexError "list index out of range").
Proof.
  intros Hi. unfold py_getitem. destruct (decide (Z.of_nat i < 0)) as [?|_]; [lia|].
  case_decide; [lia|done].
Qed.

Lemma forallb_seq_ext (f g : nat → bool) (a n : nat) :
  (∀ i, (a ≤ i < a + n)%nat → f i = g i) →
  forallb f (seq a n) = forallb g (seq a n).
Proof.
  revert a. induction n as [|n IH]; intros a Hfg; [done|].
  cbn. rewrite Hfg by lia. f_equal. apply IH. intros i Hi. apply Hfg. lia.
Qed.

(** ** The decoders build the presentation matrices *)

Section decoder_facts.
Context {K : Type}.
Implicit Types (p : poly K) (mat : matrix K) (md : sip_sideal K).

Lemma split_comp_spec i p :
  split_comp i p = (comp_part i p, filter (λ t, comp t ≠ i) p).
Proof.
  unfold comp_part. induction p as [|t p IH]; [done|].
  cbn [split_comp]. rewrite IH. rewrite !filter_cons.
  destruct (decide (comp t = i)) as [Heq|Hne].
  - rewrite decide_False by (by intros ?). done.
  - by rewrite decide_True by done.
Qed.

Lemma comp_part_filter_ne i k p :
  i ≠ k → comp_part i (filter (λ t, comp t ≠ k) p) = comp_part i p.
Proof.
  intros Hik. unfold comp_part. f_equal.
  induction p as [|t p IH]; [done|]. rewrite !filter_cons.
  destruct (decide (comp t ≠ k)) as [Hk|Hk].
  - rewrite filter_cons. destruct (decide (comp t = i)); by rewrite IH.
  - rewrite decide_False; [done|]. intros Hi. apply Hk. congruence.
Qed.

Lemma tabulate_lookup r c (f : nat → nat → poly K) i j :
  (i < r)%nat → (j < c)%nat → entry (tabulate r c f) i j = Some (f i j).
Proof.
  intros Hi Hj. unfold entry, tabulate. cbn [entries].
  rewrite list_lookup_fmap, lookup_seq_lt by done. cbn.
  by rewrite list_lookup_fmap, lookup_seq_lt by done.
Qed.

Lemma tabulate_ext r c (f g : nat → nat → poly K) :
  (∀ i j, (i < r)%nat → (j < c)%nat → f i j = g i j) →
  tabulate r c f = tabulate r c g.
Proof.
  intros Hfg. unfold tabulate. f_equal.
  apply list_eq. intros i. rewrite !list_lookup_fmap.
  destruct (seq 0 r !! i) as [i'|] eqn:Ei; [|done]. cbn. f_equal.
  apply lookup_seq in Ei as [-> Hi]. cbn.
  apply list_eq. intros j. rewrite !list_lookup_fmap.
  destruct (seq 0 c !! j) as [j'|] eqn:Ej; [|done]. cbn. f_equal.
  apply lookup_seq in Ej as [-> Hj]. cbn. by apply Hfg.
Qed.

Lemma set_entry_tabulate r c (f : nat → nat → poly K) i j v :
  set_entry (tabulate r c f) i j v =
  tabulate r c (λ i' j', if decide (i' = i ∧ j' = j) then v else f i' j').
Proof.
  unfold set_entry, tabulate. cbn [nrows ncols entries]. f_equal.
  apply list_eq. intros i'.
  destruct (decide (i' = i)) as [->|Hne].
  - rewrite list_lookup_alter_eq, !list_lookup_fmap.
    destruct (seq 0 r !! i) as [i'|] eqn:Ei; [|done]. cbn. f_equal.
    apply lookup_seq in Ei as [-> Hi]. cbn.
    apply list_eq. intros j'.
    destruct (decide (j' = j)) as [->|Hnej].
    + destruct (decide (j < c)%nat) as [Hj|Hj].
      * rewrite list_lookup_insert_eq by (by rewrite length_fmap, length_seq).
        rewrite list_lookup_fmap, lookup_seq_lt by done. cbn.
        by rewrite decide_True by done.
      * rewrite list_insert_ge by (rewrite length_fmap, length_seq; lia).
        rewrite !list_lookup_fmap, lookup_seq_ge by lia. done.
    + rewrite list_lookup_insert_ne by done. rewrite !list_lookup_fmap.
      destruct (seq 0 c !! j') as [j''|] eqn:Ej; [|done]. cbn. f_equal.
      apply lookup_seq in Ej as [-> Hj]. cbn.
      rewrite decide_False; [done|]. by intros [_ ?].
  - rewrite list_lookup_alter_ne by done. rewrite !list_lookup_fmap.
    destruct (seq 0 r !! i') as [i''|] eqn:Ei; [|done]. cbn. f_equal.
    apply lookup_seq in Ei as [-> Hi]. cbn.
    apply list_eq. intros j'. rewrite !list_lookup_fmap.
    destruct (seq 0 c !! j') as [j''|] eqn:Ej; [|done]. cbn. f_equal.
    apply lookup_seq in Ej as [-> Hj]. cbn.
    rewrite decide_False; [done|]. by intros [? _].
Qed.

Lemma zero_matrix_tabulate r c :
  zero_matrix r c = tabulate r c (λ _ _, [] : poly K).
Proof.
  unfold zero_matrix, tabulate. f_equal.
  apply list_eq. intros i. rewrite list_lookup_fmap.
  destruct (decide (i < r)%nat) as [Hi|Hi].
  - rewrite lookup_replicate_2, lookup_seq_lt by done. cbn. f_equal.
    apply list_eq. intros j. rewrite list_lookup_fmap.
    destruct (decide (j < c)%nat) as [Hj|Hj].
    + by rewrite lookup_replicate_2, lookup_seq_lt by done.
    + rewrite lookup_seq_ge by lia. apply lookup_replicate_None. lia.
  - rewrite lookup_seq_ge by lia. apply lookup_replicate_None. lia.
Qed.

(** The rows [a .. a+n-1] of column [j]. *)
Lemma free_rows_spec j r c (f : nat → nat → poly K) p zm a n :
  foldl (free_row j) (p, tabulate r c f, zm) (seq (S a) n) =
  (filter (λ t, ¬ (a < comp t ≤ a + n)%nat) p,
   tabulate r c (λ i' j', if decide (j' = j ∧ a ≤ i' < a + n)%nat
                          then comp_part (S i') p else f i' j'),
   zm && forallb (λ i, is_NULL (comp_part i p)) (seq (S a) n)).
Proof.
  revert f p zm a. induction n as [|n IH]; intros f p zm a.
  - cbn. f_equal; [f_equal|].
    + induction p as [|t p IHp]; [done|]. rewrite filter_cons.
      rewrite decide_True by lia. by rewrite <- IHp.
    + apply tabulate_ext. intros i' j' _ _.
      rewrite decide_False; [done|]. lia.
    + by rewrite andb_true_r.
  - cbn [seq foldl]. unfold free_row at 2.
    rewrite split_comp_spec, set_entry_tabulate, IH.
    f_equal; [f_equal|].
    + rewrite list_filter_filter. apply list_filter_iff. intros t. lia.
    + apply tabulate_ext. intros i' j' _ _.
      replace (S a - 1)%nat with a by lia.
      destruct (decide (j' = j ∧ (S a ≤ i' < S a + n)%nat)) as [[-> Hi]|Hn].
      * rewrite decide_True by lia.
        apply comp_part_filter_ne. lia.
      * destruct (decide (i' = a ∧ j' = j)) as [[-> ->]|Hn'].
        -- by rewrite decide_True by lia.
        -- rewrite decide_False; [done|]. lia.
    + cbn [forallb]. destruct zm; cbn; [|done]. f_equal.
      apply forallb_seq_ext. intros i Hi. f_equal.
      apply comp_part_filter_ne. lia.
Qed.
End decoder_facts.

Lemma bool_eq_iff (b1 b2 : bool) : (b1 = true ↔ b2 = true) → b1 = b2.
Proof. destruct b1, b2; intuition congruence. Qed.

Lemma forallb_seq_true (f : nat → bool) (a n : nat) :
  forallb f (seq a n) = true ↔ ∀ i, (a ≤ i < a + n)%nat → f i = true.
Proof.
  rewrite forallb_forall. split.
  - intros Hf i Hi. apply Hf, in_seq. lia.
  - intros Hf i Hi%in_seq. apply Hf. lia.
Qed.

Section matrix_facts.
Context {K : Type}.
Implicit Types (p : poly K) (mat : matrix K) (md : sip_sideal K).

Lemma is_NULL_true p : is_NULL p = true ↔ p = [].
Proof. by destruct p. Qed.

Lemma all_null_tabulate r c (f : nat → nat → poly K) :
  all_null (tabulate r c f) = true ↔
  ∀ i j, (i < r)%nat → (j < c)%nat → f i j = [].
Proof.
  unfold all_null, tabulate. cbn [entries].
  rewrite forallb_forall. split.
  - intros Hall i j Hi Hj.
    specialize (Hall (f i <$> seq 0 c)).
    rewrite forallb_forall in Hall. apply is_NULL_true, Hall.
    + apply in_map_iff. exists i. split; [done|]. apply in_seq. lia.
    + apply in_map_iff. exists j. split; [done|]. apply in_seq. lia.
  - intros Hf row (i & <- & Hi%in_seq)%in_map_iff.
    apply forallb_forall. intros q (j & <- & Hj%in_seq)%in_map_iff.
    apply is_NULL_true, Hf; lia.
Qed.

Lemma all_null_entry mat :
  all_null mat = false → ∃ i j p, entry mat i j = Some p ∧ p ≠ [].
Proof.
  unfold all_null, entry. intros Hn.
  induction (entries mat) as [|row rows IH]; [done|].
  cbn in Hn. apply andb_false_iff in Hn as [Hrow|Hrows].
  - exists 0%nat. cbn. clear IH.
    induction row as [|q row IH]; [done|].
    cbn in Hrow. apply andb_false_iff in Hrow as [Hq|Hrow].
    + exists 0%nat, q. split; [done|]. by destruct q.
    + destruct (IH Hrow) as (j & q' & Hj & Hq'). by exists (S j), q'.
  - destruct (IH Hrows) as (i & j & q & Hq & Hne). by exists (S i), j, q.
Qed.

(** The columns of a prefix [l] of the generators. *)
Lemma free_cols_spec r c (l : list (poly K)) :
  foldl (free_col r) (zero_matrix r c, true) (imap pair l) =
  (tabulate r c (λ i j, if decide (j < length l)%nat
                        then comp_part (S i) (default [] (l !! j)) else []),
   forallb (λ p, forallb (λ i, is_NULL (comp_part i p)) (seq 1 r)) l).
Proof.
  induction l as [|q l IH] using rev_ind.
  - cbn. f_equal. rewrite zero_matrix_tabulate. apply tabulate_ext.
    intros i j _ _. by rewrite decide_False by lia.
  - rewrite imap_app, foldl_app, IH. cbn [imap foldl].
    unfold free_col. rewrite (free_rows_spec _ r c _ q _ 0 r).
    rewrite Nat.add_0_r. f_equal.
    + apply tabulate_ext. intros i j Hi Hj.
      rewrite length_app. cbn [length].
      destruct (decide (j = length l)) as [->|Hne].
      * rewrite decide_True by lia. rewrite decide_True by lia.
        by rewrite lookup_app_r, Nat.sub_diag by lia.
      * rewrite decide_False by lia.
        destruct (decide (j < length l)%nat) as [Hlt|Hge].
        -- rewrite decide_True by lia. by rewrite lookup_app_l by done.
        -- by rewrite decide_False by lia.
    + rewrite forallb_app. cbn [forallb]. by rewrite andb_true_r.
Qed.

Lemma free_matrix_spec md :
  free_matrix md = (presentation md, all_null (presentation md)).
Proof.
  unfold free_matrix, IDELEMS. rewrite free_cols_spec.
  assert (Hpres : tabulate (rank md) (length (m md))
    (λ i j, if decide (j < length (m md))%nat
            then comp_part (S i) (default [] (m md !! j)) else [])
    = presentation md).
  { apply tabulate_ext. intros i j _ Hj. by rewrite decide_True by done. }
  rewrite Hpres. f_equal.
  apply bool_eq_iff. unfold presentation at 1, IDELEMS.
  rewrite all_null_tabulate, forallb_forall. split.
  - intros Hall i j Hi Hj.
    destruct (lookup_lt_is_Some_2 (m md) j Hj) as [q Hq].
    rewrite Hq. cbn. apply is_NULL_true.
    assert (Hin : In q (m md)).
    { apply list_elem_of_In. by eapply list_elem_of_lookup_2. }
    specialize (Hall q Hin).
    rewrite forallb_seq_true in Hall. apply Hall. lia.
  - intros Hf q Hq%list_elem_of_In.
    apply list_elem_of_lookup in Hq as [j Hj].
    apply forallb_seq_true. intros i Hi. apply is_NULL_true.
    destruct i as [|i]; [lia|].
    specialize (Hf i j ltac:(lia) (lookup_lt_Some _ _ _ Hj)).
    by rewrite Hj in Hf.
Qed.

(** The walk over the indices [a .. a+n-1] of the array. *)
Lemma free_walk_spec (mods : resolvente K) n a res_mats :
  free_walk mods (seq a n) res_mats =
  res_mats ++ (presentation <$> live_prefix (take n (drop a mods))).
Proof.
  revert a res_mats. induction n as [|n IH]; intros a res_mats.
  - cbn. by rewrite app_nil_r.
  - cbn [seq free_walk]. unfold resolvente_at.
    destruct (drop a mods) as [|o rest] eqn:Hdrop.
    + apply drop_nil_inv in Hdrop.
      rewrite lookup_ge_None_2 by lia. cbn. by rewrite app_nil_r.
    + assert (Ha : mods !! a = Some o).
      { rewrite <- (Nat.add_0_r a), <- lookup_drop, Hdrop. done. }
      assert (Hrest : drop (S a) mods = rest).
      { change (S a) with (1 + a)%nat. rewrite Nat.add_comm.
        rewrite <- drop_drop, Hdrop. done. }
      rewrite Ha.
      destruct o as [md|]; cbn -[all_null presentation free_matrix];
        [|by rewrite app_nil_r].
      rewrite free_matrix_spec.
      destruct (all_null (presentation md)); cbn -[presentation];
        [by rewrite app_nil_r|].
      rewrite IH, Hrest, <- app_assoc. done.
Qed.
End matrix_facts.

(** ** The degree data of the graded decoder *)

Section degree_facts.
Context {K D : Type} `{Grading D}.
Implicit Types (p : poly K) (mat : matrix K) (md : sip_sideal K).
Implicit Types (degrees : list D) (r : ring).

Lemma degree_loop_ok r degrees (t : term K) n a (acc : D) :
  (a + n ≤ length degrees)%nat → (a + n ≤ N r)%nat →
  foldl (degree_step (singular_monomial_exponents t r) degrees)
        (Ok acc) (seq a n) =
  Ok (foldl (λ deg k, deg_add deg
               (deg_scale (Z.of_nat (p_GetExp t (S k)))
                          (default zero_deg (degrees !! k))))
            acc (seq a n)).
Proof.
  revert a acc. induction n as [|n IH]; intros a acc Hd Hn; [done|].
  cbn [seq foldl]. unfold degree_step at 2. cbn [mbind result_bind].
  assert (He : py_getitem (singular_monomial_exponents t r) (Z.of_nat a)
               = Ok (p_GetExp t (S a))).
  { apply py_getitem_nat. unfold singular_monomial_exponents.
    rewrite list_lookup_fmap, lookup_seq_lt by lia. done. }
  rewrite He. cbn [mbind result_bind].
  destruct (py_getitem_lt degrees a ltac:(lia)) as (d & Hd1 & Hd2).
  rewrite Hd2, Hd1. cbn. apply IH; lia.
Qed.

Lemma first_degree_ok r degrees (first : poly K) :
  (length degrees ≤ N r)%nat →
  first_degree r degrees first = Ok (entry_degree degrees first).
Proof.
  intros Hn. destruct first as [|t first]; [done|].
  unfold first_degree, entry_degree, monomial_degree.
  by rewrite degree_loop_ok by lia.
Qed.

Lemma all_None_column degrees rank (q : poly K) :
  all_None (column_degrees degrees rank q) =
  forallb (λ i, is_NULL (comp_part i q)) (seq 1 rank).
Proof.
  unfold all_None, column_degrees.
  induction (seq 1 rank) as [|i l IH]; [done|].
  cbn. rewrite <- IH. f_equal. by destruct (comp_part i q).
Qed.

Lemma rows_degs_seq degrees p a n :
  rows_degs degrees p (seq (S a) n) =
  (λ i, entry_degree degrees (comp_part i p)) <$> seq (S a) n.
Proof.
  revert a p. induction n as [|n IH]; intros a p; [done|].
  cbn [seq rows_degs fmap list_fmap]. f_equal.
  rewrite IH. apply list_eq. intros k. rewrite !list_lookup_fmap.
  destruct (seq (S (S a)) n !! k) as [i|] eqn:Ei; [|done]. cbn. f_equal.
  apply lookup_seq in Ei as [-> _]. f_equal.
  apply comp_part_filter_ne. lia.
Qed.

Lemma graded_rows_fold r degrees j l p degs mat zm :
  (length degrees ≤ N r)%nat →
  foldl (graded_row r degrees j) (Ok (p, degs, mat)) l =
    Ok ((foldl (free_row j) (p, mat, zm) l).1.1,
        degs ++ rows_degs degrees p l,
        (foldl (free_row j) (p, mat, zm) l).1.2)
  ∧ (foldl (free_row j) (p, mat, zm) l).2 =
    (if zm then all_None (rows_degs degrees p l) else zm).
Proof.
  intros Hn. revert p degs mat zm.
  induction l as [|i l IH]; intros p degs mat zm.
  - cbn. rewrite app_nil_r. by destruct zm.
  - cbn [foldl rows_degs].
    unfold graded_row at 2, free_row at 2 4 6.
    cbn [mbind result_bind]. rewrite split_comp_spec.
    rewrite first_degree_ok by done. cbn [mbind result_bind].
    destruct (IH (filter (λ t, comp t ≠ i) p)
                 (degs ++ [entry_degree degrees (comp_part i p)])
                 (set_entry mat (i - 1) j (comp_part i p))
                 (if zm then is_NULL (comp_part i p) else zm))
      as [IH1 IH2].
    rewrite IH1, IH2. split.
    + by rewrite <- app_assoc.
    + destruct zm; [|done]. cbn.
      by destruct (comp_part i p).
Qed.

Lemma graded_cols_fold r degrees rank (l : list (nat * poly K))
    mat matdegs zm :
  (length degrees ≤ N r)%nat →
  foldl (graded_col r degrees rank) (Ok (mat, matdegs, zm)) l =
  Ok ((foldl (free_col rank) (mat, zm) l).1,
      matdegs ++ ((λ jq, column_degrees degrees rank jq.2) <$> l),
      (foldl (free_col rank) (mat, zm) l).2).
Proof.
  intros Hn. revert mat matdegs zm.
  induction l as [|[j q] l IH]; intros mat matdegs zm.
  - cbn. by rewrite app_nil_r.
  - cbn [foldl]. unfold graded_col at 2, free_col at 2 4.
    cbn [mbind result_bind].
    destruct (graded_rows_fold r degrees j (seq 1 rank) q [] mat zm Hn)
      as [H1 H2].
    rewrite H1. cbn [mbind result_bind].
    destruct (foldl (free_row j) (q, mat, zm) (seq 1 rank))
      as [[p' mat'] zm'] eqn:Efree.
    cbn [fst snd] in *. subst zm'.
    rewrite rows_degs_seq. fold (column_degrees degrees rank q).
    rewrite IH. cbn [fmap list_fmap snd]. by rewrite <- app_assoc.
Qed.

Lemma graded_matrix_spec r degrees md :
  (length degrees ≤ N r)%nat →
  graded_matrix r degrees md =
  Ok (presentation md, degree_table degrees md, all_null (presentation md)).
Proof.
  intros Hn. unfold graded_matrix.
  rewrite graded_cols_fold by done. fold (free_matrix md).
  rewrite free_matrix_spec. cbn [fst snd app]. do 3 f_equal.
  unfold degree_table. apply list_eq. intros j.
  rewrite !list_lookup_fmap, list_lookup_imap.
  by destruct (m md !! j).
Qed.

Lemma graded_walk_spec r degrees (mods : resolvente K) n a res_mats res_degs :
  (length degrees ≤ N r)%nat →
  graded_walk r degrees mods (seq a n) res_mats res_degs =
  Ok (res_mats ++ (presentation <$> live_prefix (take n (drop a mods))),
      res_degs ++ (degree_table degrees <$> live_prefix (take n (drop a mods)))).
Proof.
  intros Hn. revert a res_mats res_degs.
  induction n as [|n IH]; intros a res_mats res_degs.
  - cbn. by rewrite !app_nil_r.
  - cbn [seq graded_walk]. unfold resolvente_at.
    destruct (drop a mods) as [|o rest] eqn:Hdrop.
    + apply drop_nil_inv in Hdrop.
      rewrite lookup_ge_None_2 by lia. cbn. by rewrite !app_nil_r.
    + assert (Ha : mods !! a = Some o).
      { rewrite <- (Nat.add_0_r a), <- lookup_drop, Hdrop. done. }
      assert (Hrest : drop (S a) mods = rest).
      { change (S a) with (1 + a)%nat. rewrite Nat.add_comm.
        rewrite <- drop_drop, Hdrop. done. }
      rewrite Ha.
      destruct o as [md|]; cbn -[all_null presentation graded_matrix];
        [|by rewrite !app_nil_r].
      rewrite graded_matrix_spec by done. cbn [mbind result_bind].
      destruct (all_null (presentation md));
        cbn -[presentation degree_table]; [by rewrite !app_nil_r|].
      rewrite IH, Hrest, <- !app_assoc. done.
Qed.
End degree_facts.

Lemma engine_bind_Ok {A B} (c : engine_call A) (f : A → engine_call B)
    (log log' : list string) (b : B) :
  (c ≫= f) log = (Ok b, log') ↔
  ∃ a log1, c log = (Ok a, log1) ∧ f a log1 = (Ok b, log').
Proof.
  unfold mbind, engine_call_bind. destruct (c log) as [[a|e] log1]; split.
  - intros Hf. by exists a, log1.
  - by intros (a' & log2 & [= -> ->] & Hf).
  - discriminate.
  - by intros (a' & log2 & ? & _).
Qed.

Lemma lift_Ok {A} (r : result A) (log log' : list string) (a : A) :
  lift r log = (Ok a, log') ↔ r = Ok a ∧ log' = log.
Proof. unfold lift. split; [by intros [= -> ->]|by intros [-> ->]]. Qed.

Lemma call_Ok {A} (name : string) (v a : A) (log log' : list string) :
  call name v log = (Ok a, log') ↔ a = v ∧ log' = log ++ [name].
Proof. unfold call. split; [by intros [= -> ->]|by intros [-> ->]]. Qed.

(** ** The prefix of the modules that the decoders keep *)

Section live_prefix_facts.
Context {K : Type}.
Implicit Types (mods rest : resolvente K) (mds : list (sip_sideal K)).

Lemma live_prefix_Forall mods :
  Forall (λ md, all_null (presentation md) = false) (live_prefix mods).
Proof.
  induction mods as [|[md|] mods IH]; cbn -[all_null presentation]; [done| |done].
  destruct (all_null (presentation md)) eqn:E; [done|]. by constructor.
Qed.

Lemma live_prefix_take mods :
  Some <$> live_prefix mods = take (length (live_prefix mods)) mods.
Proof.
  induction mods as [|[md|] mods IH]; cbn -[all_null presentation]; [done| |done].
  destruct (all_null (presentation md)); [done|].
  cbn -[all_null presentation]. by rewrite IH.
Qed.

Lemma live_prefix_stop mods :
  is_stop (mods !! length (live_prefix mods)) = true.
Proof.
  induction mods as [|[md|] mods IH]; cbn -[all_null presentation]; [done| |done].
  destruct (all_null (presentation md)) eqn:E; [done|]. done.
Qed.

Lemma live_prefix_app mds rest :
  Forall (λ md, all_null (presentation md) = false) mds →
  live_prefix ((Some <$> mds) ++ rest) = mds ++ live_prefix rest.
Proof.
  induction 1 as [|md mds Hmd _ IH]; [done|].
  cbn -[all_null presentation]. by rewrite Hmd, IH.
Qed.

Lemma live_prefix_stop_nil rest k :
  k = 0%nat ∨ is_stop (rest !! 0%nat) = true →
  live_prefix (take k rest) = [].
Proof.
  intros [->|Hstop]; [done|].
  destruct k; [done|].
  destruct rest as [|[md|] rest]; cbn -[all_null presentation] in *; [done| |done].
  by rewrite Hstop.
Qed.

(** A resolution of true length [n]: [n] modules with a non-null entry
    each, and then the end of the walk. *)
Lemma live_prefix_exact mds rest len :
  Forall (λ md, all_null (presentation md) = false) mds →
  (length mds ≤ len)%nat →
  length mds = len ∨ is_stop (rest !! 0%nat) = true →
  live_prefix (take len ((Some <$> mds) ++ rest)) = mds.
Proof.
  intros Hmds Hlen Hstop.
  rewrite take_app, take_ge by (rewrite length_fmap; lia).
  rewrite length_fmap, live_prefix_app by done.
  rewrite live_prefix_stop_nil; [by rewrite app_nil_r|].
  destruct Hstop as [<-|?]; [left; lia|by right].
Qed.
End live_prefix_facts.

(** ** C7: the choice of the list and the unusable resolution *)

Section decoder_errors.
Context {K D : Type} `{Grading D}.

Lemma degree_loop_raise (exps : list nat) (degrees : list D) l st e :
  foldl (degree_step exps degrees) st l = Raise e →
  st = Raise e ∨ ∃ msg, e = IndexError msg.
Proof.
  revert st. induction l as [|k l IH]; intros st Hr; [by left|].
  cbn [foldl] in Hr. apply IH in Hr as [Hr|Hr]; [|by right].
  unfold degree_step in Hr. destruct st as [deg|e']; [|by left].
  right. cbn [mbind result_bind] in Hr.
  unfold py_getitem in Hr.
  repeat (case_decide || case_match || simplify_eq/=); eauto.
Qed.

Lemma first_degree_raise (r : ring) (degrees : list D) (first : poly K) e :
  first_degree r degrees first = Raise e → ∃ msg, e = IndexError msg.
Proof.
  destruct first as [|t first]; [done|]. unfold first_degree.
  destruct (foldl _ _ _) as [d|e'] eqn:E; [done|].
  intros [= <-]. by apply degree_loop_raise in E as [?|?].
Qed.

Lemma graded_rows_raise (r : ring) (degrees : list D) j l st e :
  foldl (graded_row (K:=K) r degrees j) st l = Raise e →
  st = Raise e ∨ ∃ msg, e = IndexError msg.
Proof.
  revert st. induction l as [|i l IH]; intros st Hr; [by left|].
  cbn [foldl] in Hr. apply IH in Hr as [Hr|Hr]; [|by right].
  unfold graded_row in Hr. destruct st as [[[p degs] mat]|e']; [|by left].
  right. cbn [mbind result_bind] in Hr.
  destruct (split_comp i p) as [first p'].
  destruct (first_degree r degrees first) as [d|e'] eqn:E; [done|].
  cbn in Hr. injection Hr as <-. by eapply first_degree_raise.
Qed.

Lemma graded_cols_raise (r : ring) (degrees : list D) rank l st e :
  foldl (graded_col (K:=K) r degrees rank) st l = Raise e →
  st = Raise e ∨ ∃ msg, e = IndexError msg.
Proof.
  revert st. induction l as [|[j q] l IH]; intros st Hr; [by left|].
  cbn [foldl] in Hr. apply IH in Hr as [Hr|Hr]; [|by right].
  unfold graded_col in Hr. destruct st as [[[mat matdegs] zm]|e']; [|by left].
  right. cbn [mbind result_bind] in Hr.
  destruct (foldl _ _ (seq 1 rank)) as [[[p' degs] mat']|e'] eqn:E; [done|].
  cbn in Hr. injection Hr as <-.
  by apply graded_rows_raise in E as [?|?].
Qed.

Lemma graded_walk_raise (r : ring) (degrees : list D) (mods : resolvente K)
    idxs res_mats res_degs e :
  graded_walk r degrees mods idxs res_mats res_degs = Raise e →
  ∃ msg, e = IndexError msg.
Proof.
  revert res_mats res_degs.
  induction idxs as [|idx idxs IH]; intros res_mats res_degs Hr; [done|].
  cbn [graded_walk] in Hr.
  destruct (resolvente_at mods idx) as [md|]; [|done].
  destruct (graded_matrix r degrees md) as [[[mat matdegs] zm]|e'] eqn:E.
  - cbn in Hr. destruct zm; [done|]. by eapply IH.
  - cbn in Hr. injection Hr as <-.
    by apply graded_cols_raise in E as [?|?].
Qed.

(** C7.  The decoders work on the minimal list when the handle has one,
    whatever the full list is, and otherwise on the full list: they
    return the presentation matrices of the modules of that list that
    precede the first stop.  They raise the [ValueError] of the unusable
    resolution exactly when the handle has neither list; the error comes
    from the choice of the list, which precedes the walk that builds the
    matrices. *)
Theorem decoder_list_choice (res : Resolution K) (degrees : list D) :
  let s := _resolution res in
  let live mods := live_prefix (take (res_length s) mods) in
  (∀ mods, minres s = Some mods →
     to_sage_resolution res = Ok (presentation <$> live mods)
     ∧ ((length degrees ≤ N (base_ring res))%nat →
        to_sage_resolution_graded res degrees
        = Ok (presentation <$> live mods, degree_table degrees <$> live mods)))
  ∧ (∀ mods, minres s = None → fullres s = Some mods →
     to_sage_resolution res = Ok (presentation <$> live mods)
     ∧ ((length degrees ≤ N (base_ring res))%nat →
        to_sage_resolution_graded res degrees
        = Ok (presentation <$> live mods, degree_table degrees <$> live mods)))
  ∧ (to_sage_resolution res = Raise unusable ↔ minres s = None ∧ fullres s = None)
  ∧ (to_sage_resolution_graded res degrees = Raise unusable
     ↔ minres s = None ∧ fullres s = None)
  ∧ (select_mods s = Raise unusable ↔ minres s = None ∧ fullres s = None).
Proof.
  intros s live.
  assert (Hsel : select_mods s = Raise unusable ↔ minres s = None ∧ fullres s = None).
  { unfold select_mods.
    destruct (minres s), (fullres s); split; try done; by intros []. }
  assert (Hwalk : ∀ mods, select_mods s = Ok mods →
            to_sage_resolution res = Ok (presentation <$> live mods)
            ∧ ((length degrees ≤ N (base_ring res))%nat →
               to_sage_resolution_graded res degrees
               = Ok (presentation <$> live mods,
                     degree_table degrees <$> live mods))).
  { intros mods Hmods.
    unfold to_sage_resolution, to_sage_resolution_graded. fold s.
    rewrite Hmods. cbn [mbind result_bind]. split.
    - by rewrite free_walk_spec, drop_0.
    - intros Hn. by rewrite graded_walk_spec, drop_0. }
  split; [|split; [|split; [|split]]].
  - intros mods Hmin. apply Hwalk. unfold select_mods. by rewrite Hmin.
  - intros mods Hmin Hfull. apply Hwalk. unfold select_mods.
    by rewrite Hmin, Hfull.
  - unfold to_sage_resolution. fold s.
    rewrite <- Hsel. destruct (select_mods s); cbn;
      [by split|by split; intros [= ->]].
  - unfold to_sage_resolution_graded. fold s.
    rewrite <- Hsel. destruct (select_mods s) as [mods|e]; cbn;
      [|by split; intros [= ->]].
    split; [|done].
    intros Hr. by apply graded_walk_raise in Hr as [msg ?].
  - done.
Qed.
End decoder_errors.

(** ** C2: the decoders stop at the first zero matrix *)

Section decoder_termination.
Context {K D : Type} `{Grading D}.

(** C2.  Both decoders walk the chosen list over the indices below the
    declared length and return the presentation matrices of the modules
    that precede the first stop: a [NULL] entry or a module whose
    entries are all null, which is discarded.  No returned matrix is a
    zero matrix, and a list that holds [n] modules with a non-null
    entry each, followed by a stop or by the declared length, yields
    exactly these [n] matrices. *)
Theorem decoder_stops_at_zero_matrix (res : Resolution K)
    (degrees : list D) (mods : resolvente K) :
  select_mods (_resolution res) = Ok mods →
  let len := res_length (_resolution res) in
  let live := live_prefix (take len mods) in
  to_sage_resolution res = Ok (presentation <$> live)
  ∧ ((length degrees ≤ N (base_ring res))%nat →
     to_sage_resolution_graded res degrees =
     Ok (presentation <$> live, degree_table degrees <$> live))
  ∧ (length live ≤ len)%nat
  ∧ Some <$> live = take (length live) mods
  ∧ (length live = len ∨ is_stop (mods !! length live) = true)
  ∧ Forall (λ mat, all_null mat = false
                   ∧ ∃ i j p, entry mat i j = Some p ∧ p ≠ [])
           (presentation <$> live)
  ∧ (∀ mds rest,
       mods = (Some <$> mds) ++ rest →
       Forall (λ md, all_null (presentation md) = false) mds →
       (length mds ≤ len)%nat →
       length mds = len ∨ is_stop (rest !! 0%nat) = true →
       to_sage_resolution res = Ok (presentation <$> mds)
       ∧ length (presentation <$> mds) = length mds).
Proof.
  intros Hsel len live.
  assert (Hfree : to_sage_resolution res = Ok (presentation <$> live)).
  { unfold to_sage_resolution. rewrite Hsel. cbn [mbind result_bind].
    by rewrite free_walk_spec, drop_0. }
  assert (Hpre : Some <$> live = take (length live) (take len mods)).
  { apply live_prefix_take. }
  assert (Hlen : (length live ≤ len)%nat).
  { apply (f_equal length) in Hpre.
    rewrite length_fmap, !length_take in Hpre. lia. }
  split; [done|]. split; [|split; [done|split; [|split; [|split]]]].
  - intros Hn. unfold to_sage_resolution_graded.
    rewrite Hsel. cbn [mbind result_bind].
    by rewrite graded_walk_spec, drop_0.
  - by rewrite Hpre, take_take, Nat.min_l.
  - destruct (decide (length live = len)) as [?|Hne]; [by left|right].
    pose proof (live_prefix_stop (take len mods)) as Hstop.
    fold live in Hstop. by rewrite lookup_take_lt in Hstop by lia.
  - apply Forall_fmap. eapply Forall_impl; [apply live_prefix_Forall|].
    intros md Hmd. cbn. split; [done|]. by apply all_null_entry.
  - intros mds rest -> Hmds Hle Hstop.
    rewrite Hfree. unfold live. rewrite live_prefix_exact by done.
    by rewrite length_fmap.
Qed.
End decoder_termination.

(** ** The shift calculator, by its specification *)

Section shift_facts.
Context {D : Type} `{Grading D}.
Implicit Types (prev grade : list D) (col : list (option D)).
Implicit Types (degs : list (list (option D))).

Lemma first_defined_cons_None col :
  first_defined (None :: col) = prod_map S id <$> first_defined col.
Proof.
  unfold first_defined. cbn.
  destruct (list_find is_Some col) as [[r [e|]]|]; done.
Qed.

Lemma first_defined_cons_Some d col :
  first_defined (Some d :: col) = Some (0%nat, d).
Proof. unfold first_defined. cbn. by rewrite decide_True by done. Qed.

Lemma first_defined_None col : first_defined col = None ↔ all_None col = true.
Proof.
  induction col as [|[d|] col IH]; [done| |].
  - by rewrite first_defined_cons_Some.
  - rewrite first_defined_cons_None. cbn. rewrite <- IH.
    by destruct (first_defined col).
Qed.

Lemma first_defined_Some col r e :
  first_defined col = Some (r, e) ↔
  col !! r = Some (Some e) ∧ ∀ j, (j < r)%nat → col !! j = Some None.
Proof.
  revert r. induction col as [|[d|] col IH]; intros r.
  - split; [done|]. by intros [? _].
  - rewrite first_defined_cons_Some. split.
    + intros [= <- <-]. split; [done|]. lia.
    + intros [Hr Hj]. destruct r as [|r]; [by simplify_eq/=|].
      by specialize (Hj 0%nat ltac:(lia)).
  - rewrite first_defined_cons_None. split.
    + intros ([r' e'] & E & [= -> ->])%fmap_Some.
      apply IH in E as [Hr Hj]. split; [done|].
      intros [|j] Hlt; [done|]. apply Hj. lia.
    + intros [Hr Hj]. destruct r as [|r]; [done|].
      assert (E : first_defined col = Some (r, e)).
      { apply IH. split; [done|]. intros j Hlt. apply (Hj (S j)). lia. }
      by rewrite E.
Qed.

Lemma new_shift_Some prev col r e e' :
  first_defined col = Some (r, e) → prev !! r = Some e' →
  new_shift prev col = Some (deg_add e e').
Proof. intros Hfd Hr. unfold new_shift. rewrite Hfd. cbn. by rewrite Hr. Qed.

Lemma new_shift_None prev col :
  first_defined col = None → new_shift prev col = None.
Proof. intros Hfd. unfold new_shift. by rewrite Hfd. Qed.

Lemma has_defined_Some col r e :
  first_defined col = Some (r, e) → has_defined col = true.
Proof.
  intros Hfd. unfold has_defined. destruct (all_None col) eqn:En; [|done].
  apply first_defined_None in En. congruence.
Qed.

Lemma has_defined_None col :
  first_defined col = None → has_defined col = false.
Proof.
  intros Hfd%first_defined_None. unfold has_defined. by rewrite Hfd.
Qed.

Lemma scan_column_spec prev col i grade :
  scan_column prev col i grade =
  match first_defined col with
  | None => Ok grade
  | Some (r, e) =>
      e' ← py_getitem prev (Z.of_nat (i + r)); Ok (grade ++ [deg_add e e'])
  end.
Proof.
  revert i. induction col as [|[d|] col IH]; intros i.
  - done.
  - rewrite first_defined_cons_Some. cbn. by rewrite Nat.add_0_r.
  - rewrite first_defined_cons_None. cbn [scan_column]. rewrite IH.
    destruct (first_defined col) as [[r e]|]; [|done].
    cbn. by rewrite Nat.add_succ_r.
Qed.

(** A column without a defined row appends nothing and raises
    nothing. *)
Lemma scan_column_all_None prev col i grade :
  all_None col = true → scan_column prev col i grade = Ok grade.
Proof.
  intros Hn%first_defined_None. by rewrite scan_column_spec, Hn.
Qed.

Lemma grade_loop_raise prev degs e :
  foldl (grade_step prev) (Raise e) degs = Raise e.
Proof. induction degs as [|col degs IH]; [done|]. apply IH. Qed.

Lemma grade_loop_Ok prev degs grade0 grade :
  foldl (grade_step prev) (Ok grade0) degs = Ok grade →
  grade = grade0 ++ omap (new_shift prev) degs
  ∧ Forall (λ col, ∀ r e, first_defined col = Some (r, e) →
                          (r < length prev)%nat) degs.
Proof.
  revert grade0. induction degs as [|col degs IH]; intros grade0 Hok.
  - cbn in Hok. injection Hok as <-. by rewrite app_nil_r.
  - cbn [foldl] in Hok. unfold grade_step at 2 in Hok.
    cbn [mbind result_bind] in Hok.
    rewrite scan_column_spec in Hok. cbn [omap list_omap].
    destruct (first_defined col) as [[r e]|] eqn:E.
    + cbn [Nat.add] in Hok.
      destruct (py_getitem prev (Z.of_nat r)) as [e'|err] eqn:Ee.
      * apply py_getitem_nat in Ee.
        rewrite (new_shift_Some _ _ _ _ _ E Ee).
        apply IH in Hok as [-> Hall]. split.
        -- by rewrite <- app_assoc.
        -- constructor; [|done]. intros r' e''. rewrite E.
           intros [= <- <-]. by eapply lookup_lt_Some.
      * cbn in Hok. by rewrite grade_loop_raise in Hok.
    + rewrite (new_shift_None _ _ E).
      apply IH in Hok as [-> Hall]. split; [done|].
      constructor; [|done]. intros r e. by rewrite E.
Qed.

(** The loop over the columns succeeds when the first defined row of
    every column is a position of the previous shifts. *)
Lemma grade_loop_total prev degs grade0 :
  Forall (λ col, ∀ r e, first_defined col = Some (r, e) →
                        (r < length prev)%nat) degs →
  foldl (grade_step prev) (Ok grade0) degs =
  Ok (grade0 ++ omap (new_shift prev) degs).
Proof.
  intros Hall. revert grade0.
  induction Hall as [|col degs Hcol _ IH]; intros grade0.
  - cbn. by rewrite app_nil_r.
  - cbn [foldl]. unfold grade_step at 2. cbn [mbind result_bind].
    rewrite scan_column_spec. cbn [omap list_omap].
    destruct (first_defined col) as [[r e]|] eqn:E.
    + destruct (py_getitem_lt prev r (Hcol r e eq_refl)) as (e' & He1 & He2).
      rewrite (new_shift_Some _ _ _ _ _ E He1). cbn [Nat.add].
      rewrite He2. cbn. rewrite IH. by rewrite <- app_assoc.
    + rewrite (new_shift_None _ _ E). apply IH.
Qed.

Lemma grade_of_Ok prev degs grade :
  grade_of prev degs = Ok grade → grade = omap (new_shift prev) degs.
Proof. intros Hok. by apply grade_loop_Ok in Hok as [-> _]. Qed.

Lemma betti_loop_Ok prev res_degs res_betti B :
  betti_loop prev res_degs res_betti = Ok B →
  B = res_betti ++ shifts_of prev res_degs.
Proof.
  revert prev res_betti.
  induction res_degs as [|degs res_degs IH]; intros prev res_betti Hok.
  - cbn in Hok. injection Hok as <-. by rewrite app_nil_r.
  - cbn [betti_loop] in Hok.
    destruct (grade_of prev degs) as [grade|e] eqn:Eg; [|done].
    cbn [mbind result_bind] in Hok.
    apply grade_of_Ok in Eg as ->. apply IH in Hok as ->.
    cbn [shifts_of]. by rewrite <- app_assoc.
Qed.

Lemma compute_res_betti_Ok shifts res_degs B :
  compute_res_betti shifts res_degs = Ok B → B = shifts_of shifts res_degs.
Proof. intros Hok. by apply betti_loop_Ok in Hok. Qed.




Lemma length_omap_new_shift prev degs :
  Forall (λ col, ∀ r e, first_defined col = Some (r, e) →
                        (r < length prev)%nat) degs →
  length (omap (new_shift prev) degs) = length (filter has_defined degs).
Proof.
  induction 1 as [|c degs Hc Hall IH]; [done|].
  cbn [omap list_omap]. rewrite filter_cons.
  destruct (first_defined c) as [[rc ec]|] eqn:Ec.
  - destruct (lookup_lt_is_Some_2 prev rc (Hc rc ec eq_refl)) as [e'' He''].
    rewrite (new_shift_Some _ _ _ _ _ Ec He''), (has_defined_Some _ _ _ Ec).
    rewrite decide_True by done. cbn. by rewrite IH.
  - rewrite (new_shift_None _ _ Ec), (has_defined_None _ Ec).
    by rewrite decide_False by (by intros ?).
Qed.
End shift_facts.

(** ** What the graded decoder returns, whenever it returns *)

Section graded_decoder_inversion.
Context {K D : Type} `{Grading D}.
Implicit Types (p : poly K) (mat : matrix K) (md : sip_sideal K).
Implicit Types (degrees : list D) (r : ring).

Lemma degree_loop_Raise (exps : list nat) degrees l e :
  foldl (degree_step exps degrees) (Raise e) l = Raise e.
Proof. induction l as [|k l IH]; [done|]. apply IH. Qed.

Lemma degree_loop_Ok_inv r degrees (t : term K) n a (acc d : D) :
  foldl (degree_step (singular_monomial_exponents t r) degrees)
        (Ok acc) (seq a n) = Ok d →
  d = foldl (λ deg k, deg_add deg
               (deg_scale (Z.of_nat (p_GetExp t (S k)))
                          (default zero_deg (degrees !! k))))
            acc (seq a n).
Proof.
  revert a acc. induction n as [|n IH]; intros a acc Hok.
  - cbn in Hok. by injection Hok as <-.
  - cbn [seq foldl] in *. unfold degree_step at 2 in Hok.
    cbn [mbind result_bind] in Hok.
    destruct (py_getitem (singular_monomial_exponents t r) (Z.of_nat a))
      as [e|err] eqn:Ee; cbn [mbind result_bind] in Hok;
      [|by rewrite degree_loop_Raise in Hok].
    destruct (py_getitem degrees (Z.of_nat a)) as [da|err] eqn:Ed;
      cbn [mbind result_bind] in Hok;
      [|by rewrite degree_loop_Raise in Hok].
    apply py_getitem_nat in Ee, Ed. rewrite Ed. cbn [default].
    unfold singular_monomial_exponents in Ee.
    rewrite list_lookup_fmap in Ee.
    destruct (seq 1 (N r) !! a) as [v|] eqn:Ev; [|done].
    apply lookup_seq in Ev as [-> _]. cbn in Ee. injection Ee as <-.
    by apply IH.
Qed.

Lemma first_degree_Ok_inv r degrees (first : poly K) d :
  first_degree r degrees first = Ok d → d = entry_degree degrees first.
Proof.
  destruct first as [|t first]; [by intros [= <-]|].
  unfold first_degree, entry_degree, monomial_degree.
  intros (d' & Hd' & ->)%fmap_Ok. f_equal.
  by eapply degree_loop_Ok_inv.
Qed.

Lemma graded_rows_Raise r degrees j l e :
  foldl (graded_row (K:=K) r degrees j) (Raise e) l = Raise e.
Proof. induction l as [|i l IH]; [done|]. apply IH. Qed.

Lemma graded_cols_Raise r degrees rank l e :
  foldl (graded_col (K:=K) r degrees rank) (Raise e) l = Raise e.
Proof. induction l as [|[j q] l IH]; [done|]. apply IH. Qed.

Lemma free_rows_flag degrees j l p mat zm :
  (foldl (free_row j) (p, mat, zm) l).2 =
  (if zm then all_None (rows_degs degrees p l) else zm).
Proof.
  revert p mat zm. induction l as [|i l IH]; intros p mat zm.
  - cbn. by destruct zm.
  - cbn [foldl rows_degs]. unfold free_row at 2.
    rewrite split_comp_spec, IH.
    destruct zm; [|done]. cbn. by destruct (comp_part i p).
Qed.

Lemma graded_rows_Ok_inv r degrees j l p degs mat zm res :
  foldl (graded_row r degrees j) (Ok (p, degs, mat)) l = Ok res →
  res = ((foldl (free_row j) (p, mat, zm) l).1.1,
         degs ++ rows_degs degrees p l,
         (foldl (free_row j) (p, mat, zm) l).1.2).
Proof.
  revert p degs mat zm.
  induction l as [|i l IH]; intros p degs mat zm Hok.
  - cbn in *. injection Hok as <-. by rewrite app_nil_r.
  - cbn [foldl rows_degs] in *.
    unfold graded_row at 2 in Hok. unfold free_row at 2 4.
    cbn [mbind result_bind] in Hok. rewrite split_comp_spec in *.
    destruct (first_degree r degrees (comp_part i p)) as [d|e] eqn:Ed;
      cbn [mbind result_bind] in Hok;
      [|by rewrite graded_rows_Raise in Hok].
    apply first_degree_Ok_inv in Ed as ->.
    rewrite (IH _ _ _ (if zm then is_NULL (comp_part i p) else zm) Hok).
    by rewrite <- app_assoc.
Qed.

Lemma graded_cols_Ok_inv r degrees rank (l : list (nat * poly K))
    mat matdegs zm res :
  foldl (graded_col r degrees rank) (Ok (mat, matdegs, zm)) l = Ok res →
  res = ((foldl (free_col rank) (mat, zm) l).1,
         matdegs ++ ((λ jq, column_degrees degrees rank jq.2) <$> l),
         (foldl (free_col rank) (mat, zm) l).2).
Proof.
  revert mat matdegs zm.
  induction l as [|[j q] l IH]; intros mat matdegs zm Hok.
  - cbn in *. injection Hok as <-. by rewrite app_nil_r.
  - cbn [foldl] in *. unfold graded_col at 2 in Hok.
    unfold free_col at 2 4. cbn [mbind result_bind] in Hok.
    destruct (foldl (graded_row r degrees j) (Ok (q, [], mat)) (seq 1 rank))
      as [[[p' degs] mat']|e] eqn:Erows; cbn [mbind result_bind] in Hok;
      [|by rewrite graded_cols_Raise in Hok].
    apply (graded_rows_Ok_inv _ _ _ _ _ _ _ zm) in Erows.
    pose proof (free_rows_flag degrees j (seq 1 rank) q mat zm) as Hflag.
    destruct (foldl (free_row j) (q, mat, zm) (seq 1 rank))
      as [[p'' mat''] zm''].
    cbn [fst snd] in *. injection Erows as -> -> ->. subst zm''.
    rewrite rows_degs_seq in *. fold (column_degrees degrees rank q) in *.
    rewrite (IH _ _ _ Hok). cbn [fmap list_fmap snd].
    by rewrite <- app_assoc.
Qed.

Lemma graded_matrix_Ok_inv r degrees md res :
  graded_matrix r degrees md = Ok res →
  res = (presentation md, degree_table degrees md,
         all_null (presentation md)).
Proof.
  unfold graded_matrix. intros ->%graded_cols_Ok_inv.
  fold (free_matrix md). rewrite free_matrix_spec. cbn [fst snd app].
  do 2 f_equal. unfold degree_table. apply list_eq. intros j.
  rewrite !list_lookup_fmap, list_lookup_imap.
  by destruct (m md !! j).
Qed.

Lemma graded_walk_Ok_inv r degrees (mods : resolvente K) n a
    res_mats res_degs mats degs :
  graded_walk r degrees mods (seq a n) res_mats res_degs = Ok (mats, degs) →
  mats = res_mats ++ (presentation <$> live_prefix (take n (drop a mods)))
  ∧ degs = res_degs
           ++ (degree_table degrees <$> live_prefix (take n (drop a mods))).
Proof.
  revert a res_mats res_degs.
  induction n as [|n IH]; intros a res_mats res_degs Hok.
  - cbn in *. injection Hok as <- <-. by rewrite !app_nil_r.
  - cbn [seq graded_walk] in Hok. unfold resolvente_at in Hok.
    destruct (drop a mods) as [|o rest] eqn:Hdrop.
    + apply drop_nil_inv in Hdrop.
      rewrite lookup_ge_None_2 in Hok by lia. cbn in *.
      injection Hok as <- <-. by rewrite !app_nil_r.
    + assert (Ha : mods !! a = Some o).
      { rewrite <- (Nat.add_0_r a), <- lookup_drop, Hdrop. done. }
      assert (Hrest : drop (S a) mods = rest).
      { change (S a) with (1 + a)%nat. rewrite Nat.add_comm.
        rewrite <- drop_drop, Hdrop. done. }
      rewrite Ha in Hok.
      destruct o as [md|]; cbn -[all_null presentation graded_matrix] in *.
      2:{ injection Hok as <- <-. by rewrite !app_nil_r. }
      destruct (graded_matrix r degrees md) as [res|e] eqn:Em; [|done].
      apply graded_matrix_Ok_inv in Em as ->.
      cbn [mbind result_bind] in Hok.
      destruct (all_null (presentation md));
        cbn -[presentation degree_table] in *.
      * injection Hok as <- <-. by rewrite !app_nil_r.
      * apply IH in Hok as [-> ->]. rewrite Hrest, <- !app_assoc. done.
Qed.

(** What [to_sage_resolution_graded] returns: the presentation matrices
    and the degree tables of the modules that precede the first stop. *)
Lemma to_sage_resolution_graded_Ok_inv (res : Resolution K) degrees
    res_mats res_degs :
  to_sage_resolution_graded res degrees = Ok (res_mats, res_degs) →
  ∃ mods, select_mods (_resolution res) = Ok mods
    ∧ let live := live_prefix (take (res_length (_resolution res)) mods) in
      res_mats = presentation <$> live
      ∧ res_degs = degree_table degrees <$> live.
Proof.
  unfold to_sage_resolution_graded.
  destruct (select_mods (_resolution res)) as [mods|e]; [|done].
  cbn [mbind result_bind]. intros Hok%graded_walk_Ok_inv.
  exists mods. split; [done|]. by rewrite drop_0 in Hok.
Qed.
End graded_decoder_inversion.

(** ** What the constructor builds *)

Section constructed.
Context {K D : Type} `{Grading D}.
Context (E : Singular.Engine K (sage_object K)).

Lemma run_algorithm_unknown algorithm md log :
  ¬ known_algorithm algorithm →
  run_algorithm E algorithm md log = (Ok None, log).
Proof.
  intros Hn. unfold run_algorithm, known_algorithm in *.
  repeat case_decide; tauto || done.
Qed.

Lemma run_algorithm_known algorithm md log :
  known_algorithm algorithm →
  ∃ r extra, run_algorithm E algorithm md log = (Ok (Some r), log ++ extra)
             ∧ extra ≠ []
             ∧ Forall (λ c, c ∈ resolution_commands) extra.
Proof.
  unfold known_algorithm, run_algorithm, resolution_commands.
  intros [-> | [-> | [-> | ->]]];
    repeat (rewrite decide_False by done); rewrite decide_True by done;
    cbv [call mbind engine_call_bind mret engine_call_ret];
    eexists _, _; rewrite <- ?app_assoc;
    (split; [reflexivity|]); (split; [done|]);
    repeat (constructor;
            [by repeat first [apply list_elem_of_here
                             |apply list_elem_of_further]|]);
    constructor.
Qed.

Lemma run_algorithm_result algorithm md log :
  ∃ extra, run_algorithm E algorithm md log
           = (Ok (resolution_of E algorithm md), log ++ extra).
Proof.
  unfold run_algorithm, resolution_of.
  repeat case_decide;
    cbv [call mbind engine_call_bind mret engine_call_ret];
    rewrite <- ?app_assoc; try (by eexists).
  exists []. by rewrite app_nil_r.
Qed.

Lemma init_Ok_inv ideal degrees shifts name algorithm log self log' :
  __init__ E ideal degrees shifts name algorithm log = (Ok self, log') →
  ∃ R rank r res_mats res_degs res_betti,
    classify ideal = Ok (R, rank)
    ∧ length degrees = N R
    ∧ resolution_of E algorithm (Singular.singular_module E ideal) = Some r
    ∧ to_sage_resolution_graded r degrees = Ok (res_mats, res_degs)
    ∧ compute_res_betti (seed_shifts rank shifts) res_degs = Ok res_betti
    ∧ self = MkGradedFreeResolution
               (MkFreeResolution
                  (InitialMap (CoercionMap rank) :: (MatrixMap <$> res_mats))
                  name (Z.of_nat (length res_mats)))
               (seed_shifts rank shifts) zero_deg degrees res_betti
               multigrade name.
Proof.
  unfold __init__. intros Hinit.
  apply engine_bind_Ok in Hinit as ([R rank] & log1 & [Hc ->]%lift_Ok & Hinit).
  apply engine_bind_Ok in Hinit as ([] & log1 & [Hlen ->]%lift_Ok & Hinit).
  apply engine_bind_Ok in Hinit as (d0 & log1 & [Hd0 ->]%lift_Ok & Hinit).
  apply engine_bind_Ok in Hinit as (md & log1 & [-> ->]%call_Ok & Hinit).
  apply engine_bind_Ok in Hinit as (ro & log1 & Hrun & Hinit).
  apply engine_bind_Ok in Hinit as (r & log2 & [Hr ->]%lift_Ok & Hinit).
  apply engine_bind_Ok in Hinit
    as ([res_mats res_degs] & log2 & [Hdec ->]%lift_Ok & Hinit).
  apply engine_bind_Ok in Hinit as (res_betti & log2 & [Hb ->]%lift_Ok & Hinit).
  apply engine_bind_Ok in Hinit as (base & log2 & [Hbase ->]%lift_Ok & Hinit).
  injection Hinit as <- <-.
  exists R, rank, r, res_mats, res_degs, res_betti.
  split; [done|]. split.
  { by destruct (decide (length degrees ≠ N R)) as [?|?%dec_stable]. }
  split.
  { destruct (run_algorithm_result algorithm
                (Singular.singular_module E ideal) (log ++ ["module"]))
      as [extra Hrun'].
    rewrite Hrun in Hrun'. injection Hrun' as -> _.
    revert Hr. destruct (resolution_of E algorithm _); cbn;
      [by intros [= ->]|done]. }
  split; [done|]. split; [done|].
  unfold Free.__init__ in Hbase. cbn in Hbase. injection Hbase as <-.
  unfold seed_shifts. do 3 f_equal. rewrite length_fmap. lia.
Qed.
End constructed.

(** ** The later class, by the earlier one *)

Lemma py_getitem_fmap {A B} (f : A → B) (l : list A) (i : Z) :
  py_getitem (f <$> l) i = f <$> py_getitem l i.
Proof.
  unfold py_getitem. rewrite length_fmap.
  destruct (decide (i < 0)).
  - destruct (decide (0 ≤ i + Z.of_nat (length l) < Z.of_nat (length l)));
      [|done].
    rewrite list_lookup_fmap. by destruct (l !! _).
  - destruct (decide (0 ≤ i < Z.of_nat (length l))); [|done].
    rewrite list_lookup_fmap. by destruct (l !! _).
Qed.


Section later_class.
Context {K A D : Type} `{Grading D} `{DegreeArgument A D}.
Context (E : Singular.Engine K (sage_object K)).

Lemma omap_matrices (o : map_object K) (res_mats : list (matrix K)) :
  omap (λ o, match o with MatrixMap mat => Some mat | _ => None end)
       (MatrixMap <$> res_mats) = res_mats.
Proof. induction res_mats as [|mat l IH]; [done|]. cbn. by rewrite IH. Qed.

(** The constructor of the later class is the constructor of the
    earlier class on the degrees that the arguments give. *)
Lemma later_init_eq ideal (degrees : list A) shifts name algorithm log :
  GradedMinimal.__init__ E ideal degrees shifts name algorithm log
  = match __init__ E ideal (degree_of <$> degrees) shifts name algorithm log
    with
    | (Ok b, log') => (Ok (later_form ideal b), log')
    | (Raise e, log') => (Raise e, log')
    end.
Proof.
  unfold GradedMinimal.__init__, __init__.
  cbv [mbind engine_call_bind lift call mret engine_call_ret].
  destruct (classify ideal) as [[R rank]|e]; [|done].
  rewrite length_fmap.
  destruct (decide (length degrees ≠ N R)); [done|].
  rewrite py_getitem_fmap. destruct (py_getitem degrees 0) as [d0|e]; [|done].
  cbn [fmap result_fmap].
  destruct (run_algorithm E algorithm _ _) as [[ro|e] log1]; [|done].
  destruct (read_local "r" ro) as [r|e]; [|done].
  destruct (to_sage_resolution_graded r _) as [[res_mats res_degs]|e]; [|done].
  destruct (compute_res_betti _ res_degs) as [res_betti|e]; [|done].
  assert (Hbase : Free.__init__
            (InitialMap (CoercionMap rank) :: (MatrixMap <$> res_mats)) name
          = Ok (MkFreeResolution
                  (InitialMap (CoercionMap rank) :: (MatrixMap <$> res_mats))
                  name (Z.of_nat (length res_mats)))).
  { unfold Free.__init__.
    assert (Hfirst : py_getitem (InitialMap (CoercionMap rank)
                                 :: (MatrixMap <$> res_mats)) 0
                     = Ok (InitialMap (CoercionMap rank)))
      by by apply (py_getitem_nat _ 0%nat).
    rewrite Hfirst. cbn [mbind result_bind length]. rewrite length_fmap.
    do 2 f_equal. lia. }
  rewrite Hbase. unfold later_form.
  cbn [resolution __maps __name __length _base_shifts _degrees _res_betti
       _multigrade _zero_deg _name omap list_omap].
  by rewrite (omap_matrices (InitialMap (CoercionMap rank))).
Qed.


End later_class.

Section shift_chain.
Context {D : Type} `{Grading D}.
Implicit Types (prev grade : list D) (col : list (option D)).
Implicit Types (degs : list (list (option D))).

Lemma betti_loop_in_range prev res_degs res_betti B :
  betti_loop prev res_degs res_betti = Ok B → steps_in_range prev res_degs.
Proof.
  revert prev res_betti.
  induction res_degs as [|degs res_degs IH]; intros prev res_betti Hok; [done|].
  cbn [betti_loop] in Hok.
  destruct (grade_of prev degs) as [grade|e] eqn:Eg; [|done].
  cbn [mbind result_bind] in Hok.
  apply grade_loop_Ok in Eg as [-> Hin]. split; [done|]. by eapply IH.
Qed.

Lemma betti_loop_total prev res_degs res_betti :
  steps_in_range prev res_degs →
  betti_loop prev res_degs res_betti =
  Ok (res_betti ++ shifts_of prev res_degs).
Proof.
  revert prev res_betti.
  induction res_degs as [|degs res_degs IH]; intros prev res_betti Hin.
  - cbn. by rewrite app_nil_r.
  - destruct Hin as [Hin Hrest]. cbn [betti_loop shifts_of].
    unfold grade_of. rewrite grade_loop_total by done.
    cbn [mbind result_bind app]. rewrite IH by done.
    by rewrite <- app_assoc.
Qed.


End shift_chain.

(** ** C1: how the shifts are computed *)

Section shift_theorems.
Context {K D : Type} `{Grading D}.
Context (E : Singular.Engine K (sage_object K)).


(** C10.  A column of a decoded matrix without a defined degree, that
    is, with null entries only, makes the shift calculator append no
    shift and raise no error; the shifts of the step, once computed,
    are fewer than the columns of the matrix: as many as the columns
    with a defined degree. *)
Theorem undefined_column_desync (degrees : list D) (md : sip_sideal K)
    (prev : list D) (j : nat) :
  (j < IDELEMS md)%nat →
  (∀ i, (i < rank md)%nat → entry (presentation md) i j = Some []) →
  let degs := degree_table degrees md in
  (∃ col, degs !! j = Some col ∧ all_None col = true
          ∧ ∀ i grade, scan_column prev col i grade = Ok grade)
  ∧ (∀ grade, grade_of prev degs = Ok grade →
       (length grade < ncols (presentation md))%nat
       ∧ length grade = length (filter has_defined degs))
  ∧ ((rank md ≤ length prev)%nat →
     grade_of prev degs = Ok (omap (new_shift prev) degs)).
Proof.
  intros Hj Hnull degs.
  destruct (lookup_lt_is_Some_2 (m md) j Hj) as [q Hq].
  assert (Hcol : degs !! j = Some (column_degrees degrees (rank md) q)).
  { unfold degs, degree_table. by rewrite list_lookup_fmap, Hq. }
  assert (Hnone : all_None (column_degrees degrees (rank md) q) = true).
  { rewrite all_None_column. apply forallb_seq_true. intros i Hi.
    destruct i as [|i]; [lia|]. apply is_NULL_true.
    specialize (Hnull i ltac:(lia)).
    unfold presentation in Hnull.
    rewrite tabulate_lookup, Hq in Hnull by (done || lia).
    by injection Hnull. }
  split; [|split].
  - eexists. split; [done|]. split; [done|].
    intros i grade. by apply scan_column_all_None.
  - intros grade Hok. apply grade_loop_Ok in Hok as [-> Hrange].
    cbn [app]. rewrite length_omap_new_shift by done.
    split; [|done]. cbn [presentation tabulate ncols].
    replace (IDELEMS md) with (length degs)
      by (unfold degs, degree_table, IDELEMS; by rewrite length_fmap).
    eapply length_filter_lt.
    + by eapply list_elem_of_lookup_2.
    + unfold has_defined. rewrite Hnone. by intros [].
  - intros Hprev. unfold grade_of. rewrite grade_loop_total; [done|].
    apply Forall_forall. intros col Hin r e Hfd.
    apply first_defined_Some in Hfd as [Hr _].
    apply lookup_lt_Some in Hr.
    unfold degs, degree_table in Hin.
    apply list_elem_of_fmap in Hin as (q' & -> & _).
    unfold column_degrees in Hr.
    rewrite length_fmap, length_seq in Hr. lia.
Qed.
End shift_theorems.

(** ** Betti numbers *)

Section betti_facts.
Context {D : Type} `{Grading D}.
Implicit Types (shifts degrees : list D) (betti : gmap D Z).

Lemma standard_eq_of_hashable : eq_of_hashable Z.
Proof. intros d s _ _. apply Z.eqb_eq. Qed.

Lemma vector_eq_of_hashable (n : nat) : eq_of_hashable (sage_vector n).
Proof.
  intros [d fd] [s fs] Hd Hs. cbn in *. subst fd fs.
  rewrite bool_decide_eq_true. split; [by intros ->|by intros [= ->]].
Qed.

Lemma betti_loop_lookup shifts degrees betti s :
  foldl (λ betti s, <[s := Graded.count_shift shifts s]> betti) betti degrees
    !! s =
  if decide (s ∈ degrees) then Some (Graded.count_shift shifts s)
  else betti !! s.
Proof.
  revert betti. induction degrees as [|a degrees IH]; intros betti.
  - cbn. rewrite decide_False; [done|]. by intros ?%elem_of_nil.
  - cbn [foldl]. rewrite IH.
    destruct (decide (s ∈ degrees)) as [Hin|Hnin].
    + rewrite decide_True; [done|]. by apply list_elem_of_further.
    + destruct (decide (s = a)) as [->|Hne].
      * rewrite decide_True by apply list_elem_of_here.
        by rewrite lookup_insert_eq.
      * rewrite decide_False.
        -- by rewrite lookup_insert_ne.
        -- intros [?|?]%elem_of_cons; done.
Qed.

Lemma betti_map_lookup shifts degrees s :
  betti_map shifts degrees !! s =
  if decide (s ∈ degrees) then Some (Graded.count_shift shifts s) else None.
Proof. unfold betti_map. by rewrite betti_loop_lookup, lookup_empty. Qed.

(** The dictionary is filled when every key is hashable, and not
    otherwise. *)
Lemma betti_loop_raise shifts degrees e :
  foldl (λ acc s, b ← acc;
                  Graded.set_item b s (Graded.count_shift shifts s))
        (Raise e) degrees = Raise e.
Proof. induction degrees as [|a degrees IH]; [done|]. cbn [foldl]. apply IH. Qed.

Lemma betti_dict_Ok shifts degrees :
  Forall (λ s, hashable s = true) degrees →
  Graded.betti_dict shifts degrees = Ok (betti_map shifts degrees).
Proof.
  unfold Graded.betti_dict, betti_map. generalize (∅ : gmap D Z).
  intros betti Hall. revert betti.
  induction Hall as [|a degrees Ha _ IH]; intros betti; [done|].
  cbn [foldl mbind result_bind]. unfold Graded.set_item at 2.
  rewrite Ha. apply IH.
Qed.

Lemma betti_dict_unhashable shifts degrees :
  ¬ Forall (λ s, hashable s = true) degrees →
  Graded.betti_dict shifts degrees = Raise unhashable.
Proof.
  unfold Graded.betti_dict. generalize (∅ : gmap D Z).
  induction degrees as [|a degrees IH]; intros betti Hall.
  - by destruct Hall.
  - cbn [foldl mbind result_bind]. unfold Graded.set_item at 2.
    destruct (hashable a) eqn:Ha.
    + apply IH. intros Hrest. apply Hall. by constructor.
    + apply betti_loop_raise.
Qed.

Lemma count_shift_absent shifts s :
  Forall (λ d, deg_eqb d s = false) shifts → Graded.count_shift shifts s = 0.
Proof.
  intros Hs. unfold Graded.count_shift.
  induction Hs as [|a shifts Ha _ IH]; [done|].
  rewrite filter_cons. rewrite decide_False by (by rewrite Ha). apply IH.
Qed.

Lemma count_shift_cons a shifts s :
  Graded.count_shift (a :: shifts) s =
  Graded.count_shift shifts s + (if deg_eqb a s then 1 else 0).
Proof.
  unfold Graded.count_shift. rewrite filter_cons.
  destruct (deg_eqb a s); [rewrite decide_True by done|
                           rewrite decide_False by done]; cbn [length]; lia.
Qed.

Lemma count_shift_nonneg shifts s : 0 ≤ Graded.count_shift shifts s.
Proof. unfold Graded.count_shift. lia. Qed.


Section hashable_shifts.
Context (Heq : eq_of_hashable D).

Lemma count_shift_not_elem shifts s :
  Forall (λ d, hashable d = true) shifts → hashable s = true →
  s ∉ shifts → Graded.count_shift shifts s = 0.
Proof.
  intros Hall Hs Hnin. apply count_shift_absent.
  apply Forall_forall. intros d Hd.
  destruct (deg_eqb d s) eqn:E; [|done].
  apply Heq in E; [|by eapply Forall_forall in Hall|done]. by subst.
Qed.



Lemma count_shift_elem shifts s :
  Forall (λ d, hashable d = true) shifts → s ∈ shifts →
  1 ≤ Graded.count_shift shifts s.
Proof.
  intros Hall Hin. induction shifts as [|a shifts IH]; [by apply elem_of_nil in Hin|].
  apply Forall_cons_1 in Hall as [Ha Hall]. rewrite count_shift_cons.
  apply elem_of_cons in Hin as [->|Hin].
  - rewrite (proj2 (Heq a a Ha Ha) eq_refl).
    pose proof (count_shift_nonneg shifts a). lia.
  - specialize (IH Hall Hin). destruct (deg_eqb a s); lia.
Qed.
End hashable_shifts.
End betti_facts.


Section live_column_facts.
Context {K D : Type} `{Grading D}.
Implicit Types (md : sip_sideal K) (degrees : list D).




End live_column_facts.

Section constructed_spec.
Context {K D : Type} `{Grading D}.
Context (E : Singular.Engine K (sage_object K)).

(** The object that the constructor returns, in terms of the modules of
    the handle that precede the first stop. *)
Lemma init_Ok_spec ideal degrees shifts name algorithm log self log' :
  __init__ E ideal degrees shifts name algorithm log = (Ok self, log') →
  ∃ R rank (r : Resolution K) mods,
    classify ideal = Ok (R, rank)
    ∧ length degrees = N R
    ∧ resolution_of E algorithm (Singular.singular_module E ideal) = Some r
    ∧ select_mods (_resolution r) = Ok mods
    ∧ let live := live_prefix (take (res_length (_resolution r)) mods) in
      let seed := seed_shifts rank shifts in
      steps_in_range seed (degree_table degrees <$> live)
      ∧ self = MkGradedFreeResolution
                 (MkFreeResolution
                    (InitialMap (CoercionMap rank)
                     :: (MatrixMap <$> (presentation <$> live)))
                    name (Z.of_nat (length live)))
                 seed zero_deg degrees
                 (shifts_of seed (degree_table degrees <$> live))
                 multigrade name.
Proof.
  intros (R & rank & r & res_mats & res_degs & res_betti & Hc & Hlen & Hk
          & Hdec & Hb & ->)%init_Ok_inv.
  apply to_sage_resolution_graded_Ok_inv in Hdec as (mods & Hsel & -> & ->).
  exists R, rank, r, mods. repeat (split; [done|]).
  split; [by eapply betti_loop_in_range|].
  apply compute_res_betti_Ok in Hb as ->. by rewrite length_fmap.
Qed.

Lemma py_getitem_Z {A} (l : list A) (i : Z) :
  0 ≤ i < Z.of_nat (length l) →
  ∃ a, l !! Z.to_nat i = Some a ∧ py_getitem l i = Ok a.
Proof.
  intros Hi. destruct (py_getitem_lt l (Z.to_nat i) ltac:(lia)) as (a & Ha & Hg).
  exists a. split; [done|]. by rewrite Z2Nat.id in Hg by lia.
Qed.
End constructed_spec.

(** ** C9 and C4: the Betti numbers of a constructed resolution *)

Section betti_theorems.
Context {K D : Type} `{Grading D}.
Context (E : Singular.Engine K (sage_object K)).



End betti_theorems.



(** ** C3: the K-polynomial *)

Section laurent_facts.


End laurent_facts.

Section K_polynomial_facts.
Context {D : Type} `{Grading D}.












End K_polynomial_facts.

Section constructor_returns.
Context {K D : Type} `{Grading D}.
Context (E : Singular.Engine K (sage_object K)).

Lemma init_Ok_degrees ideal degrees shifts name algorithm log self log' :
  __init__ E ideal degrees shifts name algorithm log = (Ok self, log') →
  ∃ d0, py_getitem degrees 0 = Ok d0.
Proof.
  unfold __init__. intros Hinit.
  apply engine_bind_Ok in Hinit as ([R rank] & log1 & _ & Hinit).
  apply engine_bind_Ok in Hinit as ([] & log2 & _ & Hinit).
  apply engine_bind_Ok in Hinit as (d0 & log3 & [Hd0 _]%lift_Ok & _).
  by exists d0.
Qed.

End constructor_returns.

Section K_polynomial_theorems.
Context {K D : Type} `{Grading D}.
Context (E : Singular.Engine K (sage_object K)).



End K_polynomial_theorems.



(** ** C6: an algorithm that is not known *)

Section unknown_algorithm.
Context {K D : Type} `{Grading D}.
Context (E : Singular.Engine K (sage_object K)).

Lemma py_getitem_raise {A} (l : list A) (i : Z) e :
  py_getitem l i = Raise e → e = IndexError "list index out of range".
Proof.
  unfold py_getitem. repeat (case_decide || case_match); congruence.
Qed.

Lemma unknown_algorithm_init ideal (degrees : list D) shifts name
    algorithm log :
  ¬ known_algorithm algorithm →
  ∃ e log',
    __init__ E ideal degrees shifts name algorithm log = (Raise e, log')
    ∧ (log' = log ∨ log' = log ++ ["module"])
    ∧ Forall (λ c, c ∉ resolution_commands) (drop (length log) log')
    ∧ (e = TypeError "no ideal, module, or matrix"
       ∨ e = ValueError
               "the length of degrees does not match the number of generators"
       ∨ e = IndexError "list index out of range"
       ∨ e = UnboundLocalError "r")
    ∧ (∀ R rank d0,
         classify ideal = Ok (R, rank) → length degrees = N R →
         py_getitem degrees 0 = Ok d0 →
         e = UnboundLocalError "r" ∧ log' = log ++ ["module"]).
Proof.
  intros Hunknown.
  unfold __init__, mbind, engine_call_bind, lift, call.
  destruct (classify ideal) as [[R rank]|e] eqn:Ec.
  2:{ destruct ideal; try discriminate. injection Ec as <-.
      eexists _, log. split; [done|]. split; [by left|].
      split; [by rewrite drop_all|]. split; [by left|]. done. }
  destruct (decide (length degrees ≠ N R)) as [Hne|Heq].
  { eexists _, log. split; [done|]. split; [by left|].
    split; [by rewrite drop_all|]. split; [by right; left|].
    intros R' rank' d0 [= <- <-] Hlen. done. }
  destruct (py_getitem degrees 0) as [d0|e] eqn:Ed.
  2:{ apply py_getitem_raise in Ed as ->.
      eexists _, log. split; [done|]. split; [by left|].
      split; [by rewrite drop_all|]. split; [by right; right; left|]. done. }
  rewrite run_algorithm_unknown by done. cbn [read_local].
  eexists _, (log ++ ["module"]). split; [done|]. split; [by right|].
  split.
  { rewrite drop_app_length. constructor; [|done].
    unfold resolution_commands. intros Hin.
    repeat (apply elem_of_cons in Hin as [?|Hin]; [done|]).
    by apply elem_of_nil in Hin. }
  split; [by right; right; right|]. done.
Qed.

(** C6, as the code has it.  With an algorithm other than the four
    known ones the constructor of either class fails, and the log of the
    calls of the engine shows no command that computes or minimizes a
    resolution: at most the conversion of the input to a module has been
    called.  When the other arguments are in order this conversion has
    been called, and the error is the [UnboundLocalError] of the variable
    [r], which no branch of the chain has assigned. *)
Theorem unknown_algorithm_fails ideal (degrees : list D) shifts name
    algorithm log :
  ¬ known_algorithm algorithm →
  ∃ e log',
    __init__ E ideal degrees shifts name algorithm log = (Raise e, log')
    ∧ (log' = log ∨ log' = log ++ ["module"])
    ∧ Forall (λ c, c ∉ resolution_commands) (drop (length log) log')
    ∧ (e = TypeError "no ideal, module, or matrix"
       ∨ e = ValueError
               "the length of degrees does not match the number of generators"
       ∨ e = IndexError "list index out of range"
       ∨ e = UnboundLocalError "r")
    ∧ (∀ R rank d0,
         classify ideal = Ok (R, rank) → length degrees = N R →
         py_getitem degrees 0 = Ok d0 →
         e = UnboundLocalError "r" ∧ log' = log ++ ["module"])
    ∧ (∀ (A : Type) (DA : DegreeArgument A D) (args : list A),
         degree_of <$> args = degrees →
         GradedMinimal.__init__ E ideal args shifts name algorithm log
         = (Raise e, log')).
Proof.
  intros Hunknown.
  destruct (unknown_algorithm_init ideal degrees shifts name algorithm log
              Hunknown) as (e & log' & Hinit & Hlog & Hcmds & He & Hr).
  exists e, log'. repeat (split; [done|]).
  intros A DA args <-. by rewrite later_init_eq, Hinit.
Qed.
End unknown_algorithm.

(** C6, as stated, fails: with the algorithm [fast], which is not known,
    the constructor has called the engine, for the conversion to a
    module, before it fails, and the error is the [UnboundLocalError] of
    a variable without a value, not an error about the algorithm. *)
Lemma unknown_algorithm_counterexample :
  ¬ known_algorithm "fast"
  ∧ __init__ CubicEngine.engine (Example.ideal 1 (-1)) [1; 1; 1; 1] None "S"
             "fast" []
    = (Raise (UnboundLocalError "r"), ["module"]).
Proof.
  split; [|reflexivity].
  unfold known_algorithm. intros [Hk|[Hk|[Hk|Hk]]]; discriminate Hk.
Qed.


(** ** C5: negative indices and indices past the length *)

Section index_queries.
Context {K D : Type} `{Grading D}.





End index_queries.

(** ** Polynomial arithmetic *)

Section polynomial_facts.
Context {K : Type} `{CoefficientRing K}.
Implicit Types (p q g s : poly K) (t u : term K).

Add Ring coefficient_ring_K : (coefficient_ring (K := K)).

Lemma coefficient_app p q e c :
  coefficient (p ++ q) e c = cadd (coefficient p e c) (coefficient q e c).
Proof.
  unfold coefficient. induction p as [|t p IH]; cbn [app foldr].
  - ring.
  - rewrite IH. case_decide; ring.
Qed.

Lemma coefficient_other_comp p e c :
  Forall (λ t, comp t ≠ c) p → coefficient p e c = c0.
Proof.
  unfold coefficient. induction 1 as [|t p Ht _ IH]; [done|].
  cbn [foldr]. rewrite IH. rewrite decide_False; [done|]. by intros [_ ?].
Qed.

Lemma coefficient_term_mul t q e a :
  Forall (λ u, comp u = 0%nat) q →
  comp t = S a →
  coefficient (term_mul t <$> q) e (S a)
  = coefficient (term_mul (p_SetComp t 0) <$> q) e 0.
Proof.
  intros Hq Ht. unfold coefficient.
  induction Hq as [|u q Hu _ IH]; [done|].
  cbn [fmap list_fmap foldr]. rewrite IH.
  assert (E1 : comp (term_mul t u) = S a) by (cbn; lia).
  assert (E2 : comp (term_mul (p_SetComp t 0) u) = 0%nat) by (cbn; lia).
  rewrite E1, E2.
  change (exps (term_mul (p_SetComp t 0) u)) with (exps (term_mul t u)).
  change (coef (term_mul (p_SetComp t 0) u)) with (coef (term_mul t u)).
  destruct (decide (exps (term_mul t u) = e)) as [He|He].
  - by rewrite !decide_True by done.
  - rewrite !decide_False; [done|by intros [? _]|by intros [? _]].
Qed.

Lemma poly_mul_cons t g q :
  poly_mul (t :: g) q = (term_mul t <$> q) ++ poly_mul g q.
Proof. done. Qed.

(** The coefficients of component [a + 1] of [g * q] are those of the
    product of the part of [g] with this component and of [q]. *)
Lemma coefficient_poly_mul_comp g q e a :
  Forall (λ u, comp u = 0%nat) q →
  coefficient (poly_mul g q) e (S a)
  = coefficient (poly_mul (comp_part (S a) g) q) e 0.
Proof.
  intros Hq. induction g as [|t g IH]; [done|].
  rewrite poly_mul_cons, coefficient_app, IH.
  unfold comp_part. rewrite filter_cons.
  destruct (decide (comp t = S a)) as [Ht|Ht].
  - cbn [fmap list_fmap]. rewrite poly_mul_cons, coefficient_app.
    by rewrite coefficient_term_mul.
  - rewrite coefficient_other_comp; [ring|].
    apply Forall_fmap. eapply Forall_impl; [exact Hq|].
    intros u Hu. cbn in *. lia.
Qed.

Lemma comp_part_comp k s : Forall (λ u, comp u = 0%nat) (comp_part k s).
Proof.
  unfold comp_part. apply Forall_fmap, Forall_forall. by intros u _.
Qed.

Lemma poly_mul_comp_0 p q :
  Forall (λ u, comp u = 0%nat) p → Forall (λ u, comp u = 0%nat) q →
  Forall (λ u, comp u = 0%nat) (poly_mul p q).
Proof.
  intros Hp Hq. induction Hp as [|t p Ht _ IH]; [by constructor|].
  rewrite poly_mul_cons. apply Forall_app. split; [|done].
  apply Forall_fmap. eapply Forall_impl; [exact Hq|].
  intros u Hu. cbn in *. lia.
Qed.

Lemma coefficient_mjoin {A} (h1 h2 : A → poly K) (l : list A) e c c' :
  (∀ k, k ∈ l → coefficient (h1 k) e c = coefficient (h2 k) e c') →
  coefficient (mjoin (h1 <$> l)) e c = coefficient (mjoin (h2 <$> l)) e c'.
Proof.
  induction l as [|k l IH]; intros Hh; [done|].
  change (mjoin (h1 <$> k :: l)) with (h1 k ++ mjoin (h1 <$> l)).
  change (mjoin (h2 <$> k :: l)) with (h2 k ++ mjoin (h2 <$> l)).
  rewrite !coefficient_app.
  rewrite Hh by apply list_elem_of_here.
  rewrite IH; [done|]. intros k' Hk'. by apply Hh, list_elem_of_further.
Qed.

Lemma imap_seq {A B} (f : nat → A → B) (l : list A) (d : A) :
  imap f l = (λ k, f k (default d (l !! k))) <$> seq 0 (length l).
Proof.
  apply list_eq. intros k. rewrite list_lookup_imap, list_lookup_fmap.
  destruct (l !! k) as [x|] eqn:Ek.
  - rewrite lookup_seq_lt by by eapply lookup_lt_Some. cbn. by rewrite Ek.
  - apply lookup_ge_None in Ek. by rewrite lookup_seq_ge by lia.
Qed.

Lemma tabulate_lookup_Some r c (f : nat → nat → poly K) i j p :
  entry (tabulate r c f) i j = Some p →
  (i < r)%nat ∧ (j < c)%nat ∧ p = f i j.
Proof.
  unfold entry, tabulate. cbn [entries].
  rewrite list_lookup_fmap.
  destruct (seq 0 r !! i) as [i'|] eqn:Ei; [|done].
  apply lookup_seq in Ei as [-> Hi]. cbn.
  rewrite list_lookup_fmap.
  destruct (seq 0 c !! j) as [j'|] eqn:Ej; [|done].
  apply lookup_seq in Ej as [-> Hj]. cbn. by intros [= <-].
Qed.

(** The presentation matrices of a module and of its module of
    syzygies have the zero matrix as product. *)
Lemma presentation_product (md md' : sip_sideal K) :
  syzygies_of md md' →
  ∃ P, matrix_mul (presentation md) (presentation md') = Ok P
       ∧ is_zero_matrix P.
Proof.
  intros [Hrank Hsyz]. unfold matrix_mul.
  cbn [presentation tabulate nrows ncols].
  rewrite decide_True by done. eexists. split; [done|].
  intros i j p (Hi & Hj & ->)%tabulate_lookup_Some e c.
  destruct (lookup_lt_is_Some_2 (m md') j Hj) as [s Hs].
  assert (Hzero : is_zero_poly (relation_vector (m md) s)).
  { rewrite Forall_forall in Hsyz. apply Hsyz.
    by eapply list_elem_of_lookup_2. }
  set (h := λ k, poly_mul (matrix_entry (presentation md) i k)
                          (matrix_entry (presentation md') k j)).
  assert (Hh : ∀ k, k ∈ seq 0 (IDELEMS md) →
               h k = poly_mul (comp_part (S i) (default [] (m md !! k)))
                              (comp_part (S k) s)).
  { intros k Hk%elem_of_seq. unfold h, matrix_entry, presentation.
    rewrite !tabulate_lookup by lia. cbn. by rewrite Hs. }
  destruct c as [|c].
  - specialize (Hzero e (S i)). unfold relation_vector in Hzero.
    rewrite (imap_seq _ _ []) in Hzero. rewrite <- Hzero.
    symmetry. apply coefficient_mjoin. intros k Hk.
    rewrite (Hh k Hk). apply coefficient_poly_mul_comp, comp_part_comp.
  - apply coefficient_other_comp.
    apply Forall_forall. intros u Hu.
    apply list_elem_of_join in Hu as (q & Hu & Hq).
    apply list_elem_of_fmap in Hq as (k & -> & Hk).
    rewrite (Hh k Hk) in Hu.
    pose proof (poly_mul_comp_0 _ _ (comp_part_comp (S i) (default [] (m md !! k)))
                  (comp_part_comp (S k) s)) as Hall.
    rewrite Forall_forall in Hall. by rewrite (Hall u Hu).
Qed.
End polynomial_facts.

(** ** C8: the product of consecutive matrices *)

Section chain_property.
Context {K D : Type} `{Grading D} `{CoefficientRing K}.

Lemma coefficient_absent (p : poly K) e c :
  Forall (λ t, ¬ (exps t = e ∧ comp t = c)) p → coefficient p e c = c0.
Proof.
  unfold coefficient. induction 1 as [|t p Ht _ IH]; [done|].
  cbn [foldr]. by rewrite IH, decide_False.
Qed.

(** A list of terms is the zero polynomial when the coefficients of
    its own monomials are zero. *)
Lemma is_zero_poly_check (p : poly K) :
  Forall (λ t, coefficient p (exps t) (comp t) = c0) p → is_zero_poly p.
Proof.
  intros Hp e c.
  destruct (decide (Exists (λ t, exps t = e ∧ comp t = c) p)) as [Hex|Hnex].
  - apply Exists_exists in Hex as (t & Ht & <- & <-).
    rewrite Forall_forall in Hp. by apply Hp.
  - apply coefficient_absent. by apply Forall_Exists_neg.
Qed.

(** C8, as the code has it.  [FreeResolution] stores the maps that it
    is given and returns them unchanged from [matrix], whatever their
    products are.  In a graded resolution that the constructor builds
    from a handle of the engine in which every module before the stop
    holds syzygies of the module before it, the product [matrix(i) *
    matrix(i + 1)] is defined and is the zero matrix for every [i] from
    [1] with [i + 1] up to the length. *)
Theorem chain_property_of_syzygies :
  (∀ (maps : list (map_object K)) name self (i : Z),
     Free.__init__ maps name = Ok self →
     1 ≤ i ≤ __length self →
     Free.matrix self i = py_getitem maps i)
  ∧ (∀ (E : Singular.Engine K (sage_object K)) ideal (degrees : list D)
       shifts name algorithm log self log',
       __init__ E ideal degrees shifts name algorithm log = (Ok self, log') →
       ∃ r mods,
         resolution_of E algorithm (Singular.singular_module E ideal) = Some r
         ∧ select_mods (_resolution r) = Ok mods
         ∧ let live := live_prefix (take (res_length (_resolution r)) mods) in
           ((∀ k md md', live !! k = Some md → live !! S k = Some md' →
                         syzygies_of md md') →
            ∀ i : Z, 1 ≤ i → i + 1 ≤ Graded.__len__ self →
              ∃ A B P,
                Free.matrix (resolution self) i = Ok (MatrixMap A)
                ∧ Free.matrix (resolution self) (i + 1) = Ok (MatrixMap B)
                ∧ matrix_mul A B = Ok P
                ∧ is_zero_matrix P)).
Proof.
  split.
  - intros maps name self i Hinit Hi. unfold Free.__init__ in Hinit.
    destruct (py_getitem maps 0); [|done]. cbn in Hinit.
    injection Hinit as <-. unfold Free.matrix. cbn [__length __maps] in *.
    by index_cases.
  - intros E ideal degrees shifts name algorithm log self log'
      (R & rank & r & mods & _ & _ & Hres & Hsel & _ & ->)%init_Ok_spec.
    exists r, mods. split; [done|]. split; [done|].
    intros live Hsyz i Hi1 Hi2.
    unfold Graded.__len__, Free.__len__ in Hi2.
    cbn [resolution __length] in *. fold live in Hi2.
    destruct (lookup_lt_is_Some_2 live (Z.to_nat (i - 1)) ltac:(lia))
      as [md Hmd].
    destruct (lookup_lt_is_Some_2 live (S (Z.to_nat (i - 1))) ltac:(lia))
      as [md' Hmd'].
    destruct (presentation_product md md' (Hsyz _ _ _ Hmd Hmd'))
      as (P & HP & Hzero).
    exists (presentation md), (presentation md'), P.
    assert (Hmat : ∀ (j : Z) mdj, 1 ≤ j ≤ Z.of_nat (length live) →
              live !! Z.to_nat (j - 1) = Some mdj →
              Free.matrix
                (MkFreeResolution
                   (InitialMap (CoercionMap rank)
                    :: (MatrixMap <$> (presentation <$> live)))
                   name (Z.of_nat (length live))) j
              = Ok (MatrixMap (presentation mdj))).
    { intros j mdj Hj Hmdj. unfold Free.matrix. cbn [__length __maps].
      index_cases. rewrite <- (Z2Nat.id j) by lia. apply py_getitem_nat.
      replace (Z.to_nat j) with (S (Z.to_nat (j - 1))) by lia.
      rewrite lookup_cons. by rewrite !list_lookup_fmap, Hmdj. }
    split; [apply Hmat; [lia|done]|].
    split; [|done].
    apply Hmat; [lia|].
    by replace (Z.to_nat (i + 1 - 1)) with (S (Z.to_nat (i - 1))) by lia.
Qed.
End chain_property.

(** C8, as stated, fails: a [FreeResolution] built from the matrices
    [(1)] and [(1)] returns them, and their product is not zero. *)
Lemma chain_property_counterexample :
  ∃ self P,
    Free.__init__ [InitialMap (CoercionMap 1); MatrixMap unit_matrix;
                   MatrixMap unit_matrix] "F" = Ok self
    ∧ 1 ≤ 1 ∧ 1 + 1 ≤ Free.__len__ self
    ∧ Free.matrix self 1 = Ok (MatrixMap unit_matrix)
    ∧ Free.matrix self (1 + 1) = Ok (MatrixMap unit_matrix)
    ∧ matrix_mul unit_matrix unit_matrix = Ok P
    ∧ ¬ is_zero_matrix P.
Proof.
  eexists _, _. split; [reflexivity|]. split; [done|]. split; [by vm_compute|].
  split; [reflexivity|]. split; [reflexivity|]. split; [reflexivity|].
  intros Hzero.
  specialize (Hzero 0%nat 0%nat _ eq_refl [0; 0; 0; 0]%nat 0%nat).
  by vm_compute in Hzero.
Qed.


Lemma decoder_stops_at_zero_matrix_witness :
  select_mods (_resolution CubicEngine.handle) = Ok cubic_mods
  ∧ to_sage_resolution CubicEngine.handle
    = Ok (presentation <$> [Example.mod1 1 (-1); Example.mod2 1 (-1)]).
Proof.
  split; [reflexivity|].
  exact (proj1 (decoder_stops_at_zero_matrix (D := Z) CubicEngine.handle
                  [1; 1; 1; 1] cubic_mods eq_refl)).
Defined.


Lemma cubic_init :
  __init__ CubicEngine.engine (Example.ideal 1 (-1)) [1; 1; 1; 1] None "S"
           "shreyer" [] = (Ok cubic_resolution, cubic_log).
Proof. vm_compute; reflexivity. Defined.



Lemma unknown_algorithm_fails_witness :
  ¬ known_algorithm "fast"
  ∧ ∃ e log',
      __init__ CubicEngine.engine (Example.ideal 1 (-1)) [1; 1; 1; 1] None "S"
               "fast" [] = (Raise e, log')
      ∧ e = UnboundLocalError "r" ∧ log' = ["module"]
      ∧ GradedMinimal.__init__ CubicEngine.engine (Example.ideal 1 (-1))
          [1; 1; 1; 1] None "S" "fast" [] = (Raise e, log').
Proof.
  assert (Hunknown : ¬ known_algorithm "fast").
  { unfold known_algorithm. intros [Hk|[Hk|[Hk|Hk]]]; discriminate Hk. }
  split; [exact Hunknown|].
  destruct (unknown_algorithm_fails CubicEngine.engine (Example.ideal 1 (-1))
              [1; 1; 1; 1] None "S" "fast" [] Hunknown)
    as (e & log' & Hinit & _ & _ & _ & Hr & Hlater).
  exists e, log'. split; [exact Hinit|].
  destruct (Hr (Ring 4) 1%nat 1 eq_refl eq_refl eq_refl) as [He Hlog].
  split; [exact He|]. split; [exact Hlog|].
  exact (Hlater Z integer_argument [1; 1; 1; 1] eq_refl).
Defined.

Lemma decoder_list_choice_witness :
  let res := MkResolution (SyStrategy (Some cubic_mods)
                                      (Some [Some ZeroColumn.md; None]) 3)
                          (Ring 4) in
  minres (_resolution res) = Some cubic_mods
  ∧ to_sage_resolution res
    = Ok (presentation <$> [Example.mod1 1 (-1); Example.mod2 1 (-1)]).
Proof.
  intros res. split; [reflexivity|].
  exact (proj1 (proj1 (decoder_list_choice (D := Z) res [1; 1; 1; 1])
                  cubic_mods eq_refl)).
Defined.


Lemma undefined_column_desync_witness :
  (1 < IDELEMS ZeroColumn.md)%nat
  ∧ (∀ i, (i < rank ZeroColumn.md)%nat →
          entry (presentation ZeroColumn.md) i 1 = Some [])
  ∧ (∀ grade,
      grade_of [0] (degree_table [1; 1; 1; 1] ZeroColumn.md) = Ok grade →
      (length grade < ncols (presentation ZeroColumn.md))%nat
      ∧ length grade
        = length (filter has_defined (degree_table [1; 1; 1; 1] ZeroColumn.md)))
  ∧ ((rank ZeroColumn.md ≤ length [0])%nat →
     grade_of [0] (degree_table [1; 1; 1; 1] ZeroColumn.md)
     = Ok (omap (new_shift [0]) (degree_table [1; 1; 1; 1] ZeroColumn.md))).
Proof.
  assert (Hj : (1 < IDELEMS ZeroColumn.md)%nat) by (vm_compute; lia).
  assert (Hnull : ∀ i, (i < rank ZeroColumn.md)%nat →
                       entry (presentation ZeroColumn.md) i 1 = Some []).
  { intros [|i] Hi; [reflexivity|]. vm_compute in Hi. lia. }
  split; [exact Hj|]. split; [exact Hnull|].
  exact (proj2 (undefined_column_desync [1; 1; 1; 1] ZeroColumn.md [0] 1
                  Hj Hnull)).
Defined.

Lemma cubic_syzygies :
  syzygies_of (Example.mod1 1 (-1)) (Example.mod2 1 (-1)).
Proof.
  split; [reflexivity|].
  repeat (constructor;
          [apply is_zero_poly_check; vm_compute;
           repeat (constructor; [reflexivity|]); constructor|]).
  constructor.
Defined.

Lemma chain_property_of_syzygies_witness :
  __init__ CubicEngine.engine (Example.ideal 1 (-1)) [1; 1; 1; 1] None "S"
           "shreyer" [] = (Ok cubic_resolution, cubic_log)
  ∧ syzygies_of (Example.mod1 1 (-1)) (Example.mod2 1 (-1))
  ∧ ∃ A B P,
      Free.matrix (resolution cubic_resolution) 1 = Ok (MatrixMap A)
      ∧ Free.matrix (resolution cubic_resolution) (1 + 1) = Ok (MatrixMap B)
      ∧ matrix_mul A B = Ok P
      ∧ is_zero_matrix P.
Proof.
  assert (Hinit : __init__ CubicEngine.engine (Example.ideal 1 (-1))
                    [1; 1; 1; 1] None "S" "shreyer" []
                  = (Ok cubic_resolution, cubic_log))
    by (vm_compute; reflexivity).
  split; [exact Hinit|]. split; [exact cubic_syzygies|].
  destruct (proj2 (chain_property_of_syzygies (K := Z) (D := Z))
              CubicEngine.engine (Example.ideal 1 (-1)) [1; 1; 1; 1] None "S"
              "shreyer" [] cubic_resolution cubic_log Hinit)
    as (r & mods & Hres & Hsel & Hchain).
  injection Hres as <-. injection Hsel as <-.
  apply Hchain.
  - intros [|[|k]] md md' Hmd Hmd'.
    + injection Hmd as <-. injection Hmd' as <-. exact cubic_syzygies.
    + discriminate Hmd'.
    + discriminate Hmd.
  - lia.
  - vm_compute. discriminate.
Defined.

(** * Further properties *)

(** ** The differentials and the modules of [FreeResolution] *)

Section free_resolution_facts.
Context {K : Type}.
Implicit Types (self : FreeResolution K).

Lemma free_init_Ok (maps : list (map_object K)) name self :
  Free.__init__ maps name = Ok self →
  self = MkFreeResolution maps name (Z.of_nat (length maps) - 1) ∧ maps ≠ [].
Proof.
  unfold Free.__init__. destruct maps as [|o maps]; [done|].
  cbn. by intros [= <-].
Qed.

Lemma free_init_cons (o : map_object K) maps name :
  Free.__init__ (o :: maps) name
  = Ok (MkFreeResolution (o :: maps) name (Z.of_nat (length maps))).
Proof.
  unfold Free.__init__.
  assert (Hget : py_getitem (o :: maps) 0 = Ok o) by by apply (py_getitem_nat _ 0%nat).
  rewrite Hget. cbn. do 2 f_equal. lia.
Qed.

(** X1.  In a resolution made of an initial map and the matrices
    [mats], the differential of the step [k + 1] is the map of the matrix
    [mat = mats[k]] from the free module of rank [ncols mat] to the one of
    rank [nrows mat], and [matrix] returns its matrix.  Its codomain is
    the module of index [k]; its domain is the module of index [k + 1]
    exactly when the next matrix, if there is one, has as many rows as
    [mat] has columns. *)
Theorem differential_between_modules (d0 : coercion_map)
    (mats : list (matrix K)) name self
    (k : nat) (mat : matrix K) :
  Free.__init__ (InitialMap d0 :: (MatrixMap <$> mats)) name = Ok self →
  mats !! k = Some mat →
  let i := Z.of_nat (S k) in
  Free.differential self i
  = Ok (MatrixHom (FreeModule (ncols mat)) (FreeModule (nrows mat))
                  (MatrixMap mat))
  ∧ Free.matrix self i = Ok (MatrixMap mat)
  ∧ Free.__getitem__ self (i - 1) = Ok (FreeModule (nrows mat))
  ∧ (Free.__getitem__ self i = Ok (FreeModule (ncols mat))
     ↔ ∀ nxt, mats !! S k = Some nxt → nrows nxt = ncols mat).
Proof.
  rewrite free_init_cons. intros [= <-] Hk i.
  rewrite length_fmap.
  pose proof (lookup_lt_Some _ _ _ Hk) as Hlt.
  assert (Hget : py_getitem (InitialMap d0 :: (MatrixMap <$> mats)) i
                 = Ok (MatrixMap mat)).
  { unfold i. apply py_getitem_nat.
    change ((MatrixMap <$> mats) !! k = Some (MatrixMap mat)).
    by rewrite list_lookup_fmap, Hk. }
  unfold Free.differential, Free.matrix, Free.__getitem__.
  cbn [__length __maps].
  split; [|split; [|split]].
  - rewrite !decide_False by lia. by rewrite Hget.
  - rewrite decide_False, decide_True by lia. done.
  - rewrite !decide_False by lia.
    replace (i - 1 + 1) with i by lia. by rewrite Hget.
  - rewrite !decide_False by lia.
    destruct (decide (i = Z.of_nat (length mats))) as [Heq|Hne].
    + rewrite Hget. cbn. split; [|done].
      intros _ nxt Hnxt. apply lookup_lt_Some in Hnxt. lia.
    + destruct (lookup_lt_is_Some_2 mats (S k) ltac:(lia)) as [nxt Hnxt].
      assert (Hget' : py_getitem (InitialMap d0 :: (MatrixMap <$> mats))
                        (i + 1) = Ok (MatrixMap nxt)).
      { replace (i + 1) with (Z.of_nat (S (S k))) by lia.
        apply py_getitem_nat.
        change ((MatrixMap <$> mats) !! S k = Some (MatrixMap nxt)).
        by rewrite list_lookup_fmap, Hnxt. }
      rewrite Hget'. cbn. split.
      * intros [= Heq] nxt' Hnxt'. congruence.
      * intros Hfit. by rewrite (Hfit nxt Hnxt).
Qed.
Lemma elem_of_range_down (n i : Z) : i ∈ range_down n ↔ 1 ≤ i ≤ n.
Proof.
  unfold range_down. rewrite list_elem_of_fmap. split.
  - intros (k & -> & Hk). apply elem_of_reverse, elem_of_seq in Hk. lia.
  - intros Hi. exists (Z.to_nat i). split; [lia|].
    apply elem_of_reverse, elem_of_seq. lia.
Qed.

Lemma free_matrix_stored self (i : Z) :
  1 ≤ i ≤ __length self → (Z.to_nat i < length (__maps self))%nat →
  ∃ o, __maps self !! Z.to_nat i = Some o ∧ Free.matrix self i = Ok o.
Proof.
  intros Hi Hlt. unfold Free.matrix.
  rewrite decide_False, decide_True by lia.
  destruct (py_getitem_Z (__maps self) i ltac:(lia)) as (o & Ho & Hget).
  by exists o.
Qed.

Lemma chain_loop self (l : list Z) (mats : gmap Z (map_object K)) :
  Forall (λ i, 1 ≤ i ≤ __length self
               ∧ (Z.to_nat i < length (__maps self))%nat) l →
  ∃ mats',
    foldl (λ mats i, mats ← mats; mat ← Free.matrix self i;
                     Ok (<[i := mat]> mats)) (Ok mats) l = Ok mats'
    ∧ ∀ i, mats' !! i = if decide (i ∈ l) then __maps self !! Z.to_nat i
                        else mats !! i.
Proof.
  intros Hl. revert mats.
  induction Hl as [|a l [Ha Hlt] _ IH]; intros mats.
  - exists mats. split; [done|]. intros i.
    rewrite decide_False; [done|]. by intros ?%elem_of_nil.
  - destruct (free_matrix_stored self a Ha Hlt) as (o & Ho & Hm).
    cbn [foldl mbind result_bind]. rewrite Hm. cbn [mbind result_bind].
    destruct (IH (<[a := o]> mats)) as (mats' & Hfold & Hlook).
    exists mats'. split; [done|]. intros i. rewrite Hlook.
    destruct (decide (i ∈ l)) as [Hin|Hnin].
    + rewrite decide_True; [done|]. by apply list_elem_of_further.
    + destruct (decide (i = a)) as [->|Hne].
      * rewrite decide_True by apply list_elem_of_here.
        by rewrite lookup_insert_eq.
      * rewrite decide_False by (intros [?|?]%elem_of_cons; done).
        by rewrite lookup_insert_ne.
Qed.

(** X2.  [chain_complex] of a resolution made of the objects [maps]
    fills the dictionary without an error and hands it to
    [ChainComplex], so that it returns, or raises, what [ChainComplex]
    does on this dictionary; the dictionary has the keys [1], ...,
    [length], with [maps[i]] at the key [i]: the initial map [maps[0]]
    is not in it. *)
Theorem chain_complex_matrices {C}
    (ChainComplex : gmap Z (map_object K) → result C)
    (maps : list (map_object K)) name self :
  Free.__init__ maps name = Ok self →
  ∃ mats, chain_complex ChainComplex self = ChainComplex mats
    ∧ ∀ i, mats !! i = if decide (1 ≤ i ≤ Free.__len__ self)
                       then maps !! Z.to_nat i else None.
Proof.
  intros [-> Hne]%free_init_Ok. unfold chain_complex, Free.__len__.
  cbn [__length __maps].
  set (self := MkFreeResolution maps name (Z.of_nat (length maps) - 1)).
  destruct (chain_loop self (range_down (Z.of_nat (length maps) - 1)) ∅)
    as (mats & Hfold & Hlook).
  { apply Forall_forall. intros i Hi%elem_of_range_down.
    cbn [self __length __maps]. lia. }
  exists mats. rewrite Hfold. split; [done|]. intros i. rewrite Hlook.
  destruct (decide (1 ≤ i ≤ Z.of_nat (length maps) - 1)) as [Hi|Hi].
  - rewrite decide_True by by apply elem_of_range_down. done.
  - rewrite decide_False by by rewrite elem_of_range_down. done.
Qed.
End free_resolution_facts.

(** ** The constructors, in closed form *)

Section constructors.
Context {K D : Type} `{Grading D}.
Context (E : Singular.Engine K (sage_object K)).

Lemma run_algorithm_eq algorithm ideal log :
  run_algorithm E algorithm (Singular.singular_module E ideal)
                (log ++ ["module"])
  = (Ok (resolution_of E algorithm (Singular.singular_module E ideal)),
     log_after E algorithm ideal log).
Proof.
  unfold log_after.
  destruct (run_algorithm_result E algorithm
              (Singular.singular_module E ideal) (log ++ ["module"]))
    as [extra ->]. done.
Qed.

Lemma log_after_spec algorithm ideal log :
  ∃ extra, log_after E algorithm ideal log = log ++ "module" :: extra
    ∧ Forall (λ c, c ∈ resolution_commands) extra
    ∧ (extra = [] ↔ ¬ known_algorithm algorithm).
Proof.
  unfold log_after. set (md := Singular.singular_module E ideal).
  destruct (decide (known_algorithm algorithm)) as [Hk|Hk].
  - destruct (run_algorithm_known E algorithm md (log ++ ["module"]) Hk)
      as (r & extra & -> & Hne & Hall).
    exists extra. cbn. rewrite <- app_assoc. split; [done|].
    split; [done|]. split; [done|tauto].
  - rewrite (run_algorithm_unknown E algorithm md _ Hk).
    exists []. cbn. split; [done|]. split; [constructor|]. tauto.
Qed.

Lemma resolution_of_known algorithm md :
  known_algorithm algorithm ↔ is_Some (resolution_of E algorithm md).
Proof.
  unfold known_algorithm, resolution_of.
  repeat case_decide; split; try (by eexists); try tauto.
  by intros [? ?].
Qed.

Lemma to_sage_resolution_spec (r : Resolution K) mods :
  select_mods (_resolution r) = Ok mods →
  to_sage_resolution r
  = Ok (presentation <$> live_prefix (take (res_length (_resolution r)) mods)).
Proof.
  intros Hsel. unfold to_sage_resolution. rewrite Hsel. cbn [mbind result_bind].
  by rewrite free_walk_spec, drop_0.
Qed.

Lemma to_sage_resolution_of_graded (r : Resolution K) (degrees : list D)
    res_mats res_degs :
  to_sage_resolution_graded r degrees = Ok (res_mats, res_degs) →
  to_sage_resolution r = Ok res_mats.
Proof.
  intros (mods & Hsel & -> & _)%to_sage_resolution_graded_Ok_inv.
  by apply to_sage_resolution_spec.
Qed.

(** The ungraded constructor, once the ideal is classified. *)
Lemma polynomial_init_eq ideal name algorithm log R rank :
  classify ideal = Ok (R, rank) →
  Polynomial.__init__ E ideal name algorithm log
  = (r ← read_local "r"
           (resolution_of E algorithm (Singular.singular_module E ideal));
     res_mats ← to_sage_resolution r;
     Free.__init__ (InitialMap (CoercionMap rank) :: (MatrixMap <$> res_mats))
                   name,
     log_after E algorithm ideal log).
Proof.
  intros Hc. unfold Polynomial.__init__.
  cbv [mbind engine_call_bind lift call]. rewrite Hc.
  rewrite run_algorithm_eq.
  destruct (resolution_of E algorithm _) as [r|]; [|done].
  cbn [read_local result_bind].
  destruct (to_sage_resolution r) as [res_mats|e]; [|done]. done.
Qed.

(** The graded constructor, once the ideal is classified and the
    degrees are checked. *)
Lemma graded_init_eq ideal (degrees : list D) shifts name algorithm log
    R rank d0 :
  classify ideal = Ok (R, rank) →
  length degrees = N R →
  py_getitem degrees 0 = Ok d0 →
  __init__ E ideal degrees shifts name algorithm log
  = (r ← read_local "r"
           (resolution_of E algorithm (Singular.singular_module E ideal));
     '(res_mats, res_degs) ← to_sage_resolution_graded r degrees;
     res_betti ← compute_res_betti (seed_shifts rank shifts) res_degs;
     base ← Free.__init__
              (InitialMap (CoercionMap rank) :: (MatrixMap <$> res_mats)) name;
     Ok (MkGradedFreeResolution base (seed_shifts rank shifts) zero_deg
           degrees res_betti multigrade name),
     log_after E algorithm ideal log).
Proof.
  intros Hc Hlen Hd0. unfold __init__.
  cbv [mbind engine_call_bind lift call]. rewrite Hc.
  rewrite decide_False by (intros ?; done). rewrite Hd0.
  rewrite run_algorithm_eq.
  destruct (resolution_of E algorithm _) as [r|]; [|done].
  cbn [read_local result_bind].
  destruct (to_sage_resolution_graded r degrees) as [[res_mats res_degs]|e];
    [|done].
  cbn [result_bind]. unfold seed_shifts.
  destruct (compute_res_betti _ res_degs) as [res_betti|e]; [|done].
  rewrite free_init_cons. done.
Qed.
Lemma to_sage_resolution_graded_spec (r : Resolution K) (degrees : list D) mods :
  select_mods (_resolution r) = Ok mods →
  (length degrees ≤ N (base_ring r))%nat →
  let live := live_prefix (take (res_length (_resolution r)) mods) in
  to_sage_resolution_graded r degrees
  = Ok (presentation <$> live, degree_table degrees <$> live).
Proof.
  intros Hsel Hlen live. unfold to_sage_resolution_graded.
  rewrite Hsel. cbn [mbind result_bind].
  by rewrite graded_walk_spec, drop_0.
Qed.

Lemma to_sage_resolution_graded_unusable (r : Resolution K) (degrees : list D) e :
  select_mods (_resolution r) = Raise e →
  e = unusable
  ∧ to_sage_resolution_graded r degrees = Raise unusable
  ∧ to_sage_resolution r = Raise unusable.
Proof.
  unfold to_sage_resolution_graded, to_sage_resolution, select_mods.
  destruct (minres (_resolution r)); [done|].
  destruct (fullres (_resolution r)); [done|]. by intros [= <-].
Qed.

Lemma grade_loop_error (prev : list D) degs st e :
  foldl (grade_step prev) st degs = Raise e →
  st = Raise e ∨ e = IndexError "list index out of range".
Proof.
  revert st. induction degs as [|col degs IH]; intros st Hr; [by left|].
  cbn [foldl] in Hr. apply IH in Hr as [Hr|Hr]; [|by right].
  unfold grade_step in Hr. destruct st as [grade|e']; [|by left].
  cbn [mbind result_bind] in Hr. rewrite scan_column_spec in Hr.
  destruct (first_defined col) as [[r0 e0]|]; [|done].
  destruct (py_getitem prev _) as [e'|e'] eqn:Eg; [done|].
  cbn in Hr. injection Hr as <-. right. by eapply py_getitem_raise.
Qed.

Lemma betti_loop_error (prev : list D) res_degs res_betti e :
  betti_loop prev res_degs res_betti = Raise e →
  e = IndexError "list index out of range".
Proof.
  revert prev res_betti.
  induction res_degs as [|degs res_degs IH]; intros prev res_betti Hr; [done|].
  cbn [betti_loop] in Hr.
  destruct (grade_of prev degs) as [grade|e'] eqn:Eg.
  - cbn [mbind result_bind] in Hr. by eapply IH.
  - cbn in Hr. injection Hr as <-.
    by apply grade_loop_error in Eg as [?|?].
Qed.

Lemma py_getitem_0 {A} (l : list A) : is_Ok (py_getitem l 0) ↔ l ≠ [].
Proof.
  destruct l as [|a l].
  - split; [intros [a Ha]; done|done].
  - split; [done|]. intros _. exists a. by apply (py_getitem_nat _ 0%nat).
Qed.

(** X3.  The ungraded constructor fails with a [TypeError] for an
    object that is no ideal, module or matrix, with the
    [UnboundLocalError] of [r] for an algorithm that is not known, and
    with the [ValueError] of the unusable resolution for a handle without
    a list; in every other case it returns the resolution made of the
    initial map and of the presentation matrices of the modules that
    precede the first stop, the length being their number.  The engine
    is called for the conversion to a module and then for the commands of
    the algorithm only. *)
Theorem polynomial_constructor_outcome ideal name algorithm log :
  (∀ e, classify ideal = Raise e →
     Polynomial.__init__ E ideal name algorithm log
     = (Raise (TypeError "no ideal, module, or matrix"), log))
  ∧ (∀ R rank, classify ideal = Ok (R, rank) →
       let md := Singular.singular_module E ideal in
       ∃ extra,
         Forall (λ c, c ∈ resolution_commands) extra
         ∧ (extra = [] ↔ ¬ known_algorithm algorithm)
         ∧ (¬ known_algorithm algorithm →
            Polynomial.__init__ E ideal name algorithm log
            = (Raise (UnboundLocalError "r"), log ++ ["module"]))
         ∧ (∀ r, resolution_of E algorithm md = Some r →
              minres (_resolution r) = None → fullres (_resolution r) = None →
              Polynomial.__init__ E ideal name algorithm log
              = (Raise unusable, log ++ "module" :: extra))
         ∧ (∀ r mods, resolution_of E algorithm md = Some r →
              select_mods (_resolution r) = Ok mods →
              let live :=
                live_prefix (take (res_length (_resolution r)) mods) in
              Polynomial.__init__ E ideal name algorithm log
              = (Ok (MkFreeResolution
                       (InitialMap (CoercionMap rank)
                        :: (MatrixMap <$> (presentation <$> live)))
                       name (Z.of_nat (length live))),
                 log ++ "module" :: extra))).
Proof.
  split.
  - intros e Hc. unfold Polynomial.__init__.
    cbv [mbind engine_call_bind lift]. rewrite Hc.
    destruct ideal; try discriminate. by injection Hc as <-.
  - intros R rank Hc md.
    destruct (log_after_spec algorithm ideal log) as (extra & Hlog & Hall & Hk).
    exists extra. split; [done|]. split; [done|].
    rewrite (polynomial_init_eq _ _ _ _ _ _ Hc), Hlog. fold md.
    split; [|split].
    + intros Hn. apply Hk in Hn as Hnil. subst extra.
      destruct (resolution_of E algorithm md) as [r|] eqn:Er; [|done].
      exfalso. apply Hn. apply (resolution_of_known algorithm md).
      by rewrite Er.
    + intros r -> Hmin Hfull. cbn [read_local mbind result_bind].
      unfold to_sage_resolution, select_mods. by rewrite Hmin, Hfull.
    + intros r mods -> Hsel live. cbn [read_local mbind result_bind].
      rewrite (to_sage_resolution_spec r mods Hsel). cbn [mbind result_bind].
      rewrite free_init_cons. by rewrite !length_fmap.
Qed.

(** X4.  The graded constructor and the ungraded one build the same
    resolution: whenever [GradedFreeResolution_polynomial] returns, so
    does [FreeResolution_polynomial] on the same ideal, name and
    algorithm, with the same maps, the same length and the same calls of
    the engine. *)
Theorem graded_resolution_is_ungraded ideal (degrees : list D) shifts name
    algorithm log self log' :
  __init__ E ideal degrees shifts name algorithm log = (Ok self, log') →
  Polynomial.__init__ E ideal name algorithm log
  = (Ok (resolution self), log').
Proof.
  intros Hinit.
  destruct (init_Ok_degrees _ _ _ _ _ _ _ _ _ Hinit) as [d0 Hd0].
  pose proof (init_Ok_inv _ _ _ _ _ _ _ _ _ Hinit)
    as (R & rank & r & res_mats & res_degs & res_betti
        & Hc & Hlen & Hr & Hdec & Hb & ->).
  rewrite (graded_init_eq _ _ _ _ _ _ _ _ _ Hc Hlen Hd0) in Hinit.
  injection Hinit as _ <-.
  rewrite (polynomial_init_eq _ _ _ _ _ _ Hc), Hr.
  cbn [read_local mbind result_bind resolution].
  rewrite (to_sage_resolution_of_graded _ _ _ _ Hdec).
  cbn [mbind result_bind]. rewrite free_init_cons. by rewrite length_fmap.
Qed.

(** X5.  With a handle of the engine over the ring of the ideal, the
    graded constructor returns exactly when the object is an ideal, a
    module or a matrix, the degrees are as many as the variables and not
    none, the algorithm is known, the handle has a list, and at every
    step the first non-null row of every column is a position of the
    shifts of the step before.  Otherwise it raises one of five
    exceptions. *)
Theorem graded_constructor_outcome ideal (degrees : list D) shifts name
    algorithm log :
  (∀ R rank r, classify ideal = Ok (R, rank) →
     resolution_of E algorithm (Singular.singular_module E ideal) = Some r →
     N (base_ring r) = N R) →
  ∃ res log',
    __init__ E ideal degrees shifts name algorithm log = (res, log')
    ∧ (is_Ok res ↔
       ∃ R rank r mods,
         classify ideal = Ok (R, rank)
         ∧ length degrees = N R ∧ degrees ≠ []
         ∧ resolution_of E algorithm (Singular.singular_module E ideal)
           = Some r
         ∧ select_mods (_resolution r) = Ok mods
         ∧ steps_in_range (seed_shifts rank shifts)
             (degree_table degrees
                <$> live_prefix (take (res_length (_resolution r)) mods)))
    ∧ (∀ e, res = Raise e →
         e = TypeError "no ideal, module, or matrix"
         ∨ e = ValueError
                 "the length of degrees does not match the number of generators"
         ∨ e = IndexError "list index out of range"
         ∨ e = UnboundLocalError "r"
         ∨ e = unusable).
Proof.
  intros Hring.
  destruct (classify ideal) as [[R rank]|e'] eqn:Hc.
  2:{ exists (Raise (TypeError "no ideal, module, or matrix")), log.
      split; [|split].
      - unfold __init__. cbv [mbind engine_call_bind lift]. rewrite Hc.
        destruct ideal; try discriminate. by injection Hc as <-.
      - split; [by intros [? ?]|]. by intros (? & ? & ? & ? & ? & _).
      - intros e [= <-]. by left. }
  destruct (decide (length degrees = N R)) as [Hlen|Hlen].
  2:{ eexists (Raise (ValueError _)), log.
      split; [|split].
      - unfold __init__. cbv [mbind engine_call_bind lift]. rewrite Hc.
        by rewrite decide_True by done.
      - split; [by intros [? ?]|].
        intros (? & ? & ? & ? & [= <- <-] & ? & _). done.
      - intros e [= <-]. by right; left. }
  destruct (py_getitem degrees 0) as [d0|e'] eqn:Hd0.
  2:{ exists (Raise e'), log.
      split; [|split].
      - unfold __init__. cbv [mbind engine_call_bind lift]. rewrite Hc.
        rewrite decide_False by (intros ?; done). by rewrite Hd0.
      - split; [by intros [? ?]|].
        intros (? & ? & ? & ? & _ & _ & [d0 Hd0']%py_getitem_0 & _).
        congruence.
      - intros e [= <-]. right; right; left. by eapply py_getitem_raise. }
  rewrite (graded_init_eq _ _ _ _ _ _ _ _ _ Hc Hlen Hd0).
  set (md := Singular.singular_module E ideal) in *.
  destruct (resolution_of E algorithm md) as [r|] eqn:Hr.
  2:{ eexists _, _. split; [done|]. cbn [read_local mbind result_bind].
      split.
      - split; [by intros [? ?]|]. by intros (? & ? & ? & ? & _ & _ & _ & ? & _).
      - intros e [= <-]. by right; right; right; left. }
  cbn [read_local mbind result_bind].
  specialize (Hring R rank r eq_refl eq_refl).
  destruct (select_mods (_resolution r)) as [mods|e'] eqn:Hsel.
  2:{ destruct (to_sage_resolution_graded_unusable r degrees _ Hsel)
        as (-> & Hdec & _).
      rewrite Hdec. eexists _, _. split; [done|]. cbn [mbind result_bind].
      split.
      - split; [by intros [? ?]|].
        intros (? & ? & ? & ? & _ & _ & _ & [= <-] & Hsel' & _). congruence.
      - intros e [= <-]. by right; right; right; right. }
  rewrite (to_sage_resolution_graded_spec r degrees mods Hsel) by lia.
  cbn [mbind result_bind].
  set (live := live_prefix _).
  destruct (compute_res_betti (seed_shifts rank shifts)
              (degree_table degrees <$> live)) as [res_betti|e'] eqn:Hb.
  - cbn [mbind result_bind]. rewrite free_init_cons. cbn [mbind result_bind].
    eexists _, _. split; [done|]. split; [|done].
    split; [|by eexists]. intros _.
    exists R, rank, r, mods. repeat (split; [done|]).
    split; [apply py_getitem_0; by eexists|]. split; [done|]. split; [done|].
    by eapply betti_loop_in_range.
  - cbn [mbind result_bind]. eexists _, _. split; [done|]. split.
    + split; [by intros [? ?]|].
      intros (? & ? & ? & ? & [= <- <-] & _ & _ & [= <-] & Hsel' & Hin).
      rewrite Hsel in Hsel'. injection Hsel' as <-.
      unfold compute_res_betti in Hb.
      by rewrite (betti_loop_total _ _ _ Hin) in Hb.
    + intros e [= <-]. right; right; left. by eapply betti_loop_error.
Qed.

(** X6.  Shifts that are too short make the graded constructor raise an
    [IndexError]: when, at some step, the first non-null row of a column
    is no position of the shifts of the step before, the lookup
    [prev_grade[i]] fails.  With the empty list of shifts this happens as
    soon as the resolution has a step. *)
Theorem short_shifts_raise ideal (degrees : list D) shifts name algorithm log
    R rk d0 r mods :
  classify ideal = Ok (R, rk) →
  length degrees = N R →
  py_getitem degrees 0 = Ok d0 →
  resolution_of E algorithm (Singular.singular_module E ideal) = Some r →
  N (base_ring r) = N R →
  select_mods (_resolution r) = Ok mods →
  let live := live_prefix (take (res_length (_resolution r)) mods) in
  (¬ steps_in_range (seed_shifts rk shifts) (degree_table degrees <$> live)
   ∨ (shifts = Some [] ∧ live ≠ [])) →
  ∃ log',
    __init__ E ideal degrees shifts name algorithm log
    = (Raise (IndexError "list index out of range"), log').
Proof.
  intros Hc Hlen Hd0 Hr Hring Hsel live Hshort.
  rewrite (graded_init_eq _ _ _ _ _ _ _ _ _ Hc Hlen Hd0), Hr.
  cbn [read_local mbind result_bind].
  rewrite (to_sage_resolution_graded_spec r degrees mods Hsel) by lia.
  cbn [mbind result_bind]. fold live.
  assert (Hnot : ¬ steps_in_range (seed_shifts rk shifts)
                     (degree_table degrees <$> live)).
  { destruct Hshort as [?|[-> Hne]]; [done|].
    pose proof (live_prefix_Forall
                  (take (res_length (_resolution r)) mods)) as Hall.
    fold live in Hall.
    destruct live as [|md live]; [done|].
    apply Forall_cons_1 in Hall as [Hmd _].
    intros [Hin _]. cbn [seed_shifts default] in Hin.
    apply all_null_entry in Hmd as (i & j & p & Hp & Hpne).
    apply tabulate_lookup_Some in Hp as (Hi & Hj & ->).
    destruct (lookup_lt_is_Some_2 (m md) j Hj) as [q Hq].
    rewrite Hq in Hpne. cbn [default from_option id] in Hpne.
    assert (Hcol : degree_table degrees md !! j
                   = Some (column_degrees degrees (rank md) q)).
    { unfold degree_table. by rewrite list_lookup_fmap, Hq. }
    unfold rows_in_range in Hin. rewrite Forall_lookup in Hin.
    specialize (Hin j _ Hcol).
    destruct (first_defined (column_degrees degrees (rank md) q))
      as [[r0 e0]|] eqn:Efd.
    - specialize (Hin r0 e0 eq_refl). cbn in Hin. lia.
    - apply first_defined_None in Efd.
      rewrite all_None_column in Efd.
      rewrite forallb_seq_true in Efd.
      specialize (Efd (S i) ltac:(lia)). apply is_NULL_true in Efd. done. }
  destruct (compute_res_betti (seed_shifts rk shifts)
              (degree_table degrees <$> live)) as [res_betti|e'] eqn:Hb.
  - exfalso. apply Hnot. by eapply betti_loop_in_range.
  - cbn [mbind result_bind]. apply betti_loop_error in Hb as ->.
    by eexists.
Qed.
End constructors.

(** ** What the decoders keep of a module *)

Section decoded_matrices.
Context {K D : Type} `{Grading D}.

Lemma filter_split_perm {A} (P Q R : A → Prop)
    `{∀ x, Decision (P x)} `{∀ x, Decision (Q x)} `{∀ x, Decision (R x)}
    (l : list A) :
  (∀ x, R x ↔ P x ∨ Q x) → (∀ x, P x → Q x → False) →
  filter R l ≡ₚ filter P l ++ filter Q l.
Proof.
  intros HR HPQ. induction l as [|a l IH]; [done|].
  rewrite !filter_cons.
  destruct (decide (P a)) as [HP|HP], (decide (Q a)) as [HQ|HQ];
    try (by destruct (HPQ a)).
  - rewrite decide_True by (apply HR; tauto). cbn. by rewrite IH.
  - rewrite decide_True by (apply HR; tauto).
    rewrite IH. apply Permutation_middle.
  - rewrite decide_False by (rewrite HR; tauto). done.
Qed.

Lemma comp_parts_perm (q : poly K) (n : nat) :
  mjoin ((λ i, comp_part (S i) q) <$> seq 0 n)
  ≡ₚ (λ t, p_SetComp t 0) <$> filter (λ t, 1 ≤ comp t ≤ n)%nat q.
Proof.
  induction n as [|n IH].
  - cbn. induction q as [|t q IHq]; [done|].
    by rewrite filter_cons, decide_False by lia.
  - rewrite seq_S, fmap_app, join_app, IH. cbn [fmap list_fmap mjoin list_join].
    rewrite app_nil_r. unfold comp_part. rewrite <- fmap_app.
    apply fmap_Permutation. symmetry.
    apply filter_split_perm; intros t; lia.
Qed.

Lemma presentation_shape (md : sip_sideal K) :
  nrows (presentation md) = rank md
  ∧ ncols (presentation md) = IDELEMS md
  ∧ length (entries (presentation md)) = rank md
  ∧ Forall (λ row, length row = IDELEMS md) (entries (presentation md)).
Proof.
  unfold presentation, tabulate. cbn [nrows ncols entries].
  split; [done|]. split; [done|]. split.
  - by rewrite length_fmap, length_seq.
  - apply Forall_fmap, Forall_forall. intros i _. cbn.
    by rewrite length_fmap, length_seq.
Qed.

(** X7.  The matrices and the degree data that the graded decoder
    returns fit: as many tables as matrices; every matrix has [nrows]
    rows of [ncols] entries; its table has one column of [nrows] degrees
    for each of the [ncols] columns of the matrix (the table is indexed
    by column, then by row); and the degree of a place is [None] exactly
    when the entry of the matrix there is null. *)
Theorem decoded_degrees_fit_matrices (r : Resolution K) (degrees : list D)
    res_mats res_degs :
  to_sage_resolution_graded r degrees = Ok (res_mats, res_degs) →
  length res_degs = length res_mats
  ∧ ∀ k mat degs,
      res_mats !! k = Some mat → res_degs !! k = Some degs →
      length (entries mat) = nrows mat
      ∧ Forall (λ row, length row = ncols mat) (entries mat)
      ∧ length degs = ncols mat
      ∧ Forall (λ col, length col = nrows mat) degs
      ∧ ∀ i j, (i < nrows mat)%nat → (j < ncols mat)%nat →
          ∃ p col d, entry mat i j = Some p
            ∧ degs !! j = Some col ∧ col !! i = Some d
            ∧ (d = None ↔ p = []).
Proof.
  intros (mods & _ & -> & ->)%to_sage_resolution_graded_Ok_inv.
  split; [by rewrite !length_fmap|].
  intros k mat degs.
  rewrite !list_lookup_fmap.
  destruct (live_prefix _ !! k) as [md|]; [|done].
  cbn. intros [= <-] [= <-].
  destruct (presentation_shape md) as (Hr & Hc & Hlen & Hrows).
  rewrite Hr, Hc. split; [done|]. split; [done|]. split.
  { unfold degree_table. by rewrite length_fmap. }
  split.
  { unfold degree_table. apply Forall_fmap, Forall_forall. intros q _. cbn.
    unfold column_degrees. by rewrite length_fmap, length_seq. }
  intros i j Hi Hj.
  destruct (lookup_lt_is_Some_2 (m md) j Hj) as [q Hq].
  exists (comp_part (S i) q), (column_degrees degrees (rank md) q),
         (entry_degree degrees (comp_part (S i) q)).
  split.
  { unfold presentation. rewrite tabulate_lookup by done. by rewrite Hq. }
  split.
  { unfold degree_table. by rewrite list_lookup_fmap, Hq. }
  split.
  { unfold column_degrees. rewrite list_lookup_fmap.
    by rewrite lookup_seq_lt by done. }
  by destruct (comp_part (S i) q).
Qed.

(** X8.  The decoders neither lose nor repeat a term of a generator
    whose component is a row of the matrix: down the column [j] of a
    returned matrix stand, retagged with component [0], exactly the terms
    of the generator [j] of the module that are tagged with a component
    from [1] to the rank, each once.  The terms with another component
    are dropped. *)
Theorem decoded_column_terms (r : Resolution K) mods res_mats (k : nat) mat :
  select_mods (_resolution r) = Ok mods →
  to_sage_resolution r = Ok res_mats →
  res_mats !! k = Some mat →
  ∃ md, mods !! k = Some (Some md)
    ∧ nrows mat = rank md ∧ ncols mat = IDELEMS md
    ∧ ∀ j q, m md !! j = Some q →
        mjoin ((λ i, default [] (entry mat i j)) <$> seq 0 (nrows mat))
        ≡ₚ (λ t, p_SetComp t 0)
             <$> filter (λ t, 1 ≤ comp t ≤ rank md)%nat q.
Proof.
  intros Hsel Hdec Hk.
  rewrite (to_sage_resolution_spec r mods Hsel) in Hdec.
  injection Hdec as <-.
  set (live := live_prefix _) in *.
  rewrite list_lookup_fmap in Hk.
  destruct (live !! k) as [md|] eqn:Hmd; [|done].
  cbn in Hk. injection Hk as <-.
  exists md. split.
  { pose proof (live_prefix_take
                  (take (res_length (_resolution r)) mods)) as Htake.
    fold live in Htake.
    assert (Hl : (Some <$> live) !! k = Some (Some md))
      by by rewrite list_lookup_fmap, Hmd.
    rewrite Htake in Hl. apply lookup_take_Some in Hl as [Hl _].
    by apply lookup_take_Some in Hl as [Hl _]. }
  destruct (presentation_shape md) as (Hr & Hc & _).
  split; [done|]. split; [done|].
  intros j q Hq. rewrite Hr, <- comp_parts_perm.
  apply lookup_lt_Some in Hq as Hj.
  erewrite (list_fmap_ext _ (λ i, comp_part (S i) q)); [done|].
  intros i x [-> Hi]%lookup_seq. cbn.
  unfold presentation. rewrite tabulate_lookup by done.
  by rewrite Hq.
Qed.
End decoded_matrices.

(** ** Betti numbers and the K-polynomial, once more *)

Section betti_and_K.
Context {K D : Type} `{Grading D}.
Implicit Types (self : GradedFreeResolution_polynomial K D).

(** X9.  When the shifts of a step are hashable, as integers are,
    [betti(i)] without a degree returns a dictionary whose keys are the
    shifts of the step, each with the number of its occurrences, at
    least [1]; and [betti(i, a)] with a hashable degree is the value of
    this dictionary at [a], or [0] when [a] is no key of it.  With a
    shift that is not hashable, a mutable vector, [betti(i)] raises a
    [TypeError], and so does [betti(i, a)] with such a degree [a]. *)
Theorem betti_dictionary_and_number self (i : Z) (l : list D) :
  eq_of_hashable D →
  Graded.shifts self i = Ok l →
  (Forall (λ d, hashable d = true) l →
   ∃ betti,
     Graded.betti self i None = Ok (BettiDict betti)
     ∧ (∀ a, betti !! a = if decide (a ∈ l)
                          then Some (Graded.count_shift l a) else None)
     ∧ (∀ a n, betti !! a = Some n → 1 ≤ n)
     ∧ (∀ a, hashable a = true →
             Graded.betti self i (Some a)
             = Ok (BettiInt (default 0 (betti !! a)))))
  ∧ (¬ Forall (λ d, hashable d = true) l →
     Graded.betti self i None = Raise unhashable)
  ∧ (∀ a, hashable a = false →
          Graded.betti self i (Some a) = Raise unhashable).
Proof.
  intros Heq Hl. unfold Graded.betti. rewrite Hl. cbn [mbind result_bind].
  split; [|split].
  - intros Hall. exists (betti_map l l). rewrite betti_dict_Ok by done.
    split; [done|]. split; [intros a; apply betti_map_lookup|]. split.
    + intros a n. rewrite betti_map_lookup.
      destruct (decide (a ∈ l)) as [Ha|]; [|done].
      intros [= <-]. by apply count_shift_elem.
    + intros a Ha. rewrite betti_dict_Ok by (by repeat constructor).
      cbn [mbind result_bind]. do 2 f_equal. rewrite !betti_map_lookup.
      rewrite decide_True by apply list_elem_of_here.
      destruct (decide (a ∈ l)) as [Hin|Hnin]; [done|].
      cbn. by apply count_shift_not_elem.
  - intros Hall. by rewrite betti_dict_unhashable.
  - intros a Ha. rewrite betti_dict_unhashable; [done|].
    intros [Ha' _]%Forall_cons_1. congruence.
Qed.







End betti_and_K.

Section K_at_one.
Context {K D : Type} `{Grading D}.
Context (E : Singular.Engine K (sage_object K)).

End K_at_one.

(** ** Translating the shifts *)

Section translation.
Context {K D : Type} `{Grading D}.
Context (E : Singular.Engine K (sage_object K)).
Context (deg_add_assoc :
  ∀ a b c : D, deg_add a (deg_add b c) = deg_add (deg_add a b) c).
Context (c : D).
Implicit Types (prev : list D) (degs : list (list (option D))).

Lemma new_shift_translate prev col :
  new_shift (translate c prev) col
  = (λ d, deg_add d c) <$> new_shift prev col.
Proof.
  unfold new_shift, translate.
  destruct (first_defined col) as [[r e]|]; [|done].
  cbn. rewrite list_lookup_fmap. destruct (prev !! r) as [e'|]; [|done].
  cbn. by rewrite deg_add_assoc.
Qed.

Lemma omap_new_shift_translate prev degs :
  omap (new_shift (translate c prev)) degs
  = translate c (omap (new_shift prev) degs).
Proof.
  induction degs as [|col degs IH]; [done|].
  cbn [omap list_omap]. rewrite new_shift_translate, IH.
  by destruct (new_shift prev col).
Qed.

Lemma shifts_of_translate prev (res_degs : list (list (list (option D)))) :
  shifts_of (translate c prev) res_degs
  = translate c <$> shifts_of prev res_degs.
Proof.
  revert prev. induction res_degs as [|degs res_degs IH]; intros prev; [done|].
  cbn [shifts_of]. rewrite omap_new_shift_translate, IH. done.
Qed.

Lemma steps_in_range_translate prev
    (res_degs : list (list (list (option D)))) :
  steps_in_range prev res_degs →
  steps_in_range (translate c prev) res_degs.
Proof.
  revert prev. induction res_degs as [|degs res_degs IH]; intros prev; [done|].
  cbn [steps_in_range]. intros [Hrows Hrest]. split.
  - unfold rows_in_range, translate in *. by rewrite length_fmap.
  - rewrite omap_new_shift_translate. by apply IH.
Qed.

(** X11.  With an associative addition of degrees, adding a degree [c]
    to every given shift adds [c] to every shift of the resolution: the
    constructor, called with the shifts [s + c], returns the same maps
    and calls the engine in the same way, and the shifts of every step
    are those for [s] with [c] added. *)
Theorem translated_shifts ideal (degrees : list D) (s : list D) name
    algorithm log self log' :
  __init__ E ideal degrees (Some s) name algorithm log = (Ok self, log') →
  __init__ E ideal degrees (Some (translate c s)) name algorithm log
  = (Ok (MkGradedFreeResolution
           (resolution self) (translate c s) (_zero_deg self)
           (_degrees self) (translate c <$> _res_betti self)
           (_multigrade self) (_name self)),
     log').
Proof.
  intros Hinit.
  destruct (init_Ok_degrees _ _ _ _ _ _ _ _ _ Hinit) as [d0 Hd0].
  pose proof (init_Ok_inv _ _ _ _ _ _ _ _ _ Hinit)
    as (R & rank & r & res_mats & res_degs & res_betti
        & Hc & Hlen & Hr & Hdec & Hb & ->).
  rewrite (graded_init_eq _ _ _ _ _ _ _ _ _ _ Hc Hlen Hd0) in Hinit.
  injection Hinit as _ <-.
  rewrite (graded_init_eq _ _ _ _ _ _ _ _ _ _ Hc Hlen Hd0), Hr.
  cbn [read_local mbind result_bind]. rewrite Hdec.
  cbn [mbind result_bind seed_shifts default from_option id] in *.
  unfold compute_res_betti in *.
  pose proof (betti_loop_in_range _ _ _ _ Hb) as Hin.
  apply betti_loop_Ok in Hb as ->.
  rewrite (betti_loop_total _ _ _ (steps_in_range_translate _ _ Hin)).
  cbn [mbind result_bind app]. rewrite free_init_cons, shifts_of_translate.
  cbn. by rewrite length_fmap.
Qed.
End translation.

(** ** The earlier [GradedFreeResolution] and the later class *)

Section legacy.
Context {K D : Type} `{Grading D}.
Context (E : Singular.Engine K (sage_object K)).

Lemma legacy_init_eq R gens (degrees : list D) algorithm log d0 :
  length degrees = N R →
  py_getitem degrees 0 = Ok d0 →
  Legacy.__init__ E R gens degrees algorithm log
  = (r ← read_local "r"
           (resolution_of E algorithm
              (Singular.singular_module E (Ideal_generic R gens)));
     '(res_mats, res_degs) ← to_sage_resolution_graded r degrees;
     res_betti ← compute_res_betti [zero_deg] res_degs;
     Ok (MkLegacy zero_deg degrees (Z.of_nat (length res_mats))
                  res_mats res_degs res_betti),
     log_after E algorithm (Ideal_generic R gens) log).
Proof.
  intros Hlen Hd0. unfold Legacy.__init__.
  cbv [mbind engine_call_bind lift call].
  rewrite decide_False by (intros ?; done). rewrite Hd0.
  rewrite run_algorithm_eq.
  destruct (resolution_of E algorithm _) as [r|]; [|done].
  cbn [read_local result_bind].
  destruct (to_sage_resolution_graded r degrees) as [[res_mats res_degs]|e];
    [|done].
  cbn [result_bind].
  destruct (compute_res_betti _ res_degs) as [res_betti|e]; [|done]. done.
Qed.

(** X12.  The earlier class [GradedFreeResolution] is the later one at
    an ideal without given shifts: on the same ring, generators, degrees
    and algorithm both constructors call the engine in the same way and
    either raise the same exception or return resolutions with the same
    length, the same matrices and the same shifts. *)
Theorem legacy_constructor_agrees R gens (degrees : list D) name algorithm
    log :
  ∃ res res' log',
    __init__ E (Ideal_generic R gens) degrees None name algorithm log
    = (res, log')
    ∧ Legacy.__init__ E R gens degrees algorithm log = (res', log')
    ∧ match res, res' with
      | Ok self, Ok old =>
          Legacy.__len__ old = Graded.__len__ self
          ∧ __maps (resolution self)
            = InitialMap (CoercionMap 1) :: (MatrixMap <$> legacy_res_mats old)
          ∧ legacy_res_betti old = _res_betti self
          ∧ [legacy_zero_deg old] = _base_shifts self
          ∧ legacy_degrees old = _degrees self
      | Raise e, Raise e' => e = e'
      | _, _ => False
      end.
Proof.
  destruct (decide (length degrees = N R)) as [Hlen|Hlen].
  2:{ eexists (Raise _), (Raise _), log. split; [|split].
      - unfold __init__. cbv [mbind engine_call_bind lift classify].
        by rewrite decide_True by done.
      - unfold Legacy.__init__. cbv [mbind engine_call_bind lift].
        by rewrite decide_True by done.
      - done. }
  destruct (py_getitem degrees 0) as [d0|e] eqn:Hd0.
  2:{ exists (Raise e), (Raise e), log. split; [|split].
      - unfold __init__. cbv [mbind engine_call_bind lift classify].
        rewrite decide_False by (intros ?; done). by rewrite Hd0.
      - unfold Legacy.__init__. cbv [mbind engine_call_bind lift].
        rewrite decide_False by (intros ?; done). by rewrite Hd0.
      - done. }
  rewrite (graded_init_eq E (Ideal_generic R gens) _ _ _ _ _ R 1%nat d0
             eq_refl Hlen Hd0).
  rewrite (legacy_init_eq _ _ _ _ _ _ Hlen Hd0).
  destruct (resolution_of E algorithm _) as [r|].
  2:{ by eexists (Raise _), (Raise _), _. }
  cbn [read_local mbind result_bind].
  destruct (to_sage_resolution_graded r degrees) as [[res_mats res_degs]|e].
  2:{ by eexists (Raise _), (Raise _), _. }
  cbn [mbind result_bind]. unfold seed_shifts. cbn [default replicate].
  destruct (compute_res_betti [zero_deg] res_degs) as [res_betti|e].
  2:{ by eexists (Raise _), (Raise _), _. }
  cbn [mbind result_bind]. rewrite free_init_cons.
  cbn [mbind result_bind].
  eexists (Ok _), (Ok _), _. split; [done|]. split; [done|].
  unfold Legacy.__len__, Graded.__len__, Free.__len__. cbn.
  by rewrite length_fmap.
Qed.
End legacy.

(** ** The resolutions of [sage/resolutions/free.pyx] *)

Section resolutions.
Context {K : Type}.
Implicit Types (maps : list (matrix K)).

Lemma py_getitem_cons {A} (a : A) (l : list A) (i : Z) :
  1 ≤ i → py_getitem (a :: l) i = py_getitem l (i - 1).
Proof.
  intros Hi. unfold py_getitem. cbn [length].
  destruct (decide (i < 0)); [lia|]. destruct (decide (i - 1 < 0)); [lia|].
  destruct (decide (0 ≤ i - 1 < Z.of_nat (length l))) as [Hr|Hr].
  - destruct (decide (0 ≤ i < Z.of_nat (S (length l)))); [|lia].
    by replace (Z.to_nat i) with (S (Z.to_nat (i - 1))) by lia.
  - by destruct (decide (0 ≤ i < Z.of_nat (S (length l)))); [lia|].
Qed.

Lemma py_getitem_nil {A} (i : Z) :
  py_getitem (@nil A) i = Raise (IndexError "list index out of range").
Proof. unfold py_getitem. cbn. by repeat case_decide; try lia. Qed.

(** X13.  The queries of the later [FreeResolution] at the borders.  With
    at least one matrix, the module of every index from [0], and the
    differential and the matrix of every index from [1], are returned.
    With no matrix, that is, for a resolution of length [0], the module
    of index [0], the differential and the matrix of index [1], and the
    printed form raise an [IndexError], as they read [maps[-1]] or
    [maps[0]] of the empty list.  The differential of index [0] of the
    base class raises a [ValueError]. *)
Theorem resolutions_index_queries maps name :
  let self := Resolutions.__init__ maps name in
  (maps ≠ [] →
   (∀ i, 0 ≤ i → is_Ok (Resolutions.__getitem__ self i))
   ∧ (∀ i, 1 ≤ i → is_Ok (Resolutions.differential self i)
                    ∧ is_Ok (Resolutions.matrix self i)))
  ∧ (maps = [] →
     Resolutions.__getitem__ self 0
     = Raise (IndexError "list index out of range")
     ∧ Resolutions.differential self 1
       = Raise (IndexError "list index out of range")
     ∧ Resolutions.matrix self 1
       = Raise (IndexError "list index out of range")
     ∧ Resolutions.__repr__ self
       = Raise (IndexError "list index out of range")
     ∧ (∀ i, 1 ≤ i → Resolutions.__getitem__ self i = Ok (FreeModule 0))
     ∧ (∀ i, 2 ≤ i →
          Resolutions.matrix self i = Ok (MatrixMap (zero_matrix 0 0))))
  ∧ Resolutions.differential self 0
    = Raise (ValueError "0th differential map undefined").
Proof.
  intros self. split; [|split].
  - intros Hne.
    assert (Hlen : (0 < length maps)%nat) by (destruct maps; [done|cbn; lia]).
    assert (Hget : ∀ i, 0 ≤ i < Z.of_nat (length maps) →
                        ∃ mat, py_getitem maps i = Ok mat).
    { intros i Hi. destruct (py_getitem_Z maps i Hi) as (mat & _ & Hm).
      by exists mat. }
    split.
    + intros i Hi. unfold Resolutions.__getitem__.
      cbn [self Resolutions.__init__ Resolutions.__length Resolutions.__maps].
      destruct (decide (i < 0)); [lia|].
      destruct (decide (i > _)); [by eexists|].
      destruct (decide (i = _)).
      * destruct (Hget (i - 1) ltac:(lia)) as [mat ->]. by eexists.
      * destruct (Hget i ltac:(lia)) as [mat ->]. by eexists.
    + intros i Hi.
      assert (Hd : is_Ok (Resolutions.differential self i)).
      { unfold Resolutions.differential.
        cbn [self Resolutions.__init__ Resolutions.__length
             Resolutions.__maps].
        destruct (decide (i < 0)); [lia|]. destruct (decide (i = 0)); [lia|].
        destruct (decide (i = _)).
        { destruct (Hget (i - 2) ltac:(lia)) as [mat ->]. by eexists. }
        destruct (decide (i > _)); [by eexists|].
        destruct (Hget (i - 1) ltac:(lia)) as [mat ->]. by eexists. }
      split; [done|]. unfold Resolutions.matrix.
      cbn [self Resolutions.__init__ Resolutions.__length Resolutions.__maps].
      destruct (decide (i ≤ 0)); [lia|].
      destruct (decide (i ≤ _)).
      * destruct (Hget (i - 1) ltac:(lia)) as [mat ->]. by eexists.
      * destruct Hd as [d Hd]. rewrite Hd. cbn [mbind result_bind].
        revert Hd. unfold Resolutions.differential.
        cbn [self Resolutions.__init__ Resolutions.__length
             Resolutions.__maps].
        destruct (decide (i < 0)); [lia|]. destruct (decide (i = 0)); [lia|].
        destruct (decide (i = _)).
        { destruct (py_getitem maps (i - 2)); [|done].
          intros [= <-]. by eexists. }
        destruct (decide (i > _)); [|lia]. intros [= <-]. by eexists.
  - intros ->. subst self. unfold Resolutions.__init__. cbn [length].
    unfold Resolutions.__getitem__, Resolutions.differential,
      Resolutions.matrix, Resolutions.__repr__, repr_with,
      Resolutions._repr_module.
    cbn [Resolutions.__length Resolutions.__maps].
    split; [done|]. split; [done|]. split; [done|]. split; [done|]. split.
    + intros i Hi. by repeat case_decide; try lia.
    + intros i Hi. destruct (decide (i ≤ 0)); [lia|].
      destruct (decide (i ≤ Z.of_nat 0)); [lia|].
      unfold Resolutions.differential.
      cbn [Resolutions.__length Resolutions.__maps].
      destruct (decide (i < 0)); [lia|]. destruct (decide (i = 0)); [lia|].
      destruct (decide (i = Z.of_nat 0 + 1)); [lia|].
      destruct (decide (i > Z.of_nat 0 + 1)); [|lia]. done.
  - done.
Qed.

Lemma result_foldl_ext {A B} (f g : result A → B → result A) (l : list B) acc :
  (∀ acc x, x ∈ l → f acc x = g acc x) → foldl f acc l = foldl g acc l.
Proof.
  revert acc. induction l as [|x l IH]; intros acc Hfg; [done|].
  cbn [foldl]. rewrite Hfg by apply list_elem_of_here.
  apply IH. intros acc' y Hy. apply Hfg. by apply list_elem_of_further.
Qed.

(** X14.  The two forms of [FreeResolution] answer alike.  A resolution
    of the later form, made of the matrices [maps], of which there is at
    least one, and a resolution of the earlier form, made of an initial
    map followed by the same matrices, have the same length and return
    the same module at every index, the same differential at every index
    but [0], the same matrix at every index, and hand the same dictionary
    to [ChainComplex], with the same outcome. *)
Theorem resolutions_agree (d0 : coercion_map) maps name
    (b : FreeResolution K) :
  maps ≠ [] →
  Free.__init__ (InitialMap d0 :: (MatrixMap <$> maps)) name = Ok b →
  let a := Resolutions.__init__ maps name in
  Resolutions.__len__ a = Free.__len__ b
  ∧ (∀ i, Resolutions.__getitem__ a i = Free.__getitem__ b i)
  ∧ (∀ i, i ≠ 0 → Resolutions.differential a i = Free.differential b i)
  ∧ (∀ i, Resolutions.matrix a i = Free.matrix b i)
  ∧ (∀ C (ChainComplex : gmap Z (map_object K) → result C),
       Resolutions.chain_complex ChainComplex a
       = chain_complex ChainComplex b).
Proof.
  intros Hne. rewrite free_init_cons. intros [= <-] a.
  assert (Hlen : (0 < length maps)%nat) by (destruct maps; [done|cbn; lia]).
  rewrite length_fmap.
  set (b := MkFreeResolution _ _ _).
  assert (Hget : ∀ i, 1 ≤ i →
            py_getitem (InitialMap d0 :: (MatrixMap <$> maps)) i
            = MatrixMap <$> py_getitem maps (i - 1)).
  { intros i Hi. by rewrite py_getitem_cons, py_getitem_fmap. }
  assert (Hitem : ∀ i, Resolutions.__getitem__ a i = Free.__getitem__ b i).
  { intros i. unfold Resolutions.__getitem__, Free.__getitem__.
    cbn [a b Resolutions.__init__ Resolutions.__length Resolutions.__maps
         __length __maps].
    destruct (decide (i < 0)); [done|].
    destruct (decide (i > _)); [done|].
    destruct (decide (i = _)).
    - rewrite Hget by lia. by destruct (py_getitem maps (i - 1)).
    - rewrite Hget by lia. replace (i + 1 - 1) with i by lia.
      by destruct (py_getitem maps i). }
  assert (Hdiff : ∀ i, i ≠ 0 →
            Resolutions.differential a i = Free.differential b i).
  { intros i Hi. unfold Resolutions.differential, Free.differential.
    cbn [a b Resolutions.__init__ Resolutions.__length Resolutions.__maps
         __length __maps].
    destruct (decide (i < 0)); [done|].
    destruct (decide (i = 0)); [done|].
    destruct (decide (i = _)).
    - rewrite Hget by lia. replace (i - 1 - 1) with (i - 2) by lia.
      by destruct (py_getitem maps (i - 2)).
    - destruct (decide (i > _)); [done|].
      rewrite Hget by lia. by destruct (py_getitem maps (i - 1)). }
  assert (Hmat : ∀ i, Resolutions.matrix a i = Free.matrix b i).
  { intros i. unfold Resolutions.matrix, Free.matrix.
    cbn [a b Resolutions.__init__ Resolutions.__length Resolutions.__maps
         __length __maps].
    destruct (decide (i ≤ 0)); [done|].
    destruct (decide (i ≤ _)).
    - by rewrite Hget by lia.
    - by rewrite Hdiff by lia. }
  split; [done|]. split; [done|]. split; [done|]. split; [done|].
  intros C ChainComplex. unfold Resolutions.chain_complex, chain_complex.
  cbn [a b Resolutions.__init__ Resolutions.__length __length].
  f_equal. apply result_foldl_ext. intros acc i _. by rewrite Hmat.
Qed.
End resolutions.

Section minimal_constructor.
Context {K : Type} (E : Singular.Engine K (sage_object K)).

Lemma minimal_init_eq ideal name algorithm log R rank :
  classify ideal = Ok (R, rank) →
  Resolutions.Minimal.__init__ E ideal name algorithm log
  = (r ← read_local "r"
           (resolution_of E algorithm (Singular.singular_module E ideal));
     res_mats ← to_sage_resolution r;
     Ok (Resolutions.MkFreeResolution res_mats name
           (Z.of_nat (length res_mats)) (Some ideal)),
     log_after E algorithm ideal log).
Proof.
  intros Hc. unfold Resolutions.Minimal.__init__.
  cbv [mbind engine_call_bind lift call]. rewrite Hc.
  rewrite run_algorithm_eq.
  destruct (resolution_of E algorithm _) as [r|]; [|done].
  cbn [read_local result_bind].
  destruct (to_sage_resolution r) as [res_mats|e]; [|done]. done.
Qed.

(** X15.  [MinimalFreeResolution] and [FreeResolution_polynomial] are
    the same constructor in two forms: on the same object, name and
    algorithm they call the engine in the same way and either raise the
    same exception or return resolutions with the same matrices, the same
    length and the same differential of index [0], which the later form
    makes from the ideal that it keeps. *)
Theorem minimal_constructor_agrees ideal name algorithm log :
  ∃ res res' log',
    Polynomial.__init__ E ideal name algorithm log = (res, log')
    ∧ Resolutions.Minimal.__init__ E ideal name algorithm log = (res', log')
    ∧ match res, res' with
      | Ok b, Ok a =>
          (∃ d0, __maps b = InitialMap d0
                            :: (MatrixMap <$> Resolutions.__maps a))
          ∧ Resolutions.__len__ a = Free.__len__ b
          ∧ Resolutions.__name a = __name b
          ∧ Resolutions.differential a 0 = Free.differential b 0
      | Raise e, Raise e' => e = e'
      | _, _ => False
      end.
Proof.
  destruct (classify ideal) as [[R rank]|e] eqn:Hc.
  2:{ exists (Raise e), (Raise e), log. split; [|split; [|done]].
      - unfold Polynomial.__init__. cbv [mbind engine_call_bind lift].
        by rewrite Hc.
      - unfold Resolutions.Minimal.__init__.
        cbv [mbind engine_call_bind lift]. by rewrite Hc. }
  rewrite (polynomial_init_eq _ _ _ _ _ _ _ Hc).
  rewrite (minimal_init_eq _ _ _ _ _ _ Hc).
  destruct (resolution_of E algorithm _) as [r|].
  2:{ by eexists (Raise _), (Raise _), _. }
  cbn [read_local mbind result_bind].
  destruct (to_sage_resolution r) as [res_mats|e].
  2:{ by eexists (Raise _), (Raise _), _. }
  cbn [mbind result_bind]. rewrite free_init_cons.
  eexists (Ok _), (Ok _), _. split; [done|]. split; [done|].
  cbn [__maps Resolutions.__maps]. split; [by eexists|].
  unfold Resolutions.__len__, Free.__len__. cbn. rewrite length_fmap.
  split; [done|]. split; [done|].
  unfold Resolutions.differential, Free.differential,
    Resolutions._initial_differential. cbn.
  destruct ideal; cbn in Hc; try discriminate; by injection Hc as <- <-.
Qed.
End minimal_constructor.

(** ** The two forms of the graded class *)

Section graded_minimal.
Context {K A D : Type} `{Grading D} `{DegreeArgument A D}.
Context (E : Singular.Engine K (sage_object K)).

(** X16.  [GradedMinimalFreeResolution], given the degrees [degrees],
    and [GradedFreeResolution_polynomial], given the degrees that these
    arguments give, the integers themselves or [vector(v)] of each of
    them, call the engine in the same way and either raise the same
    exception or return resolutions with the same matrices, length,
    seed, shifts and degrees, which then answer [shifts] and [betti]
    alike at every index and degree, and [K_polynomial] without names
    alike. *)
Theorem graded_minimal_constructor_agrees LaurentPolynomialRing ideal
    (degrees : list A) shifts name algorithm log :
  ∃ res res' log',
    __init__ E ideal (degree_of <$> degrees) shifts name algorithm log
    = (res, log')
    ∧ GradedMinimal.__init__ E ideal degrees shifts name algorithm log
      = (res', log')
    ∧ match res, res' with
      | Ok b, Ok a =>
          (∃ d0, __maps (resolution b)
                 = InitialMap d0
                   :: (MatrixMap
                         <$> Resolutions.__maps (GradedMinimal.resolution a)))
          ∧ GradedMinimal.__len__ a = Graded.__len__ b
          ∧ GradedMinimal._shifts a = _base_shifts b
          ∧ GradedMinimal._res_shifts a = _res_betti b
          ∧ GradedMinimal._degrees a = degree_of <$> degrees
          ∧ (∀ i, GradedMinimal.shifts a i = Graded.shifts b i)
          ∧ (∀ i x, GradedMinimal.betti a i x = Graded.betti b i x)
          ∧ GradedMinimal.K_polynomial LaurentPolynomialRing a None
            = Graded.K_polynomial b
      | Raise e, Raise e' => e = e'
      | _, _ => False
      end.
Proof.
  rewrite later_init_eq.
  destruct (__init__ E ideal (degree_of <$> degrees) shifts name algorithm log)
    as [[b|e] log1] eqn:Hinit; [|by eexists (Raise _), (Raise _), _].
  exists (Ok b), (Ok (later_form ideal b)), log1.
  split; [done|]. split; [done|].
  apply init_Ok_inv in Hinit
    as (R & rank & r & res_mats & res_degs & res_betti & _ & _ & _ & _ & _
        & ->).
  unfold later_form.
  cbn [resolution __maps __name __length _base_shifts _degrees _res_betti
       _multigrade _zero_deg _name omap list_omap GradedMinimal.resolution
       GradedMinimal._shifts GradedMinimal._res_shifts GradedMinimal._degrees
       Resolutions.__maps].
  rewrite (omap_matrices (InitialMap (CoercionMap rank))).
  split; [by eexists|]. done.
Qed.
End graded_minimal.

(** ** The decoder on the linked lists of Singular *)

Section pointer_facts.
Context {K : Type}.
Import Pointers.
Implicit Types (h : heap K) (p q : option loc) (ns : list (loc * term K)).
Implicit Types (st : loop_state (K := K)).

Lemma is_seg_frame h p ns q l nd :
  l ∉ ns.*1 → is_seg h p ns q → is_seg (<[l := nd]> h) p ns q.
Proof.
  revert p. induction ns as [|[l' t] ns IH]; intros p Hl; [done|].
  cbn in Hl. apply not_elem_of_cons in Hl as [Hne Hl].
  intros [-> (n & Hn & Hseg)]. split; [done|]. exists n.
  split; [by rewrite lookup_insert_ne|]. by apply IH.
Qed.

Lemma is_seg_snoc h p ns l t q :
  is_seg h p (ns ++ [(l, t)]) q
  ↔ is_seg h p ns (Some l) ∧ h !! l = Some (Node t q).
Proof.
  revert p. induction ns as [|[l' t'] ns IH]; intros p; cbn.
  - split.
    + intros [-> (n & Hn & <-)]. done.
    + intros [-> Hl]. split; [done|]. by exists q.
  - split.
    + intros [-> (n & Hn & Hseg)]. apply IH in Hseg as [Hseg Hl].
      split; [|done]. split; [done|]. by exists n.
    + intros [[-> (n & Hn & Hseg)] Hl]. split; [done|]. exists n.
      split; [done|]. apply IH. done.
Qed.

Lemma is_seg_app h p ns1 ns2 q :
  is_seg h p (ns1 ++ ns2) q ↔ ∃ mid, is_seg h p ns1 mid ∧ is_seg h mid ns2 q.
Proof.
  revert p. induction ns1 as [|[l t] ns1 IH]; intros p; cbn.
  - split; [intros Hs; by exists p|by intros (mid & -> & Hs)].
  - split.
    + intros [-> (n & Hn & Hseg)]. apply IH in Hseg as (mid & H1 & H2).
      exists mid. split; [|done]. split; [done|]. by exists n.
    + intros (mid & [-> (n & Hn & H1)] & H2). split; [done|]. exists n.
      split; [done|]. apply IH. by exists mid.
Qed.

Lemma last_loc_snoc ns l (t : term K) : last_loc (ns ++ [(l, t)]) = Some l.
Proof. unfold last_loc. by rewrite last_snoc. Qed.

Lemma is_seg_head h p ns q l (t : term K) :
  is_seg h p ((l, t) :: ns) q → p = Some l.
Proof. by intros [-> _]. Qed.

Lemma loop_body_kept i kept taken todo l (t : term K) st :
  comp t ≠ i →
  loop_inv kept taken ((l, t) :: todo) st →
  ∃ st', loop_body i st l = Some st'
    ∧ st_heap st' = st_heap st
    ∧ loop_inv (kept ++ [(l, t)]) taken todo st'.
Proof.
  intros Hne (Hkept & [Hit (n & Hl & Htodo)] & Hprev & Htaken & Hacc).
  unfold loop_body. rewrite Hl. cbn [mbind option_bind node_term node_next].
  rewrite decide_False by done.
  eexists. split; [done|]. split; [done|].
  unfold loop_inv. cbn [st_heap st_p st_p_iter st_previous st_acc st_first].
  split.
  { apply is_seg_snoc. rewrite Hit in Hkept. done. }
  split; [done|]. split; [by rewrite last_loc_snoc|]. done.
Qed.

Lemma is_seg_agree h h' p ns q :
  (∀ x, x ∈ ns.*1 → h' !! x = h !! x) → is_seg h p ns q → is_seg h' p ns q.
Proof.
  revert p. induction ns as [|[x tx] ns IH]; intros p Hsame; [done|].
  intros [-> (nx & Hx & Hseg)]. split; [done|]. exists nx. split.
  - rewrite Hsame; [done|]. apply list_elem_of_here.
  - apply IH; [|done]. intros y Hy. apply Hsame.
    by apply list_elem_of_further.
Qed.

Lemma is_seg_first_loc h p ns q l :
  is_seg h p ns (Some l) → l ∉ ns.*1 → p = Some l → ns = [].
Proof.
  destruct ns as [|[x tx] ns]; [done|].
  intros [-> _] Hl [= ->]. exfalso. apply Hl. apply list_elem_of_here.
Qed.

(** The taken node [l] is put at the end of the list of the taken
    nodes. *)
Lemma link_taken_spec h first taken l (t0 : term K) n :
  is_seg h first taken None →
  NoDup taken.*1 → l ∉ taken.*1 →
  h !! l = Some (Node t0 n) →
  ∃ h2 first',
    link_taken h (last_loc taken) first l = Some (h2, first')
    ∧ is_seg h2 first' taken (Some l)
    ∧ (∀ x, x ∉ taken.*1 → h2 !! x = h !! x).
Proof.
  intros Hseg Hnd Hl Hhl.
  induction taken as [|[a ta] ts _] using rev_ind.
  - exists h, (Some l). done.
  - rewrite last_loc_snoc. apply is_seg_snoc in Hseg as [Hts Ha].
    rewrite fmap_app in Hl, Hnd. cbn in Hl, Hnd.
    apply NoDup_app in Hnd as (_ & Hd & _).
    assert (Ha_ts : a ∉ ts.*1).
    { intros Hin. apply (Hd a Hin). apply list_elem_of_here. }
    unfold link_taken, set_next. rewrite Ha. cbn.
    eexists _, _. split; [done|]. split.
    + apply is_seg_snoc. split; [|by apply lookup_insert_eq].
      apply (is_seg_agree h); [|done].
      intros x Hx. apply lookup_insert_ne. by intros ->.
    + intros x Hx. apply lookup_insert_ne. intros ->. apply Hx.
      rewrite fmap_app. apply elem_of_app. right. apply list_elem_of_here.
Qed.

(** The taken node [l], whose [next] is [n], is taken out of the list of
    the kept nodes, which ran up to it. *)
Lemma unlink_spec h p kept l n :
  is_seg h p kept (Some l) →
  NoDup kept.*1 → l ∉ kept.*1 →
  ∃ h3,
    unlink h (last_loc kept) n = Some h3
    ∧ is_seg h3 (if decide (Some l = p) then n else p) kept n
    ∧ (∀ x, x ∉ kept.*1 → h3 !! x = h !! x).
Proof.
  intros Hseg Hnd Hl.
  induction kept as [|[pr tpr] ks _] using rev_ind.
  - cbn in Hseg. subst p. exists h. rewrite decide_True by done. done.
  - rewrite last_loc_snoc.
    assert (Hp : Some l ≠ p).
    { intros <-. destruct ks as [|[x tx] ks]; cbn in Hseg.
      - destruct Hseg as [[= ->] _]. apply Hl. cbn. apply list_elem_of_here.
      - destruct Hseg as [[= ->] _]. apply Hl. cbn. apply list_elem_of_here. }
    rewrite decide_False by done.
    apply is_seg_snoc in Hseg as [Hks Hpr].
    rewrite fmap_app in Hl, Hnd. cbn in Hl, Hnd.
    apply NoDup_app in Hnd as (_ & Hd & _).
    assert (Hpr_ks : pr ∉ ks.*1).
    { intros Hin. apply (Hd pr Hin). apply list_elem_of_here. }
    unfold unlink, set_next. rewrite Hpr. cbn.
    eexists. split; [done|]. split.
    + apply is_seg_snoc. split; [|by apply lookup_insert_eq].
      apply (is_seg_agree h); [|done].
      intros x Hx. apply lookup_insert_ne. by intros ->.
    + intros x Hx. apply lookup_insert_ne. intros ->. apply Hx.
      rewrite fmap_app. apply elem_of_app. right. apply list_elem_of_here.
Qed.

Lemma loop_body_taken i kept taken todo l (t : term K) st :
  comp t = i →
  NoDup (kept.*1 ++ taken.*1 ++ l :: todo.*1) →
  loop_inv kept taken ((l, t) :: todo) st →
  ∃ st', loop_body i st l = Some st'
    ∧ (∀ x, x ∉ kept.*1 ++ taken.*1 ++ l :: todo.*1 →
            st_heap st' !! x = st_heap st !! x)
    ∧ loop_inv kept (taken ++ [(l, p_SetComp t 0)]) todo st'.
Proof.
  intros Hcomp Hnd (Hkept & [Hit (n & Hl & Htodo)] & Hprev & Htaken & Hacc).
  rewrite Hit in Hkept.
  apply NoDup_app in Hnd as (Hnd_kept & Hkept_other & Hnd).
  apply NoDup_app in Hnd as (Hnd_taken & Htaken_other & Hnd).
  apply NoDup_cons in Hnd as [Hl_todo Hnd_todo].
  assert (Hl_kept : l ∉ kept.*1).
  { intros Hin. apply (Hkept_other l Hin).
    apply elem_of_app. right. apply list_elem_of_here. }
  assert (Hl_taken : l ∉ taken.*1).
  { intros Hin. apply (Htaken_other l Hin). apply list_elem_of_here. }
  assert (Hkept_todo : ∀ x, x ∈ todo.*1 → x ∉ kept.*1).
  { intros x Hin Hin'. apply (Hkept_other x Hin').
    apply elem_of_app. right. by apply list_elem_of_further. }
  assert (Hkept_taken : ∀ x, x ∈ kept.*1 → x ∉ taken.*1).
  { intros x Hin Hin'. apply (Hkept_other x Hin).
    apply elem_of_app. by left. }
  assert (Htaken_todo : ∀ x, x ∈ todo.*1 → x ∉ taken.*1).
  { intros x Hin Hin'. apply (Htaken_other x Hin').
    by apply list_elem_of_further. }
  set (t0 := p_SetComp t 0).
  set (h1 := <[l := Node t0 n]> (st_heap st)).
  assert (Hsame1 : ∀ x, x ≠ l → h1 !! x = st_heap st !! x).
  { intros x Hx. by apply lookup_insert_ne. }
  assert (Hl1 : h1 !! l = Some (Node t0 n)) by apply lookup_insert_eq.
  destruct (link_taken_spec h1 (st_first st) taken l t0 n)
    as (h2 & first' & Hlink & Htaken2 & Hsame2); [|done|done|done|].
  { apply (is_seg_agree (st_heap st)); [|done].
    intros x Hx. apply Hsame1. by intros ->. }
  assert (Hl2 : h2 !! l = Some (Node t0 n)) by by rewrite Hsame2.
  destruct (unlink_spec h2 (st_p st) kept l n)
    as (h3 & Hunlink & Hkept3 & Hsame3); [|done|done|].
  { apply (is_seg_agree (st_heap st)); [|done].
    intros x Hx. rewrite Hsame2 by by apply Hkept_taken.
    apply Hsame1. by intros ->. }
  assert (Hl3 : h3 !! l = Some (Node t0 n)) by by rewrite Hsame3.
  unfold loop_body. rewrite Hl. cbn [mbind option_bind node_term node_next].
  rewrite decide_True by done. fold t0. fold h1.
  rewrite Hacc, Hlink. cbn [mbind option_bind]. unfold pNext. rewrite Hl2.
  cbn [mbind option_bind fmap option_fmap option_map node_next].
  rewrite Hprev, Hunlink. cbn [mbind option_bind]. rewrite Hl3.
  cbn [mbind option_bind fmap option_fmap option_map node_next].
  unfold set_next. rewrite Hl3. cbn [mbind option_bind node_term].
  eexists. split; [done|].
  cbn [st_heap st_p st_p_iter st_previous st_acc st_first].
  split.
  { intros x Hx. rewrite !not_elem_of_app in Hx.
    destruct Hx as (Hk & Ht & Hc). apply not_elem_of_cons in Hc as [Hne _].
    rewrite lookup_insert_ne by done. rewrite Hsame3, Hsame2 by done.
    by apply Hsame1. }
  unfold loop_inv.
  cbn [st_heap st_p st_p_iter st_previous st_acc st_first].
  split.
  { apply (is_seg_agree h3); [|done].
    intros x Hx. apply lookup_insert_ne. by intros ->. }
  split.
  { apply (is_seg_agree (st_heap st)); [|done].
    intros x Hx. rewrite lookup_insert_ne by (by intros ->).
    rewrite Hsame3, Hsame2 by auto. apply Hsame1. by intros ->. }
  split; [done|]. split; [|by rewrite last_loc_snoc].
  apply is_seg_snoc. split; [|by apply lookup_insert_eq].
  apply (is_seg_agree h2); [|done].
  intros x Hx. rewrite lookup_insert_ne by (by intros ->).
  apply Hsame3. intros Hin. by apply (Hkept_taken x Hin).
Qed.

Lemma taken_of_terms i ns : (taken_of i ns).*2 = comp_part i ns.*2.
Proof.
  unfold taken_of, comp_part. induction ns as [|[l t] ns IH]; [done|].
  cbn [fmap list_fmap]. rewrite !filter_cons. cbn [snd].
  destruct (decide (comp t = i)); cbn; by rewrite IH.
Qed.

Lemma kept_of_terms i ns :
  (kept_of i ns).*2 = filter (λ t, comp t ≠ i) ns.*2.
Proof.
  unfold kept_of. induction ns as [|[l t] ns IH]; [done|].
  cbn [fmap list_fmap]. rewrite !filter_cons. cbn [snd].
  destruct (decide (comp t ≠ i)); cbn; by rewrite IH.
Qed.

Lemma taken_of_locs i ns x : x ∈ (taken_of i ns).*1 → x ∈ ns.*1.
Proof.
  unfold taken_of. rewrite <- list_fmap_compose.
  intros ([l t] & -> & [_ Hin]%list_elem_of_filter)%list_elem_of_fmap.
  apply list_elem_of_fmap. by exists (l, t).
Qed.

Lemma kept_of_locs i ns x : x ∈ (kept_of i ns).*1 → x ∈ ns.*1.
Proof.
  intros ([l t] & -> & [_ Hin]%list_elem_of_filter)%list_elem_of_fmap.
  apply list_elem_of_fmap. by exists (l, t).
Qed.

Lemma taken_of_cons i l (t : term K) ns :
  taken_of i ((l, t) :: ns)
  = if decide (comp t = i) then (l, p_SetComp t 0) :: taken_of i ns
    else taken_of i ns.
Proof. unfold taken_of. rewrite filter_cons. cbn. by case_decide. Qed.

Lemma kept_of_cons i l (t : term K) ns :
  kept_of i ((l, t) :: ns)
  = if decide (comp t = i) then kept_of i ns else (l, t) :: kept_of i ns.
Proof.
  unfold kept_of. rewrite filter_cons. cbn.
  destruct (decide (comp t = i)).
  - by rewrite decide_False by tauto.
  - by rewrite decide_True by done.
Qed.

Lemma while_loop_spec i todo kept taken st fuel :
  NoDup (kept.*1 ++ taken.*1 ++ todo.*1) →
  loop_inv kept taken todo st →
  (length todo ≤ fuel)%nat →
  ∃ st', while_loop fuel i st = Some st'
    ∧ loop_inv (kept ++ kept_of i todo) (taken ++ taken_of i todo) [] st'
    ∧ (∀ x, x ∉ kept.*1 ++ taken.*1 ++ todo.*1 →
            st_heap st' !! x = st_heap st !! x).
Proof.
  revert kept taken st fuel.
  induction todo as [|[l t] todo IH]; intros kept taken st fuel Hnd Hinv Hfuel.
  - exists st. destruct Hinv as (Hkept & Hit & Hrest). cbn in Hit.
    split; [destruct fuel; cbn; by rewrite Hit|].
    unfold taken_of, kept_of. cbn. rewrite !app_nil_r.
    split; [|done]. destruct Hrest as (? & ? & ?). by split_and!.
  - pose proof Hinv as (_ & [Hit _] & _).
    destruct fuel as [|fuel]; [cbn in Hfuel; lia|].
    cbn [while_loop]. rewrite Hit.
    rewrite taken_of_cons, kept_of_cons.
    destruct (decide (comp t = i)) as [Hc|Hc].
    + destruct (loop_body_taken i kept taken todo l t st Hc Hnd Hinv)
        as (st1 & -> & Hframe1 & Hinv1).
      cbn [mbind option_bind].
      destruct (IH kept (taken ++ [(l, p_SetComp t 0)]) st1 fuel)
        as (st' & -> & Hinv' & Hframe'); [|done|cbn in Hfuel; lia|].
      { rewrite fmap_app, <- !app_assoc. done. }
      exists st'. split; [done|]. split.
      * by rewrite <- app_assoc in Hinv'.
      * intros x Hx. rewrite Hframe', Hframe1; [done|done|].
        by rewrite fmap_app, <- !app_assoc.
    + destruct (loop_body_kept i kept taken todo l t st Hc Hinv)
        as (st1 & -> & Hheap1 & Hinv1).
      cbn [mbind option_bind].
      destruct (IH (kept ++ [(l, t)]) taken st1 fuel)
        as (st' & -> & Hinv' & Hframe'); [|done|cbn in Hfuel; lia|].
      { rewrite fmap_app, <- !app_assoc. cbn [fmap list_fmap fst app].
        by rewrite Permutation_middle. }
      exists st'. split; [done|]. split.
      * by rewrite <- app_assoc in Hinv'.
      * intros x Hx. rewrite Hframe', Hheap1; [done|].
        rewrite fmap_app, <- !app_assoc. cbn [fmap list_fmap fst app].
        by rewrite Permutation_middle.
Qed.

(** A list without a repeated address has at most as many nodes as the
    memory. *)
Lemma is_seg_length h p ns q :
  is_seg h p ns q → NoDup ns.*1 → (length ns ≤ size h)%nat.
Proof.
  intros Hseg Hnd.
  assert (Hin : ∀ x, x ∈ ns.*1 → x ∈ (map_to_list h).*1).
  { clear Hnd. revert p Hseg.
    induction ns as [|[l t] ns IH]; intros p Hseg x Hx.
    - by apply elem_of_nil in Hx.
    - destruct Hseg as [-> (n & Hl & Hseg)]. cbn in Hx.
      apply elem_of_cons in Hx as [->|Hx]; [|by eapply IH].
      apply list_elem_of_fmap. exists (l, Node t n). split; [done|].
      by apply elem_of_map_to_list. }
  rewrite <- (length_fmap fst ns).
  rewrite <- length_map_to_list, <- (length_fmap fst (map_to_list h)).
  apply submseteq_length. by apply NoDup_submseteq.
Qed.

(** The loop over the nodes of a list, from its invariant. *)
Lemma while_loop_run (i : nat) h p ns :
  is_list h p ns → NoDup ns.*1 →
  ∃ st,
    while_loop (size h) i (LoopState h p p None None None) = Some st
    ∧ is_list (st_heap st) (st_first st) (taken_of i ns)
    ∧ is_list (st_heap st) (st_p st) (kept_of i ns)
    ∧ ((taken_of i ns).*2, (kept_of i ns).*2) = split_comp i ns.*2
    ∧ (∀ x, x ∉ ns.*1 → st_heap st !! x = h !! x).
Proof.
  intros Hlist Hnd.
  destruct (while_loop_spec i ns [] [] (LoopState h p p None None None)
              (size h)) as (st & Hrun & Hinv & Hframe).
  - done.
  - by repeat split.
  - by eapply is_seg_length.
  - exists st. split; [done|].
    destruct Hinv as (Hkept & Hit & _ & Htaken & _). cbn in Hit.
    rewrite Hit in Hkept. cbn [app] in *.
    split; [done|]. split; [done|]. split; [|done].
    by rewrite split_comp_spec, taken_of_terms, kept_of_terms.
Qed.

(** X17.  The loop over the nodes of a generator.  Started at a linked
    list without a repeated address, the loop for the component [i]
    ends, at [p_iter = NULL]; afterwards [first] heads the list of the
    nodes with component [i], in their order and retagged with component
    [0], of which [acc] is the last; [p] heads the list of the other
    nodes, in their order, of which [previous] is the last; and the
    memory is unchanged outside the nodes of the list.  This is what
    [split_comp] computes on the terms. *)
Theorem pointer_loop_splits (i : nat) h p ns :
  is_list h p ns → NoDup ns.*1 →
  ∃ st,
    while_loop (size h) i (LoopState h p p None None None) = Some st
    ∧ st_p_iter st = None
    ∧ is_list (st_heap st) (st_first st) (taken_of i ns)
    ∧ st_acc st = last_loc (taken_of i ns)
    ∧ is_list (st_heap st) (st_p st) (kept_of i ns)
    ∧ st_previous st = last_loc (kept_of i ns)
    ∧ ((taken_of i ns).*2, (kept_of i ns).*2) = split_comp i ns.*2
    ∧ (∀ x, x ∉ ns.*1 → st_heap st !! x = h !! x).
Proof.
  intros Hlist Hnd.
  destruct (while_loop_spec i ns [] [] (LoopState h p p None None None)
              (size h)) as (st & Hrun & Hinv & Hframe).
  - done.
  - by repeat split.
  - by eapply is_seg_length.
  - exists st. split; [done|].
    destruct Hinv as (Hkept & Hit & Hprev & Htaken & Hacc). cbn in Hit.
    rewrite Hit in Hkept. cbn [app] in *.
    split; [done|]. split; [done|]. split; [done|]. split; [done|].
    split; [done|]. split; [|done].
    by rewrite split_comp_spec, taken_of_terms, kept_of_terms.
Qed.

(** *** The matrices in the memory *)

Lemma filter_locs_NoDup (P : loc * term K → Prop) `{∀ x, Decision (P x)} ns :
  NoDup ns.*1 → NoDup (filter P ns).*1.
Proof.
  induction ns as [|[l t] ns IH]; [done|].
  cbn [fmap list_fmap fst]. intros [Hl Hnd]%NoDup_cons.
  rewrite filter_cons. destruct (decide (P (l, t))); [|by apply IH].
  cbn [fmap list_fmap fst]. apply NoDup_cons. split; [|by apply IH].
  intros ([l' t'] & Heq & [_ Hin]%list_elem_of_filter)%list_elem_of_fmap.
  cbn in Heq. subst l'. apply Hl. apply list_elem_of_fmap. by exists (l, t').
Qed.

Lemma kept_of_NoDup i ns : NoDup ns.*1 → NoDup (kept_of i ns).*1.
Proof. apply filter_locs_NoDup. Qed.

Lemma taken_of_NoDup i ns : NoDup ns.*1 → NoDup (taken_of i ns).*1.
Proof.
  intros Hnd. unfold taken_of. rewrite <- list_fmap_compose.
  rewrite (list_fmap_ext _ fst (filter _ ns)) by (by intros ? []).
  by apply filter_locs_NoDup.
Qed.

Lemma taken_kept_disjoint i ns x :
  NoDup ns.*1 → x ∈ (taken_of i ns).*1 → x ∉ (kept_of i ns).*1.
Proof.
  induction ns as [|[l t] ns IH]; intros Hnd.
  - unfold taken_of. cbn. by intros ?%elem_of_nil.
  - cbn [fmap list_fmap fst] in Hnd. apply NoDup_cons in Hnd as [Hl Hnd].
    rewrite taken_of_cons, kept_of_cons.
    destruct (decide (comp t = i)).
    + cbn [fmap list_fmap fst]. intros [->|Hin]%elem_of_cons.
      * intros Hin%kept_of_locs. done.
      * by apply IH.
    + cbn [fmap list_fmap fst]. intros Hin [->|Hin']%elem_of_cons.
      * apply taken_of_locs in Hin. done.
      * by apply (IH Hnd Hin).
Qed.

Lemma poly_at_agree h h' F p (q : poly K) :
  (∀ x, x ∈ F → h' !! x = h !! x) → poly_at h F p q → poly_at h' F p q.
Proof.
  intros Hs (ns & Hl & Hnd & Hq & HF). exists ns. split; [|done].
  apply (is_seg_agree h); [|done]. intros x Hx. by apply Hs, HF.
Qed.

Lemma poly_at_mono h F F' p (q : poly K) :
  (∀ x, x ∈ F → x ∈ F') → poly_at h F p q → poly_at h F' p q.
Proof.
  intros Hs (ns & Hl & Hnd & Hq & HF). exists ns. repeat (split; [done|]).
  intros x Hx. by apply Hs, HF.
Qed.

Lemma matrix_at_agree h h' F pm (M : matrix K) :
  (∀ x, x ∈ F → h' !! x = h !! x) → matrix_at h F pm M → matrix_at h' F pm M.
Proof.
  intros Hs (Hr & Hc & Hent). split; [done|]. split; [done|].
  eapply Forall2_impl; [done|]. intros row rowM Hrow.
  eapply Forall2_impl; [done|]. intros p q. by apply poly_at_agree.
Qed.

Lemma matrix_at_mono h F F' pm (M : matrix K) :
  (∀ x, x ∈ F → x ∈ F') → matrix_at h F pm M → matrix_at h F' pm M.
Proof.
  intros Hs (Hr & Hc & Hent). split; [done|]. split; [done|].
  eapply Forall2_impl; [done|]. intros row rowM Hrow.
  eapply Forall2_impl; [done|]. intros p q. by apply poly_at_mono.
Qed.

Lemma matrix_at_zero h F r c :
  matrix_at h F (zero_pmatrix r c) (zero_matrix (K := K) r c).
Proof.
  split; [done|]. split; [done|]. cbn.
  apply Forall2_replicate, Forall2_replicate. exists [].
  split; [done|]. split; [constructor|]. split; [done|].
  by intros x ?%elem_of_nil.
Qed.

Lemma matrix_at_set h F pm (M : matrix K) (i j : nat) v (f : poly K) :
  matrix_at h F pm M → poly_at h F v f →
  matrix_at h F (set_pentry pm i j v) (set_entry M i j f).
Proof.
  intros (Hr & Hc & Hent) Hv. split; [done|]. split; [done|]. cbn.
  apply Forall2_alter; [done|]. intros row rowM _ _ Hrow.
  by apply Forall2_insert.
Qed.

(** One round of the loop over the rows, in the memory and on the
    terms. *)
Lemma ptr_row_sim j i h p pm zm ns F (M : matrix K) :
  is_list h p ns → NoDup ns.*1 →
  (∀ x, x ∈ F → x ∉ ns.*1) →
  matrix_at h F pm M →
  ∃ h' p' pm',
    ptr_row j (Some (h, p, pm, zm)) i
    = Some (h', p', pm', (free_row j (ns.*2, M, zm) i).2)
    ∧ is_list h' p' (kept_of i ns)
    ∧ (kept_of i ns).*2 = (free_row j (ns.*2, M, zm) i).1.1
    ∧ matrix_at h' (F ++ (taken_of i ns).*1) pm'
                (free_row j (ns.*2, M, zm) i).1.2
    ∧ (∀ x, x ∉ ns.*1 → h' !! x = h !! x).
Proof.
  intros Hlist Hnd HF HM.
  destruct (while_loop_run i h p ns Hlist Hnd)
    as (st & Hrun & Htaken & Hkept & Hsplit & Hframe).
  unfold ptr_row. cbn [mbind option_bind]. rewrite Hrun.
  cbn [mbind option_bind].
  unfold free_row. rewrite <- Hsplit. cbn [fst snd].
  eexists _, _, _. split.
  { do 2 f_equal. destruct zm; [|done].
    destruct (taken_of i ns) as [|[l t] tk] eqn:Etk.
    - cbn in Htaken. unfold is_list in Htaken. cbn in Htaken.
      rewrite Htaken. done.
    - destruct Htaken as [-> _]. done. }
  split; [done|]. split; [done|]. split; [|done].
  apply matrix_at_set.
  - apply (matrix_at_mono _ F); [intros x Hx; apply elem_of_app; by left|].
    apply (matrix_at_agree h); [|done].
    intros x Hx. apply Hframe. by apply HF.
  - exists (taken_of i ns). split; [done|]. split; [by apply taken_of_NoDup|].
    split; [done|]. intros x Hx. apply elem_of_app. by right.
Qed.

Lemma inert_at_agree h h' G rows p :
  (∀ x, x ∈ G → h' !! x = h !! x) → inert_at h G rows p → inert_at h' G rows p.
Proof.
  intros Hs (ns & Hl & Hnd & HG & Hc). exists ns. split; [|done].
  apply (is_seg_agree h); [|done]. intros x Hx. by apply Hs, HG.
Qed.

Lemma inert_at_mono h G G' rows p :
  (∀ x, x ∈ G → x ∈ G') → inert_at h G rows p → inert_at h G' rows p.
Proof.
  intros Hs (ns & Hl & Hnd & HG & Hc). exists ns. repeat (split; [done|]).
  split; [|done]. intros x Hx. by apply Hs, HG.
Qed.

(** The loop over the rows of one generator, in the memory and on the
    terms; the pointer [p] of the generator, which the loop leaves in the
    struct, afterwards heads a list that further loops leave alone. *)
Lemma ptr_rows_sim j (l : list nat) h p pm zm ns F (M : matrix K) :
  is_list h p ns → NoDup ns.*1 →
  (∀ x, x ∈ F → x ∉ ns.*1) →
  matrix_at h F pm M →
  ∃ h' p' pm' F',
    foldl (ptr_row j) (Some (h, p, pm, zm)) l
    = Some (h', p', pm', (foldl (free_row j) (ns.*2, M, zm) l).2)
    ∧ matrix_at h' F' pm' (foldl (free_row j) (ns.*2, M, zm) l).1.2
    ∧ (∀ x, x ∈ F' → x ∈ F ∨ x ∈ ns.*1)
    ∧ (∀ x, x ∉ ns.*1 → h' !! x = h !! x)
    ∧ (O ∉ l →
       ∃ ns', is_list h' p ns' ∧ NoDup ns'.*1
         ∧ (∀ x, x ∈ ns'.*1 → x ∈ ns.*1)
         ∧ Forall (λ lt, (comp lt.2 ∉ l) ∧ (comp lt.2 = O ∨ lt ∈ ns)) ns').
Proof.
  revert h p pm zm ns F M.
  induction l as [|i l IH]; intros h p pm zm ns F M Hlist Hnd HF HM.
  - exists h, p, pm, F. cbn. split; [done|]. split; [done|].
    split; [by left|]. split; [done|]. intros _.
    exists ns. split; [done|]. split; [done|]. split; [done|].
    apply Forall_forall. intros lt Hlt. split; [by intros ?%elem_of_nil|].
    by right.
  - destruct (ptr_row_sim j i h p pm zm ns F M Hlist Hnd HF HM)
      as (h1 & p1 & pm1 & Hrow & Hlist1 & Hterms1 & HM1 & Hframe1).
    cbn [foldl]. rewrite Hrow.
    destruct (free_row j (ns.*2, M, zm) i) as [[pL1 M1] zm1] eqn:Efree.
    cbn [fst snd] in *. subst pL1.
    destruct (IH h1 p1 pm1 zm1 (kept_of i ns) (F ++ (taken_of i ns).*1) M1)
      as (h' & p' & pm' & F' & Hfold & HM' & HF' & Hframe' & Hinert');
      [done|by apply kept_of_NoDup| |done|].
    { intros x [Hx|Hx]%elem_of_app.
      - intros Hin%kept_of_locs. by apply (HF x).
      - by apply taken_kept_disjoint. }
    exists h', p', pm', F'. split; [done|]. split; [done|]. split.
    { intros x Hx. apply HF' in Hx as [[Hx|Hx]%elem_of_app|Hx].
      - by left.
      - right. by eapply taken_of_locs.
      - right. by eapply kept_of_locs. }
    split.
    { intros x Hx. rewrite Hframe'; [by apply Hframe1|].
      intros Hin%kept_of_locs. done. }
    intros H0. apply not_elem_of_cons in H0 as [Hi0 H0].
    destruct ns as [|[l1 t1] ns].
    { (* the empty list *)
      cbn in Hlist. unfold is_list in Hlist. cbn in Hlist. subst p.
      exists []. split; [done|]. split; [constructor|].
      split; [by intros x ?%elem_of_nil|]. constructor. }
    destruct Hlist as [-> Hhead].
    destruct (decide (comp t1 = i)) as [Hc|Hc].
    + (* the first node is taken: it heads the entry of the row [i] *)
      assert (Htk : ∃ tk, taken_of i ((l1, t1) :: ns)
                          = (l1, p_SetComp t1 0) :: tk).
      { rewrite taken_of_cons, decide_True by done. by eexists. }
      destruct Htk as [tk Etk].
      destruct (while_loop_run i h (Some l1) ((l1, t1) :: ns))
        as (st & Hrun & Htaken & _ & _ & _); [by split|done|].
      unfold ptr_row in Hrow. cbn [mbind option_bind] in Hrow.
      rewrite Hrun in Hrow. cbn [mbind option_bind] in Hrow.
      injection Hrow as <- <- <-.
      exists (taken_of i ((l1, t1) :: ns)).
      split.
      { apply (is_seg_agree (st_heap st)).
        - intros x Hx. apply Hframe'. by apply taken_kept_disjoint.
        - rewrite Etk in Htaken |- *. destruct Htaken as [Hf Hrest].
          split; [done|]. done. }
      split; [by apply taken_of_NoDup|].
      split; [intros x Hx; by eapply taken_of_locs|].
      apply Forall_forall. intros [x tx] Hx. cbn [snd].
      unfold taken_of in Hx. apply list_elem_of_fmap in Hx as ([x' tx'] & Heq & _).
      cbn in Heq. injection Heq as -> ->. cbn [comp p_SetComp].
      split; [|by left]. intros [?|?]%elem_of_cons; [lia|done].
    + (* the first node is kept: the pointer still heads the kept list *)
      assert (Hp1 : p1 = Some l1).
      { rewrite kept_of_cons, decide_False in Hlist1 by done.
        by destruct Hlist1 as [-> _]. }
      subst p1. destruct (Hinert' H0) as (ns' & Hl' & Hnd' & Hsub' & Hall').
      exists ns'. split; [done|]. split; [done|].
      split; [intros x Hx; by eapply kept_of_locs, Hsub'|].
      eapply Forall_impl; [done|]. intros [x tx] [Hnl Hor]. cbn [snd] in *.
      assert (Hkept : comp tx = O ∨ (x, tx) ∈ kept_of i ((l1, t1) :: ns))
        by done.
      split.
      * intros [Heq|?]%elem_of_cons; [|done].
        destruct Hkept as [?|[Hne _]%list_elem_of_filter]; [lia|].
        by apply Hne.
      * destruct Hkept as [?|[_ Hin]%list_elem_of_filter]; [by left|by right].
Qed.

Lemma not_elem_of_seq_0 (n : nat) : O ∉ seq 1 n.
Proof. intros Hin%elem_of_seq. lia. Qed.

(** The loop body over one generator. *)
Lemma ptr_col_sim rank j h p pm zm ns F (M : matrix K) :
  is_list h p ns → NoDup ns.*1 →
  (∀ x, x ∈ F → x ∉ ns.*1) →
  matrix_at h F pm M →
  ∃ h' pm' F',
    ptr_col rank (Some (h, pm, zm)) (j, p)
    = Some (h', pm', (free_col rank (M, zm) (j, ns.*2)).2)
    ∧ matrix_at h' F' pm' (free_col rank (M, zm) (j, ns.*2)).1
    ∧ (∀ x, x ∈ F' → x ∈ F ∨ x ∈ ns.*1)
    ∧ (∀ x, x ∉ ns.*1 → h' !! x = h !! x)
    ∧ inert_at h' ns.*1 (seq 1 rank) p.
Proof.
  intros Hlist Hnd HF HM.
  destruct (ptr_rows_sim j (seq 1 rank) h p pm zm ns F M Hlist Hnd HF HM)
    as (h' & p' & pm' & F' & Hfold & HM' & HF' & Hframe & Hinert).
  unfold ptr_col, free_col. cbn [mbind option_bind]. rewrite Hfold.
  cbn [mbind option_bind].
  destruct (foldl (free_row j) (ns.*2, M, zm) (seq 1 rank))
    as [[pL M'] zm'].
  cbn [fst snd] in *. exists h', pm', F'.
  split; [done|]. split; [done|]. split; [done|]. split; [done|].
  destruct (Hinert (not_elem_of_seq_0 rank)) as (ns' & Hl & Hnd' & Hsub & Hall).
  exists ns'. split; [done|]. split; [done|]. split; [done|].
  eapply Forall_impl; [done|]. by intros lt [? _].
Qed.

Lemma mjoin_locs_cons (ns : list (loc * term K)) cols :
  (mjoin (ns :: cols)).*1 = ns.*1 ++ (mjoin cols).*1.
Proof. cbn. by rewrite fmap_app. Qed.

Lemma lists_agree h h' ptrs (cols : list (list (loc * term K))) :
  (∀ x, x ∈ (mjoin cols).*1 → h' !! x = h !! x) →
  Forall2 (is_list h) ptrs cols → Forall2 (is_list h') ptrs cols.
Proof.
  intros Hs Hall. induction Hall as [|p ns ptrs cols Hp _ IH]; [done|].
  rewrite mjoin_locs_cons in Hs. constructor.
  - apply (is_seg_agree h); [|done].
    intros x Hx. apply Hs, elem_of_app. by left.
  - apply IH. intros x Hx. apply Hs, elem_of_app. by right.
Qed.

(** The loop over the generators of a module. *)
Lemma ptr_cols_sim rank (g : nat → nat) ptrs
    (cols : list (list (loc * term K))) h pm zm F (M : matrix K) :
  Forall2 (is_list h) ptrs cols →
  NoDup (mjoin cols).*1 →
  (∀ x, x ∈ F → x ∉ (mjoin cols).*1) →
  matrix_at h F pm M →
  let gens := imap (λ k f, (g k, f)) ((λ ns, ns.*2) <$> cols) in
  ∃ h' pm' F',
    foldl (ptr_col rank) (Some (h, pm, zm)) (imap (λ k p, (g k, p)) ptrs)
    = Some (h', pm', (foldl (free_col rank) (M, zm) gens).2)
    ∧ matrix_at h' F' pm' (foldl (free_col rank) (M, zm) gens).1
    ∧ (∀ x, x ∈ F' → x ∈ F ∨ x ∈ (mjoin cols).*1)
    ∧ (∀ x, x ∉ (mjoin cols).*1 → h' !! x = h !! x)
    ∧ Forall (inert_at h' (mjoin cols).*1 (seq 1 rank)) ptrs.
Proof.
  revert ptrs g h pm zm F M.
  induction cols as [|ns cols IH]; intros ptrs g h pm zm F M Hlists.
  - apply Forall2_nil_inv_r in Hlists as ->.
    intros _ _ HM gens. exists h, pm, F. cbn.
    split; [done|]. split; [done|]. split; [by left|]. done.
  - apply Forall2_cons_inv_r in Hlists as (p & ptrs' & Hp & Hrest & ->).
    rename ptrs' into ptrs.
    intros Hnd HF HM gens.
    rewrite mjoin_locs_cons in Hnd, HF |- *.
    apply NoDup_app in Hnd as (Hnd_ns & Hdisj & Hnd_rest).
    destruct (ptr_col_sim rank (g O) h p pm zm ns F M)
      as (h1 & pm1 & F1 & Hcol & HM1 & HF1 & Hframe1 & Hinert1);
      [done|done| |done|].
    { intros x Hx Hin. apply (HF x Hx). apply elem_of_app. by left. }
    cbn [imap foldl fmap list_fmap] in *. unfold gens.
    cbn [imap foldl fmap list_fmap]. rewrite Hcol.
    destruct (free_col rank (M, zm) (g O, ns.*2)) as [M1 zm1].
    cbn [fst snd] in *.
    destruct (IH ptrs (g ∘ S) h1 pm1 zm1 F1 M1)
      as (h' & pm' & F' & Hfold & HM' & HF' & Hframe' & Hinert').
    { apply (lists_agree h); [|done].
      intros x Hx. apply Hframe1. intros Hin. by apply (Hdisj x Hin). }
    { done. }
    { intros x Hx Hin. apply HF1 in Hx as [Hx|Hx].
      - apply (HF x Hx). apply elem_of_app. by right.
      - by apply (Hdisj x Hx). }
    { done. }
    exists h', pm', F'. split; [done|]. split; [done|]. split.
    { intros x Hx. apply HF' in Hx as [Hx|Hx].
      - apply HF1 in Hx as [Hx|Hx]; [by left|].
        right. apply elem_of_app. by left.
      - right. apply elem_of_app. by right. }
    split.
    { intros x Hx. apply not_elem_of_app in Hx as [Hx1 Hx2].
      rewrite Hframe' by done. by apply Hframe1. }
    constructor.
    + apply (inert_at_mono _ ns.*1);
        [intros x Hx; apply elem_of_app; by left|].
      apply (inert_at_agree h1); [|done].
      intros x Hx. apply Hframe'. by apply Hdisj.
    + eapply Forall_impl; [done|]. intros p'.
      apply inert_at_mono. intros x Hx. apply elem_of_app. by right.
Qed.

(** The matrix of a module. *)
Lemma ptr_matrix_sim h (sm : stored_module (K := K)) :
  module_at h sm → NoDup (module_locs sm) →
  ∃ h' pm,
    ptr_matrix h sm.1 = Some (h', pm, (free_matrix (module_of sm)).2)
    ∧ matrix_at h' (module_locs sm) pm (free_matrix (module_of sm)).1
    ∧ (∀ x, x ∉ module_locs sm → h' !! x = h !! x)
    ∧ Forall (inert_at h' (module_locs sm) (seq 1 (ptr_rank sm.1)))
             (ptr_m sm.1).
Proof.
  destruct sm as [[rk ptrs] cols]. unfold module_at, module_locs.
  cbn [fst snd ptr_m ptr_rank]. intros Hlists Hnd.
  destruct (ptr_cols_sim rk id ptrs cols h
              (zero_pmatrix rk (length ptrs)) true []
              (zero_matrix rk (length ptrs)))
    as (h' & pm & F' & Hfold & HM & HF & Hframe & Hinert);
    [done|done|by intros x ?%elem_of_nil|apply matrix_at_zero|].
  unfold ptr_matrix, free_matrix, module_of, IDELEMS.
  cbn [fst snd ptr_m ptr_rank rank m].
  rewrite length_fmap, <- (Forall2_length _ _ _ Hlists).
  exists h', pm. split; [done|]. split; [|done].
  eapply matrix_at_mono; [|done].
  intros x Hx. by apply HF in Hx as [?%elem_of_nil|?].
Qed.

Lemma mods_locs_cons (o : option (stored_module (K := K))) sms :
  mods_locs (o :: sms) = from_option module_locs [] o ++ mods_locs sms.
Proof. done. Qed.

Lemma modules_agree h h' (sms : list (option (stored_module (K := K)))) :
  (∀ x, x ∈ mods_locs sms → h' !! x = h !! x) →
  Forall (λ o, from_option (module_at h) True o) sms →
  Forall (λ o, from_option (module_at h') True o) sms.
Proof.
  intros Hs Hall. induction Hall as [|o sms Ho _ IH]; [done|].
  rewrite mods_locs_cons in Hs. constructor.
  - destruct o as [sm|]; [|done]. cbn in *.
    apply (lists_agree h); [|done].
    intros x Hx. apply Hs, elem_of_app. by left.
  - apply IH. intros x Hx. apply Hs, elem_of_app. by right.
Qed.

(** The loop over the modules. *)
Lemma ptr_walk_sim n a h (sms : list (option (stored_module (K := K))))
    pmats (Ms : list (matrix K)) F :
  mods_at h (drop a sms) →
  (∀ x, x ∈ F → x ∉ mods_locs (drop a sms)) →
  Forall2 (matrix_at h F) pmats Ms →
  ∃ h' pmats' F',
    ptr_walk h (mods_ptrs sms) (seq a n) pmats = Some (h', pmats')
    ∧ Forall2 (matrix_at h' F') pmats'
              (free_walk (mods_of sms) (seq a n) Ms)
    ∧ (∀ x, x ∉ mods_locs (drop a sms) → h' !! x = h !! x).
Proof.
  revert a h pmats Ms F.
  induction n as [|n IH]; intros a h pmats Ms F [Hmods Hnd] HF HMs.
  - exists h, pmats, F. done.
  - cbn [seq ptr_walk free_walk]. unfold resolvente_at, mods_ptrs, mods_of.
    rewrite !list_lookup_fmap.
    destruct (sms !! a) as [[sm|]|] eqn:Ea; cbn [fmap option_fmap option_map
      mjoin option_join]; [|by exists h, pmats, F..].
    rewrite (drop_S _ _ _ Ea) in Hmods, Hnd, HF |- *.
    rewrite mods_locs_cons in Hnd, HF |- *. cbn [from_option] in *.
    apply Forall_cons_1 in Hmods as [Hsm Hmods]. cbn [from_option] in Hsm.
    apply NoDup_app in Hnd as (Hnd_sm & Hdisj & Hnd_rest).
    destruct (ptr_matrix_sim h sm Hsm Hnd_sm)
      as (h1 & pm & Hmat & HM1 & Hframe1 & _).
    rewrite Hmat. cbn [mbind option_bind].
    destruct (free_matrix (module_of sm)) as [mat zm] eqn:Efree.
    cbn [fst snd] in *.
    assert (HMs1 : Forall2 (matrix_at h1 F) pmats Ms).
    { eapply Forall2_impl; [done|]. intros pm' M'.
      apply matrix_at_agree. intros x Hx. apply Hframe1.
      intros Hin. apply (HF x Hx). apply elem_of_app. by left. }
    destruct zm.
    + exists h1, pmats, F. split; [done|]. split; [done|].
      intros x Hx. apply Hframe1. intros Hin. apply Hx, elem_of_app. by left.
    + destruct (IH (S a) h1 (pmats ++ [pm]) (Ms ++ [mat])
                  (F ++ module_locs sm))
        as (h' & pmats' & F' & Hwalk & HMs' & Hframe').
      * split; [|done]. apply (modules_agree h); [|done].
        intros x Hx. apply Hframe1. intros Hin. by apply (Hdisj x Hin).
      * intros x [Hx|Hx]%elem_of_app.
        -- intros Hin. apply (HF x Hx). apply elem_of_app. by right.
        -- by apply Hdisj.
      * apply Forall2_app.
        -- eapply Forall2_impl; [done|]. intros pm' M'.
           apply matrix_at_mono. intros x Hx. apply elem_of_app. by left.
        -- constructor; [|done]. eapply matrix_at_mono; [|done].
           intros x Hx. apply elem_of_app. by right.
      * exists h', pmats', F'. split; [done|]. split; [done|].
        intros x Hx. apply not_elem_of_app in Hx as [Hx1 Hx2].
        rewrite Hframe' by done. by apply Hframe1.
Qed.

(** Reading back *)
Lemma read_poly_list fuel h p ns :
  is_list h p ns → (length ns ≤ fuel)%nat → read_poly fuel h p = Some ns.*2.
Proof.
  revert p fuel. induction ns as [|[l t] ns IH]; intros p fuel Hl Hfuel.
  - unfold is_list in Hl. cbn in Hl. subst p. by destruct fuel.
  - destruct Hl as [-> (n & Hn & Hl)].
    destruct fuel as [|fuel]; [cbn in Hfuel; lia|].
    cbn [read_poly]. rewrite Hn. cbn [mbind option_bind node_next node_term].
    rewrite (IH n fuel Hl) by (cbn in Hfuel; lia). done.
Qed.

Lemma read_entry_at h F p (f : poly K) :
  poly_at h F p f → read_entry h p = Some f.
Proof.
  intros (ns & Hl & Hnd & <- & _). apply read_poly_list; [done|].
  by eapply is_seg_length.
Qed.

Lemma read_matrix_at h F pm (M : matrix K) :
  matrix_at h F pm M → read_matrix h pm = Some M.
Proof.
  intros (Hr & Hc & Hent). unfold read_matrix.
  assert (Hrows : mapM (mapM (read_entry h)) (pm_entries pm)
                  = Some (entries M)).
  { apply mapM_Some_2. eapply Forall2_impl; [done|].
    intros row rowM Hrow. apply mapM_Some_2.
    eapply Forall2_impl; [done|]. intros p f. apply read_entry_at. }
  rewrite Hrows. cbn. rewrite Hr, Hc. by destruct M.
Qed.

(** X18.  The decoder on the memory of Singular.  When the array of the
    modules of a handle stands in the memory, each generator in a linked
    list of its own without a repeated address, the loops of the decoder
    over the modules, the generators and the rows end without following a
    pointer to no node; the polynomials that the matrices then wrap spell
    the matrices that [to_sage_resolution] returns for the handle; and
    the memory is unchanged outside the nodes of the modules. *)
Theorem decoder_on_pointers (res : Resolution K) h
    (sms : list (option (stored_module (K := K)))) :
  mods_at h sms →
  select_mods (_resolution res) = Ok (mods_of sms) →
  ∃ h' pmats res_mats,
    decode h (mods_ptrs sms) (res_length (_resolution res))
    = Some (h', pmats)
    ∧ mapM (read_matrix h') pmats = Some res_mats
    ∧ to_sage_resolution res = Ok res_mats
    ∧ (∀ x, x ∉ mods_locs sms → h' !! x = h !! x).
Proof.
  intros Hmods Hsel.
  destruct (ptr_walk_sim (res_length (_resolution res)) 0 h sms [] [] [])
    as (h' & pmats & F' & Hwalk & HMs & Hframe);
    [by rewrite drop_0|by intros x ?%elem_of_nil|constructor|].
  rewrite drop_0 in Hframe.
  eexists h', pmats, _. split; [done|]. split; [|split; [|done]].
  - apply mapM_Some_2. eapply Forall2_impl; [done|].
    intros pm M. apply read_matrix_at.
  - unfold to_sage_resolution. by rewrite Hsel.
Qed.

(** *** The decoder on what it left *)

Lemma while_loop_inert fuel i h p p_iter prev ns :
  is_list h p_iter ns → Forall (λ lt, comp lt.2 ≠ i) ns →
  (length ns ≤ fuel)%nat →
  ∃ prev', while_loop fuel i (LoopState h p p_iter prev None None)
           = Some (LoopState h p None prev' None None).
Proof.
  revert fuel p_iter prev.
  induction ns as [|[l t] ns IH]; intros fuel p_iter prev Hl Hall Hfuel.
  - unfold is_list in Hl. cbn in Hl. subst p_iter. exists prev.
    by destruct fuel.
  - destruct Hl as [-> (n & Hn & Hl)].
    destruct fuel as [|fuel]; [cbn in Hfuel; lia|].
    apply Forall_cons_1 in Hall as [Hc Hall]. cbn in Hc.
    cbn [while_loop st_p_iter]. unfold loop_body. cbn [st_heap].
    rewrite Hn. cbn [mbind option_bind node_term node_next].
    destruct (decide (comp t = i)) as [|_]; [done|].
    cbn [st_heap st_p st_acc st_first].
    apply IH; [done|done|cbn in Hfuel; lia].
Qed.

Lemma ptr_rows_inert j (l : list nat) h G p pm zm :
  inert_at h G l p →
  ∃ pm', foldl (ptr_row j) (Some (h, p, pm, zm)) l = Some (h, p, pm', zm).
Proof.
  intros (ns & Hl & Hnd & _ & Hall). revert pm Hall.
  induction l as [|i l IH]; intros pm Hall; [by exists pm|].
  cbn [foldl]. unfold ptr_row at 2. cbn [mbind option_bind].
  destruct (while_loop_inert (size h) i h p p None ns) as [prev' Hloop].
  - done.
  - eapply Forall_impl; [done|]. intros lt Hlt Heq. apply Hlt.
    rewrite Heq. by left.
  - by eapply is_seg_length.
  - rewrite Hloop. cbn [mbind option_bind st_first st_heap st_p].
    rewrite bool_decide_eq_true_2 by done.
    assert (Hzm : (if zm then true else zm) = zm) by by destruct zm.
    rewrite Hzm. apply IH.
    eapply Forall_impl; [done|]. intros lt Hlt Hin. apply Hlt. by right.
Qed.

Lemma ptr_cols_inert rank h G (jps : list (nat * option loc)) pm zm :
  Forall (inert_at h G (seq 1 rank)) jps.*2 →
  ∃ pm', foldl (ptr_col rank) (Some (h, pm, zm)) jps = Some (h, pm', zm).
Proof.
  revert pm. induction jps as [|[j p] jps IH]; intros pm Hall;
    [by exists pm|].
  apply Forall_cons_1 in Hall as [Hp Hall]. cbn [foldl].
  unfold ptr_col at 2. cbn [mbind option_bind].
  destruct (ptr_rows_inert j (seq 1 rank) h G p pm zm Hp) as [pm1 ->].
  cbn [mbind option_bind]. by apply IH.
Qed.

Lemma imap_pair_snd {A} (l : list A) : (imap pair l).*2 = l.
Proof.
  apply list_eq. intros k. rewrite list_lookup_fmap, list_lookup_imap.
  by destruct (l !! k).
Qed.

Lemma ptr_matrix_inert h G (md : ideal_ptr) :
  Forall (inert_at h G (seq 1 (ptr_rank md))) (ptr_m md) →
  ∃ pm, ptr_matrix h md = Some (h, pm, true).
Proof.
  intros Hall. unfold ptr_matrix. eapply ptr_cols_inert.
  by rewrite imap_pair_snd.
Qed.

(** X19.  The decoder uses up what it reads.  When the array of the
    modules stands in the memory, each generator in a linked list of its
    own without a repeated address, and the decoder has run over it, a
    second run over the same array finds no term of a component from [1]
    to the rank in the first module, takes its matrix for zero and
    returns the empty list of matrices, and leaves the memory as the
    first run left it. *)
Theorem decoder_consumes_modules h
    (sms : list (option (stored_module (K := K)))) (len : nat) h' pmats :
  mods_at h sms →
  decode h (mods_ptrs sms) len = Some (h', pmats) →
  decode h' (mods_ptrs sms) len = Some (h', []).
Proof.
  intros [Hmods Hnd]. unfold decode.
  destruct len as [|n]; [done|]. cbn [seq ptr_walk].
  unfold mods_ptrs at 1 3. rewrite list_lookup_fmap.
  destruct sms as [|[sm|] sms]; cbn [lookup list_lookup fmap option_fmap
    option_map mjoin option_join]; [done| |done].
  rewrite mods_locs_cons in Hnd. cbn [from_option] in Hnd.
  apply Forall_cons_1 in Hmods as [Hsm Hmods]. cbn [from_option] in Hsm.
  apply NoDup_app in Hnd as (Hnd_sm & Hdisj & Hnd_rest).
  destruct (ptr_matrix_sim h sm Hsm Hnd_sm)
    as (h1 & pm & Hmat & HM1 & Hframe1 & Hinert).
  rewrite Hmat. cbn [mbind option_bind].
  assert (Hh' : Forall (inert_at h' (module_locs sm)
                          (seq 1 (ptr_rank sm.1))) (ptr_m sm.1)
                → match ptr_matrix h' sm.1 with
                  | Some (h0, mat, zero_mat) =>
                      if zero_mat : bool then Some (h0, [])
                      else ptr_walk h0 (mods_ptrs (Some sm :: sms))
                                    (seq 1 n) ([] ++ [mat])
                  | None => None
                  end = Some (h', [])).
  { intros Hin. by destruct (ptr_matrix_inert h' _ sm.1 Hin) as [pm' ->]. }
  destruct ((free_matrix (module_of sm)).2).
  - intros [= <- <-]. by apply Hh'.
  - intros Hwalk.
    destruct (ptr_walk_sim n 1 h1 (Some sm :: sms) ([] ++ [pm])
                [(free_matrix (module_of sm)).1] (module_locs sm))
      as (h2 & pmats2 & F2 & Hwalk2 & _ & Hframe2).
    + rewrite skipn_cons, drop_0. split; [|done].
      apply (modules_agree h); [|done].
      intros x Hx. apply Hframe1. intros Hin. by apply (Hdisj x Hin).
    + rewrite skipn_cons, drop_0. done.
    + by constructor.
    + rewrite Hwalk in Hwalk2. injection Hwalk2 as <- <-.
      rewrite skipn_cons, drop_0 in Hframe2.
      apply Hh'. eapply Forall_impl; [done|]. intros p.
      apply inert_at_agree. intros x Hx. apply Hframe2. by apply Hdisj.
Qed.
End pointer_facts.

(** ** The printed form *)

Section printed_form.
Context {K : Type}.

Lemma repr_loop (repr_module : Z → result string) (name : string)
    (ranks : list nat) (a : nat) (s : string) :
  (∀ k r, ranks !! k = Some r →
     repr_module (Z.of_nat (a + k))
     = Ok (if decide (0 < r)%nat then power_name name r else "0")) →
  foldl (λ s i, s ← s; mi ← repr_module i; Ok (s +:+ " <-- " +:+ mi))
        (Ok s) (Z.of_nat <$> seq a (length ranks))
  = Ok (foldl (λ s r, s +:+ " <-- "
                 +:+ (if decide (0 < r)%nat then power_name name r else "0"))
              s ranks).
Proof.
  revert a s. induction ranks as [|r ranks IH]; intros a s Hnames; [done|].
  cbn [length seq fmap list_fmap foldl mbind result_bind].
  rewrite <- (Nat.add_0_r a) at 1. rewrite (Hnames 0%nat r eq_refl).
  cbn [mbind result_bind]. apply IH. intros k r' Hk.
  rewrite <- (Hnames (S k) r' Hk). f_equal. lia.
Qed.

(** X20.  The printed form of a resolution made of an initial map and
    matrices is returned, whatever the matrices: the name with the rank
    of the domain of the initial map, then for every matrix the name with
    the number of its columns, or [0] for a matrix without columns, and a
    last [0].  The later form of the class prints the same with the
    number of the rows of the first matrix in the first place. *)
Theorem printed_form_of_resolution (d0 : coercion_map)
    (mats : list (matrix K)) name self :
  Free.__init__ (InitialMap d0 :: (MatrixMap <$> mats)) name = Ok self →
  __repr__ self = Ok (printed name (domain_rank d0) (ncols <$> mats))
  ∧ ∀ m0, head mats = Some m0 →
      Resolutions.__repr__ (Resolutions.__init__ mats name)
      = Ok (printed name (nrows m0) (ncols <$> mats)).
Proof.
  intros Hinit. rewrite free_init_cons in Hinit. injection Hinit as <-.
  rewrite length_fmap. split.
  - set (self := MkFreeResolution _ _ _).
    assert (Hr0 : _repr_module self 0 = Ok (power_name name (domain_rank d0))).
    { unfold _repr_module. rewrite decide_True by done.
      assert (H0 : py_getitem (__maps self) 0 = Ok (InitialMap d0))
        by by apply (py_getitem_nat _ 0%nat).
      by rewrite H0. }
    unfold __repr__, repr_with, printed. rewrite Hr0.
    cbn [mbind result_bind]. change (__length self) with (Z.of_nat (length mats)).
    unfold range_up. rewrite Nat2Z.id.
    rewrite <- (length_fmap ncols mats).
    rewrite (repr_loop _ name (ncols <$> mats) 1); [done|].
    intros k r Hk. rewrite list_lookup_fmap in Hk.
    destruct (mats !! k) as [mat|] eqn:Emat; [|done]. injection Hk as <-.
    apply lookup_lt_Some in Emat as Hlt.
    unfold _repr_module. change (__length self) with (Z.of_nat (length mats)).
    rewrite decide_False by lia. rewrite decide_False by lia.
    assert (Hget : py_getitem (__maps self) (Z.of_nat (1 + k))
                   = Ok (MatrixMap mat)).
    { apply py_getitem_nat.
      change ((MatrixMap <$> mats) !! k = Some (MatrixMap mat)).
      by rewrite list_lookup_fmap, Emat. }
    by rewrite Hget.
  - intros m0 Hm0. destruct mats as [|m mats']; [done|].
    injection Hm0 as ->.
    set (self := Resolutions.__init__ (m0 :: mats') name).
    assert (Hr0 : Resolutions._repr_module self 0
                  = Ok (power_name name (nrows m0))).
    { unfold Resolutions._repr_module. rewrite decide_True by done.
      assert (H0 : py_getitem (Resolutions.__maps self) 0 = Ok m0)
        by by apply (py_getitem_nat _ 0%nat).
      by rewrite H0. }
    unfold Resolutions.__repr__, repr_with, printed. rewrite Hr0.
    cbn [mbind result_bind].
    change (Resolutions.__length self)
      with (Z.of_nat (length (m0 :: mats'))).
    unfold range_up. rewrite Nat2Z.id.
    rewrite <- (length_fmap ncols (m0 :: mats')).
    rewrite (repr_loop _ name (ncols <$> (m0 :: mats')) 1); [done|].
    intros k r Hk. rewrite list_lookup_fmap in Hk.
    destruct ((m0 :: mats') !! k) as [mat|] eqn:Emat; [|done].
    injection Hk as <-.
    apply lookup_lt_Some in Emat as Hlt.
    unfold Resolutions._repr_module.
    change (Resolutions.__length self)
      with (Z.of_nat (length (m0 :: mats'))).
    rewrite decide_False by lia. rewrite decide_False by lia.
    assert (Hget : py_getitem (Resolutions.__maps self)
                     (Z.of_nat (1 + k) - 1) = Ok mat).
    { replace (Z.of_nat (1 + k) - 1) with (Z.of_nat k) by lia.
      by apply py_getitem_nat. }
    by rewrite Hget.
Qed.
End printed_form.

(** ** The further properties at the twisted cubic *)

Lemma pointer_loop_splits_witness :
  let ns := [(0%nat, Example.y (-1) 1%nat); (1%nat, Example.z 1 2%nat);
             (2%nat, Example.w (-1) 3%nat)] in
  let h := (Pointers.store_poly (∅ : Pointers.heap Z) 0 ns.*2).1 in
  Pointers.is_list h (Some 0%nat) ns ∧ NoDup ns.*1
  ∧ ∃ st,
      Pointers.while_loop (size h) 2
        (Pointers.LoopState h (Some 0%nat) (Some 0%nat) None None None)
      = Some st
      ∧ Pointers.is_list (Pointers.st_heap st) (Pointers.st_first st)
                         [(1%nat, Example.z 1 0%nat)]
      ∧ Pointers.is_list (Pointers.st_heap st) (Pointers.st_p st)
                         [(0%nat, Example.y (-1) 1%nat);
                          (2%nat, Example.w (-1) 3%nat)].
Proof.
  intros ns h.
  assert (Hlist : Pointers.is_list h (Some 0%nat) ns).
  { repeat (split; [reflexivity|]; eexists; split; [reflexivity|]).
    reflexivity. }
  assert (Hnd : NoDup ns.*1) by (apply (bool_decide_unpack _); vm_compute; exact I).
  split; [exact Hlist|]. split; [exact Hnd|].
  destruct (pointer_loop_splits 2 h (Some 0%nat) ns Hlist Hnd)
    as (st & Hloop & _ & Hfirst & _ & Hp & _).
  exists st. split; [exact Hloop|]. split; [exact Hfirst|exact Hp].
Defined.

Lemma cubic_free_init :
  Free.__init__ (InitialMap (CoercionMap 1)
                 :: (MatrixMap <$> (presentation
                        <$> [Example.mod1 1 (-1); Example.mod2 1 (-1)])))
                "S" = Ok (resolution cubic_resolution).
Proof. reflexivity. Defined.

Lemma differential_between_modules_witness :
  let mat := presentation (Example.mod1 1 (-1)) in
  Free.differential (resolution cubic_resolution) 1
  = Ok (MatrixHom (FreeModule 3) (FreeModule 1) (MatrixMap mat))
  ∧ Free.matrix (resolution cubic_resolution) 1 = Ok (MatrixMap mat)
  ∧ Free.__getitem__ (resolution cubic_resolution) 0 = Ok (FreeModule 1)
  ∧ Free.__getitem__ (resolution cubic_resolution) 1 = Ok (FreeModule 3).
Proof.
  destruct (differential_between_modules (CoercionMap 1)
              (presentation <$> [Example.mod1 1 (-1); Example.mod2 1 (-1)])
              "S" (resolution cubic_resolution) 0
              (presentation (Example.mod1 1 (-1)))
              cubic_free_init eq_refl) as (Hd & Hm & Hcod & Hdom).
  split; [exact Hd|]. split; [exact Hm|]. split; [exact Hcod|].
  apply Hdom. intros nxt Hnxt. injection Hnxt as <-. reflexivity.
Defined.

Lemma chain_complex_matrices_witness :
  ∃ mats, chain_complex Ok (resolution cubic_resolution) = Ok mats
    ∧ mats !! 2 = Some (MatrixMap (presentation (Example.mod2 1 (-1))))
    ∧ mats !! 0 = None.
Proof.
  destruct (chain_complex_matrices Ok _ "S" (resolution cubic_resolution)
              cubic_free_init) as (mats & Hc & Hmats).
  exists mats. split; [exact Hc|]. split.
  - rewrite (Hmats 2). reflexivity.
  - rewrite (Hmats 0). reflexivity.
Defined.

Lemma graded_resolution_is_ungraded_witness :
  Polynomial.__init__ CubicEngine.engine (Example.ideal 1 (-1)) "S" "shreyer"
                      []
  = (Ok (resolution cubic_resolution), cubic_log).
Proof.
  exact (graded_resolution_is_ungraded CubicEngine.engine
           (Example.ideal 1 (-1)) [1; 1; 1; 1] None "S" "shreyer" []
           cubic_resolution cubic_log cubic_init).
Defined.

Lemma graded_constructor_outcome_witness :
  ∃ res log',
    __init__ CubicEngine.engine (Example.ideal 1 (-1)) [1; 1; 1; 1] None "S"
             "shreyer" [] = (res, log')
    ∧ (is_Ok res ↔
       ∃ R rank r mods,
         classify (Example.ideal 1 (-1)) = Ok (R, rank)
         ∧ length [1; 1; 1; 1] = N R ∧ [1; 1; 1; 1] ≠ []
         ∧ resolution_of CubicEngine.engine "shreyer"
             (Singular.singular_module CubicEngine.engine
                (Example.ideal 1 (-1)))
           = Some r
         ∧ select_mods (_resolution r) = Ok mods
         ∧ steps_in_range (seed_shifts rank None)
             (degree_table [1; 1; 1; 1]
                <$> live_prefix (take (res_length (_resolution r)) mods))).
Proof.
  destruct (graded_constructor_outcome CubicEngine.engine
              (Example.ideal 1 (-1)) [1; 1; 1; 1] None "S" "shreyer" [])
    as (res & log' & Hinit & Hiff & _).
  - intros R rank r Hc Hr. vm_compute in Hc, Hr.
    injection Hc as <- _. injection Hr as <-. reflexivity.
  - exists res, log'. split; [exact Hinit|exact Hiff].
Defined.

Lemma short_shifts_raise_witness :
  ∃ log',
    __init__ CubicEngine.engine (Example.ideal 1 (-1)) [1; 1; 1; 1] (Some [])
             "S" "shreyer" []
    = (Raise (IndexError "list index out of range"), log').
Proof.
  apply (short_shifts_raise CubicEngine.engine (Example.ideal 1 (-1))
           [1; 1; 1; 1] (Some []) "S" "shreyer" [] (Ring 4) 1%nat 1
           CubicEngine.handle cubic_mods);
    [reflexivity..|].
  right. split; [reflexivity|]. vm_compute. discriminate.
Defined.

Lemma decoded_degrees_fit_matrices_witness :
  ∃ res_mats res_degs,
    to_sage_resolution_graded CubicEngine.handle [1; 1; 1; 1]
    = Ok (res_mats, res_degs)
    ∧ length res_degs = length res_mats
    ∧ res_degs = [[[Some 2]; [Some 2]; [Some 2]];
                  [[Some 1; Some 1; Some 1]; [Some 1; Some 1; Some 1]]].
Proof.
  eexists _, _. split; [vm_compute; reflexivity|]. split; [|reflexivity].
  eapply (proj1 (decoded_degrees_fit_matrices CubicEngine.handle
                   [1; 1; 1; 1] _ _ _)).
  Unshelve. vm_compute; reflexivity.
Defined.

Lemma decoded_column_terms_witness :
  let mat := presentation (Example.mod2 1 (-1)) in
  ∃ md, cubic_mods !! 1%nat = Some (Some md)
    ∧ nrows mat = rank md ∧ ncols mat = IDELEMS md
    ∧ ∀ j q, m md !! j = Some q →
        mjoin ((λ i, default [] (entry mat i j)) <$> seq 0 (nrows mat))
        ≡ₚ (λ t, p_SetComp t 0)
             <$> filter (λ t, 1 ≤ comp t ≤ rank md)%nat q.
Proof.
  apply (decoded_column_terms CubicEngine.handle cubic_mods
           (presentation <$> [Example.mod1 1 (-1); Example.mod2 1 (-1)])
           1 (presentation (Example.mod2 1 (-1)))); reflexivity.
Defined.

Lemma betti_dictionary_and_number_witness :
  ∃ betti,
    Graded.betti cubic_resolution 1 None = Ok (BettiDict betti)
    ∧ betti !! 2 = Some 3
    ∧ Graded.betti cubic_resolution 1 (Some 2) = Ok (BettiInt 3)
    ∧ Graded.betti cubic_resolution 1 (Some 7) = Ok (BettiInt 0).
Proof.
  assert (Heq : eq_of_hashable Z) by (intros d s _ _; apply Z.eqb_eq).
  destruct (betti_dictionary_and_number cubic_resolution 1 [2; 2; 2] Heq
              eq_refl) as [Hdict _].
  destruct Hdict as (betti & Hb & Hkeys & _ & Hnum);
    [by repeat constructor|].
  exists betti. split; [exact Hb|].
  assert (H2 : betti !! 2 = Some 3) by (rewrite (Hkeys 2); reflexivity).
  assert (H7 : betti !! 7 = None) by (rewrite (Hkeys 7); reflexivity).
  split; [exact H2|]. split.
  - rewrite (Hnum 2 eq_refl), H2. reflexivity.
  - rewrite (Hnum 7 eq_refl), H7. reflexivity.
Defined.


(** The later class takes the degrees as tuples, of which it makes
    vectors. *)
Lemma graded_minimal_constructor_agrees_witness :
  ∃ a b log',
    GradedMinimal.__init__ CubicEngine.engine (Example.ideal 1 (-1))
      [[# 3; 0]; [# 2; 1]; [# 1; 2]; [# 0; 3]] None "S" "shreyer" []
    = (Ok a, log')
    ∧ __init__ CubicEngine.engine (Example.ideal 1 (-1)) cubic_bidegrees
               None "S" "shreyer" [] = (Ok b, log')
    ∧ GradedMinimal._res_shifts a = _res_betti b
    ∧ GradedMinimal._degrees a = cubic_bidegrees.
Proof.
  destruct (graded_minimal_constructor_agrees (A := vec Z 2)
              CubicEngine.engine (λ _, Raise (ValueError "names"))
              (Example.ideal 1 (-1)) [[# 3; 0]; [# 2; 1]; [# 1; 2]; [# 0; 3]]
              None "S" "shreyer" [])
    as (res & res' & log' & Hb & Ha & Hagree).
  assert (Hc : ∃ b, __init__ CubicEngine.engine (Example.ideal 1 (-1))
                      cubic_bidegrees None "S" "shreyer" []
                    = (Ok b, cubic_log))
    by (eexists; vm_compute; reflexivity).
  destruct Hc as [b Hc].
  change (degree_of <$> [[# 3; 0]; [# 2; 1]; [# 1; 2]; [# 0; 3]])
    with cubic_bidegrees in Hb.
  rewrite Hc in Hb. injection Hb as <- <-.
  destruct res' as [a|e]; [|destruct Hagree].
  destruct Hagree as (_ & _ & _ & Hs & Hd & _).
  exists a, b, cubic_log. split; [exact Ha|]. split; [exact Hc|].
  split; [exact Hs|exact Hd].
Defined.

Lemma translated_shifts_witness :
  __init__ CubicEngine.engine (Example.ideal 1 (-1)) [1; 1; 1; 1] (Some [0])
           "S" "shreyer" [] = (Ok cubic_resolution, cubic_log)
  ∧ ∃ self,
      __init__ CubicEngine.engine (Example.ideal 1 (-1)) [1; 1; 1; 1]
               (Some [5]) "S" "shreyer" [] = (Ok self, cubic_log)
      ∧ _res_betti self = [[7; 7; 7]; [8; 8]].
Proof.
  assert (Hinit : __init__ CubicEngine.engine (Example.ideal 1 (-1))
                    [1; 1; 1; 1] (Some [0]) "S" "shreyer" []
                  = (Ok cubic_resolution, cubic_log))
    by (vm_compute; reflexivity).
  assert (Hassoc : ∀ a b c : Z,
            deg_add a (deg_add b c) = deg_add (deg_add a b) c)
    by (intros a b c; cbn; lia).
  split; [exact Hinit|]. eexists. split.
  - exact (translated_shifts CubicEngine.engine Hassoc 5
             (Example.ideal 1 (-1)) [1; 1; 1; 1] [0] "S" "shreyer" []
             cubic_resolution cubic_log Hinit).
  - reflexivity.
Defined.

Lemma resolutions_agree_witness :
  let a := Resolutions.__init__
             (presentation <$> [Example.mod1 1 (-1); Example.mod2 1 (-1)])
             "S" in
  Resolutions.__len__ a = 2
  ∧ (∀ i, Resolutions.__getitem__ a i
          = Free.__getitem__ (resolution cubic_resolution) i)
  ∧ (∀ i, Resolutions.matrix a i
          = Free.matrix (resolution cubic_resolution) i).
Proof.
  destruct (resolutions_agree (CoercionMap 1)
              (presentation <$> [Example.mod1 1 (-1); Example.mod2 1 (-1)])
              "S" (resolution cubic_resolution))
    as (Hlen & Hget & _ & Hmat & _).
  - discriminate.
  - exact cubic_free_init.
  - split; [exact Hlen|]. split; [exact Hget|exact Hmat].
Defined.

Lemma stored_cubic_at :
  Pointers.mods_at Pointers.StoredCubic.memory Pointers.StoredCubic.sms.
Proof.
  split.
  - repeat (constructor;
            [repeat (constructor;
               [repeat (split; [reflexivity|]; eexists;
                        split; [reflexivity|]); reflexivity|]);
             try constructor|]).
    constructor.
  - apply (bool_decide_unpack _). vm_compute. exact I.
Defined.

Lemma decoder_on_pointers_witness :
  Pointers.mods_at Pointers.StoredCubic.memory Pointers.StoredCubic.sms
  ∧ select_mods (_resolution CubicEngine.handle)
    = Ok (Pointers.mods_of Pointers.StoredCubic.sms)
  ∧ ∃ h' pmats,
      Pointers.decode Pointers.StoredCubic.memory
        (Pointers.mods_ptrs Pointers.StoredCubic.sms) 3 = Some (h', pmats)
      ∧ mapM (Pointers.read_matrix h') pmats
        = Some (presentation <$> [Example.mod1 1 (-1); Example.mod2 1 (-1)])
      ∧ to_sage_resolution CubicEngine.handle
        = Ok (presentation <$> [Example.mod1 1 (-1); Example.mod2 1 (-1)]).
Proof.
  split; [exact stored_cubic_at|]. split; [reflexivity|].
  destruct (decoder_on_pointers CubicEngine.handle
              Pointers.StoredCubic.memory Pointers.StoredCubic.sms
              stored_cubic_at eq_refl)
    as (h' & pmats & res_mats & Hdec & Hread & Hres & _).
  exists h', pmats.
  assert (Hmats : res_mats = presentation
                    <$> [Example.mod1 1 (-1); Example.mod2 1 (-1)]).
  { assert (Hc : to_sage_resolution CubicEngine.handle
                 = Ok (presentation
                         <$> [Example.mod1 1 (-1); Example.mod2 1 (-1)]))
      by reflexivity.
    rewrite Hres in Hc. by injection Hc. }
  rewrite <- Hmats. split; [exact Hdec|]. split; [exact Hread|exact Hres].
Defined.

Lemma decoder_consumes_modules_witness :
  ∃ h' pmats,
    Pointers.decode Pointers.StoredCubic.memory
      (Pointers.mods_ptrs Pointers.StoredCubic.sms) 3 = Some (h', pmats)
    ∧ length pmats = 2%nat
    ∧ Pointers.decode h' (Pointers.mods_ptrs Pointers.StoredCubic.sms) 3
      = Some (h', []).
Proof.
  eexists _, _.
  assert (Hdec : Pointers.decode Pointers.StoredCubic.memory
                   (Pointers.mods_ptrs Pointers.StoredCubic.sms) 3
                 = Some (_, _)) by (vm_compute; reflexivity).
  split; [exact Hdec|]. split; [reflexivity|].
  exact (decoder_consumes_modules Pointers.StoredCubic.memory
           Pointers.StoredCubic.sms 3 _ _ stored_cubic_at Hdec).
Defined.

Lemma printed_form_of_resolution_witness :
  __repr__ (resolution cubic_resolution) = Ok "S^1 <-- S^3 <-- S^2 <-- 0"
  ∧ Resolutions.__repr__
      (Resolutions.__init__
         (presentation <$> [Example.mod1 1 (-1); Example.mod2 1 (-1)]) "S")
    = Ok "S^1 <-- S^3 <-- S^2 <-- 0".
Proof.
  destruct (printed_form_of_resolution (CoercionMap 1)
              (presentation <$> [Example.mod1 1 (-1); Example.mod2 1 (-1)])
              "S" (resolution cubic_resolution) cubic_free_init)
    as [Hold Hnew].
  split; [exact Hold|]. exact (Hnew _ eq_refl).
Defined.
